(** * pdfplaca: text splitting, escaping, page chunking and the fit solvers

    A shallow embedding of the parts of [pdfplaca.cpp] that decide how a
    text is cut into characters and pages and how a row or a column is
    scaled into its band, followed by the properties proved about them.
    The embedding goes on with the decoding of UTF-8 and the tests of the
    script of a text, the rows, columns and gaps of a page, the page sizes
    of [page_size.h] and the command line; their properties are Part III.

    Conventions of the embedding.
    - A [char] is a [byte]; a [std::string] is the list of its bytes.  A
      [const char *] argument is the list of the bytes in front of its
      terminating NUL; where the source converts with [.c_str()] the model
      applies [c_str], which cuts at the first NUL.
    - A [double] is an exact rational ([Q]): the arithmetic of the solvers
      is modelled without rounding, overflow, infinities or NaN.  [Q]
      resolves a division by zero to 0 where a double gives an infinity or
      a NaN, so the statements about the values of quotients carry the
      hypotheses that make the divisors non-zero, and state that the
      factors they divide by are positive.
    - Where a statement turns on the rounding itself, the horizontal
      solver is embedded a second time, in the module [Binary64], with a
      [double] a binary64 number ([float]) and every operation rounded as
      IEEE 754 rounds it.
    - A text that is UTF-8 is given by the list of its code points, and
      [u8_encode_all] is its bytes.
    - [size_t] values are integers reduced modulo [2 ^ size_bits].
    - A [for (;;)] or [while] loop whose trip count is not known when it is
      entered takes a fuel argument and answers [OutOfFuel] when the fuel
      is used up.
    - A [_TCHAR] string of the command line is the list of the bytes of
      its UTF-8 form.
    - What the program takes from cairo, the C library and the operating
      system is a variable of the section that uses it.
    - [assert(0)] stops a build with assertions and does nothing in a
      build with [NDEBUG], so [NDEBUG] is a variable of the model; and a
      read behind the NUL of a C string gives a byte of which nothing is
      known, so the memory there is a variable too. *)

From Stdlib Require Import Strings.Byte Strings.String.
From Stdlib Require Import List Bool Arith ZArith NArith QArith Qround Lia Lqa.
From Stdlib Require Import Floats.PrimFloat.
Import ListNotations.

Close Scope Q_scope.

(* ================================================================== *)
(** * Part I: the embedding *)
(* ================================================================== *)

(** ** Strings *)

Definition bytes_of (s : string) : list byte := list_byte_of_string s.

(** [std::string::c_str] read back as a C string: the bytes in front of the
    first NUL. *)
Fixpoint c_str (s : list byte) : list byte :=
  match s with
  | [] => []
  | ch :: s' => if Byte.eqb ch x00 then [] else ch :: c_str s'
  end.

Definition is_empty {A : Type} (l : list A) : bool :=
  match l with [] => true | _ :: _ => false end.

(** ** UTF-8 helpers *)

(** [u8_is_lead]: [(ch & 0xC0) != 0x80]. *)
Definition u8_is_lead (ch : byte) : bool :=
  negb (N.eqb (N.land (Byte.to_N ch) 192) 128).

(** [u8_len]: the number of lead bytes of a C string. *)
Fixpoint u8_len (str : list byte) : nat :=
  match str with
  | [] => 0
  | ch :: str' => if u8_is_lead ch then S (u8_len str') else u8_len str'
  end.

(** The scan of [u8_split_chars]: [s] is the character being collected,
    [chars] the vector filled so far. *)
Fixpoint u8_split_chars_loop (str s : list byte) (chars : list (list byte))
  : list (list byte) :=
  match str with
  | [] => if is_empty s then chars else chars ++ [s]
  | pch :: str' =>
      if u8_is_lead pch && negb (is_empty s)
      then u8_split_chars_loop str' [pch] (chars ++ [s])
      else u8_split_chars_loop str' (s ++ [pch]) chars
  end.

(** [u8_split_chars(chars, str)] appends the characters of [str] to the
    vector [chars]. *)
Definition u8_split_chars (chars : list (list byte)) (str : list byte)
  : list (list byte) :=
  u8_split_chars_loop str [] chars.

(** ** Escaping *)

Fixpoint mstr_escape_loop (text ret : list byte) : list byte :=
  match text with
  | [] => ret
  | ch :: text' =>
      match ch with
      | x09 => mstr_escape_loop text' (ret ++ [x5c; x74])
      | x0a => mstr_escape_loop text' (ret ++ [x5c; x6e])
      | x0d => mstr_escape_loop text' (ret ++ [x5c; x72])
      | x0c => mstr_escape_loop text' (ret ++ [x5c; x66])
      | x5c => mstr_escape_loop text' (ret ++ [x5c; x5c])
      | _ => mstr_escape_loop text' (ret ++ [ch])
      end
  end.

Definition mstr_escape (text : list byte) : list byte :=
  mstr_escape_loop text [].

(** The loop of [mstr_unescape]; [text] is what is left from index [ich]
    on, so [ich + 1 == text.size()] reads "nothing follows [ch]". *)
Fixpoint mstr_unescape_loop (text : list byte) (escaping : bool)
  (ret : list byte) : list byte :=
  match text with
  | [] => ret
  | ch :: text' =>
      if escaping then
        match ch with
        | x74 => mstr_unescape_loop text' false (ret ++ [x09])
        | x6e => mstr_unescape_loop text' false (ret ++ [x0a])
        | x72 => mstr_unescape_loop text' false (ret ++ [x0d])
        | x66 => mstr_unescape_loop text' false (ret ++ [x0c])
        | x5c => mstr_unescape_loop text' false (ret ++ [x5c])
        | _ => mstr_unescape_loop text' false (ret ++ [ch])
        end
      else if Byte.eqb ch x5c then
        if is_empty text' then ret ++ [ch]
        else mstr_unescape_loop text' true ret
      else mstr_unescape_loop text' false (ret ++ [ch])
  end.

Definition mstr_unescape (text : list byte) : list byte :=
  mstr_unescape_loop text false [].

(** The raw control characters that [mstr_escape] rewrites. *)
Definition is_control (ch : byte) : bool :=
  match ch with
  | x09 | x0a | x0d | x0c => true
  | _ => false
  end.

(** ** Replacing *)

(** Does [str] begin with [from]? *)
Fixpoint starts_with (from str : list byte) : bool :=
  match from, str with
  | [], _ => true
  | _ :: _, [] => false
  | a :: from', b :: str' => Byte.eqb a b && starts_with from' str'
  end.

(** [str.find(from, i)]: the first index not below [i] at which [from]
    occurs in [str], [None] for [npos]. *)
Fixpoint find (from str : list byte) (i : nat) {struct str} : option nat :=
  match str with
  | [] =>
      match i with
      | O => if is_empty from then Some 0 else None
      | S _ => None
      end
  | _ :: str' =>
      match i with
      | O => if starts_with from str then Some 0
             else option_map S (find from str' 0)
      | S i' => option_map S (find from str' i')
      end
  end.

(** The loop of [mstr_replace_all]: [str.replace(i, from.size(), to)] at
    each occurrence found, the search going on behind what was put in. *)
Fixpoint mstr_replace_all_loop (fuel : nat) (str from to : list byte) (i : nat)
  : option (list byte) :=
  match fuel with
  | O => None
  | S fuel' =>
      match find from str i with
      | None => Some str
      | Some j =>
          mstr_replace_all_loop fuel'
            (firstn j str ++ to ++ skipn (j + length from) str)
            from to (j + length to)
      end
  end.

(** [mstr_replace_all(str, from, to)], as the new value of [str].  Each
    turn of the loop moves the search position at least [from.size()]
    bytes closer to the end, so one turn per byte and one more are enough
    when [from] is not empty ([mstr_replace_all_total]). *)
Definition mstr_replace_all (str from to : list byte) : option (list byte) :=
  mstr_replace_all_loop (S (length str)) str from to 0.

(** ** Pages of a fixed number of letters *)

Section LettersPerPage.

(** The width of [size_t]. *)
Variable size_bits : Z.

Definition size_t (z : Z) : Z := (z mod 2 ^ size_bits)%Z.

(** "Delete spaces" in [pdfplaca_do_it]: blanks, tabs, carriage returns,
    line feeds and ideographic spaces are taken out, in this order. *)
Definition delete_spaces (utf8_text : list byte) : option (list byte) :=
  match mstr_replace_all utf8_text (bytes_of " ") [] with
  | None => None
  | Some t1 =>
  match mstr_replace_all t1 [x09] [] with
  | None => None
  | Some t2 =>
  match mstr_replace_all t2 [x0d] [] with
  | None => None
  | Some t3 =>
  match mstr_replace_all t3 [x0a] [] with
  | None => None
  | Some t4 => mstr_replace_all t4 (bytes_of "　") []
  end end end end.

(** The inner loop [for (; iChar < (iPage + 1) * g_letters_per_page;
    ++iChar)], entered with [n] turns to go. *)
Fixpoint page_chars_loop (n : nat) (chars : list (list byte)) (iChar : Z)
  (str : list byte) : Z * list byte :=
  match n with
  | O => (iChar, str)
  | S n' =>
      let str' :=
        if (iChar <? Z.of_nat (length chars))%Z
        then str ++ nth (Z.to_nat iChar) chars []
        else str in
      page_chars_loop n' chars (iChar + 1)%Z str'
  end.

(** The loop over the pages, entered with [n] pages to go; [pages] collects
    the texts handed to [pdfplaca_draw_page]. *)
Fixpoint draw_pages_loop (n : nat) (chars : list (list byte))
  (g_letters_per_page iPage iChar : Z) (pages : list (list byte))
  : list (list byte) :=
  match n with
  | O => pages
  | S n' =>
      let bound := size_t ((iPage + 1) * g_letters_per_page) in
      let '(iChar', str) :=
        page_chars_loop (Z.to_nat (bound - iChar)) chars iChar [] in
      draw_pages_loop n' chars g_letters_per_page (iPage + 1)%Z iChar'
        (pages ++ [c_str str])
  end.

(** [num_page = (chars.size() + g_letters_per_page - 1) / g_letters_per_page]
    in [size_t] arithmetic. *)
Definition num_page (chars : list (list byte)) (g_letters_per_page : Z) : Z :=
  (size_t (size_t (Z.of_nat (length chars) + g_letters_per_page) - 1)
   / g_letters_per_page)%Z.

(** The pages drawn by [pdfplaca_do_it] for the text [utf8_text], which has
    been unescaped and has had its tabs widened: the whole text on one page
    when [g_letters_per_page] is [-1], pages of [g_letters_per_page]
    characters of the text without its spaces when it is positive, and no
    page otherwise. *)
Definition pdfplaca_do_it_pages (utf8_text : list byte) (g_letters_per_page : Z)
  : option (list (list byte)) :=
  if (g_letters_per_page =? -1)%Z then Some [c_str utf8_text]
  else if (0 <? g_letters_per_page)%Z then
    match delete_spaces utf8_text with
    | None => None
    | Some stripped =>
        let chars := u8_split_chars [] (c_str stripped) in
        Some (draw_pages_loop
                (Z.to_nat (num_page chars g_letters_per_page))
                chars g_letters_per_page 0 0 [])
    end
  else Some [].

End LettersPerPage.

(** ** Character classes *)

Fixpoint bytes_eqb (a b : list byte) : bool :=
  match a, b with
  | [], [] => true
  | x :: a', y :: b' => Byte.eqb x y && bytes_eqb a' b'
  | _, _ => false
  end.

(** [u8_contains_one_of(ptr, char_set)]: is the string [ptr] one of the
    characters of [char_set]? *)
Definition u8_contains_one_of (ptr char_set : list byte) : bool :=
  existsb (fun ch => bytes_eqb ch ptr) (u8_split_chars [] char_set).

Definition u8_is_space (ptr : list byte) : bool :=
  u8_contains_one_of ptr (bytes_of " 　").

Definition u8_is_paren_type_1 (ptr : list byte) : bool :=
  u8_contains_one_of ptr
    (bytes_of "(（[［〔【｛〈《≪｟⁅〖〘«»〙〗⁆｠≫》〉｝】〕］]）)").

Definition u8_is_paren_type_2 (ptr : list byte) : bool :=
  u8_contains_one_of ptr (bytes_of "「『").

Definition u8_is_paren_type_3 (ptr : list byte) : bool :=
  u8_contains_one_of ptr (bytes_of "』」").

Definition u8_is_comma_period (ptr : list byte) : bool :=
  u8_contains_one_of ptr (bytes_of "、。，．").

Definition u8_is_hyphen_dash (ptr : list byte) : bool :=
  u8_contains_one_of ptr (bytes_of "-－―ー=＝≡～").

Definition u8_is_small_kana (ptr : list byte) : bool :=
  u8_contains_one_of ptr
    (bytes_of "ぁぃぅぇぉっゃゅょゎゕゖァィゥェォヵㇰヶㇱㇲッㇳㇴㇵㇶㇷㇸㇹㇺャュョㇻㇼㇽㇾㇿヮ").

(** ** Metrics *)

Local Open Scope Q_scope.

(** The fields of cairo's [cairo_text_extents_t] and
    [cairo_font_extents_t]. *)
Record cairo_text_extents_t : Type := {
  te_x_bearing : Q;
  te_y_bearing : Q;
  te_width : Q;
  te_height : Q;
  te_x_advance : Q;
  te_y_advance : Q
}.

Record cairo_font_extents_t : Type := {
  fe_ascent : Q;
  fe_descent : Q;
  fe_height : Q;
  fe_max_x_advance : Q;
  fe_max_y_advance : Q
}.

(** What a solver hands back through [font_size], [scale_x] and [scale_y]
    when it returns [true]. *)
Record FitResult : Type := {
  fit_font_size : Q;
  fit_scale_x : Q;
  fit_scale_y : Q
}.

(** The end of a run of a loop: it came back with a value, or the fuel was
    used up first. *)
Inductive outcome (A : Type) : Type :=
| Returns (a : A)
| OutOfFuel.

Arguments Returns {A} a.
Arguments OutOfFuel {A}.

(** [x < y] on doubles. *)
Definition Qltb (x y : Q) : bool := negb (Qle_bool y x).

(** [!x] on a double. *)
Definition Qzero (x : Q) : bool := Qeq_bool x 0.

Definition SMALL_KANA_RATIO : Q := 0.55.

Section FitSolver.

(** The selected font, as cairo measures it: [cairo_text_extents] and
    [cairo_font_extents] at the font size that was last set on [cr]. *)
Variable cairo_text_extents : Q -> list byte -> cairo_text_extents_t.
Variable cairo_font_extents : Q -> cairo_font_extents_t.

(** [pdf_get_h_text_width_and_height], as [(text_width, text_height)]. *)
Definition pdf_get_h_text_width_and_height (font_size : Q)
  (chars : list (list byte)) : Q * Q :=
  let font_extents := cairo_font_extents font_size in
  fold_left
    (fun (acc : Q * Q) (text_char : list byte) =>
       let (text_width, text_height) := acc in
       let extents := cairo_text_extents font_size text_char in
       let text_height :=
         if Qltb text_height (te_height extents)
         then te_height extents else text_height in
       let text_height :=
         if Qltb text_height (fe_height font_extents)
         then fe_height font_extents else text_height in
       (text_width + te_x_advance extents, text_height))
    chars (0, 0).

(** [pdf_get_v_text_width_and_height], as [(text_width, text_height)]. *)
Definition pdf_get_v_text_width_and_height (font_size : Q)
  (chars : list (list byte)) : Q * Q :=
  fold_left
    (fun (acc : Q * Q) (text_char : list byte) =>
       let (text_width, text_height) := acc in
       let extents := cairo_text_extents font_size text_char in
       if u8_is_space text_char then
         ((if Qltb text_width (te_width extents)
           then te_width extents else text_width),
          text_height + te_x_advance extents)
       else if u8_is_small_kana text_char then
         ((if Qltb text_width (te_width extents * SMALL_KANA_RATIO)
           then te_width extents * SMALL_KANA_RATIO else text_width),
          text_height + te_height extents * SMALL_KANA_RATIO)
       else if u8_is_hyphen_dash text_char then
         ((if Qltb text_width (te_height extents)
           then te_height extents else text_width),
          text_height + te_width extents)
       else if u8_is_paren_type_1 text_char
               || u8_is_paren_type_2 text_char
               || u8_is_paren_type_3 text_char then
         ((if Qltb text_width (te_height extents)
           then te_height extents else text_width),
          text_height + te_width extents)
       else
         ((if Qltb text_width (te_width extents)
           then te_width extents else text_width),
          text_height + te_height extents))
    chars (0, 0).

(** *** The horizontal solver *)

(** The local [extents] of [pdf_scaling_h_text].  The function declares it
    and tests it in the loop but never assigns it, so its value is whatever
    the stack holds: it is a parameter of the model. *)
Variable extents : cairo_text_extents_t.

(** The [for (;;)] of [pdf_scaling_h_text]; [Returns None] is
    [return false], [Returns (Some r)] is [break] with the values of
    [font_size], [scale_x] and [scale_y] in [r]. *)
Fixpoint pdf_scaling_h_text_loop (fuel : nat) (chars : list (list byte))
  (width height threshold font_size scale_x scale_y : Q)
  : outcome (option FitResult) :=
  match fuel with
  | O => OutOfFuel
  | S fuel' =>
      let (text_width, text_height) :=
        pdf_get_h_text_width_and_height font_size chars in
      if Qle_bool 10000 font_size
         || Qzero (te_width extents) || Qzero (te_height extents)
      then Returns None
      else if Qltb (text_width * scale_x) (width * 0.9)
              && Qltb (text_height * scale_y) (height * 0.9)
      then pdf_scaling_h_text_loop fuel' chars width height threshold
             (font_size * 1.1) scale_x scale_y
      else if Qltb threshold 1.1
      then Returns (Some {| fit_font_size := font_size;
                            fit_scale_x := scale_x;
                            fit_scale_y := scale_y |})
      else if Qltb (text_width * scale_x) (width * 0.9)
      then pdf_scaling_h_text_loop fuel' chars width height threshold
             font_size (scale_x * 1.1) scale_y
      else if Qltb (text_height * scale_y) (height * 0.9)
      then pdf_scaling_h_text_loop fuel' chars width height threshold
             font_size scale_x (scale_y * 1.1)
      else Returns (Some {| fit_font_size := font_size;
                            fit_scale_x := scale_x;
                            fit_scale_y := scale_y |})
  end.

(** The two tests behind the loop of [pdf_scaling_h_text]. *)
Definition h_width_over (text_width text_height len scale_x scale_y
  threshold : Q) : bool :=
  Qltb threshold ((text_width * scale_x / len) / (text_height * scale_y)).

Definition h_height_over (text_width text_height len scale_x scale_y
  threshold : Q) : bool :=
  Qltb threshold ((text_height * scale_y) / (text_width * scale_x / len)).

(** The two [if]s behind the loop of [pdf_scaling_h_text], as the new
    [(scale_x, scale_y)]. *)
Definition h_aspect_correction (text_width text_height len scale_x scale_y
  threshold : Q) : Q * Q :=
  let scale_x :=
    if h_width_over text_width text_height len scale_x scale_y threshold
    then threshold * (text_height * scale_y) * len / text_width
    else scale_x in
  let scale_y :=
    if h_height_over text_width text_height len scale_x scale_y threshold
    then threshold * (text_width * scale_x / len) / text_height
    else scale_y in
  (scale_x, scale_y).

(** [size_t len] used as a double. *)
Definition Q_of_size (len : nat) : Q := inject_Z (Z.of_nat len).

(** [pdf_scaling_h_text]. *)
Definition pdf_scaling_h_text (fuel : nat) (utf8_text : list byte)
  (width height threshold : Q) : outcome (option FitResult) :=
  if is_empty utf8_text then Returns None
  else
    let chars := u8_split_chars [] utf8_text in
    match pdf_scaling_h_text_loop fuel chars width height threshold 10 1 1 with
    | OutOfFuel => OutOfFuel
    | Returns None => Returns None
    | Returns (Some r) =>
        let len := Q_of_size (u8_len utf8_text) in
        let (text_width, text_height) :=
          pdf_get_h_text_width_and_height (fit_font_size r) chars in
        let (scale_x, scale_y) :=
          h_aspect_correction text_width text_height len
            (fit_scale_x r) (fit_scale_y r) threshold in
        Returns (Some {| fit_font_size := fit_font_size r;
                         fit_scale_x := scale_x;
                         fit_scale_y := scale_y |})
    end.

(** *** The vertical solver *)

Fixpoint pdf_scaling_v_text_loop (fuel : nat) (chars : list (list byte))
  (width height threshold font_size scale_x scale_y : Q)
  : outcome (option FitResult) :=
  match fuel with
  | O => OutOfFuel
  | S fuel' =>
      let (text_width, text_height) :=
        pdf_get_v_text_width_and_height font_size chars in
      if Qle_bool 10000 font_size || Qzero text_width || Qzero text_height
      then Returns None
      else if Qltb (text_width * scale_x) (width * 0.95)
              && Qltb (text_height * scale_y) (height * 0.95)
      then pdf_scaling_v_text_loop fuel' chars width height threshold
             (font_size * 1.05) scale_x scale_y
      else if Qltb threshold 1.1
      then Returns (Some {| fit_font_size := font_size;
                            fit_scale_x := scale_x;
                            fit_scale_y := scale_y |})
      else if Qltb (text_width * scale_x) (width * 0.95)
      then pdf_scaling_v_text_loop fuel' chars width height threshold
             font_size (scale_x * 1.05) scale_y
      else if Qltb (text_height * scale_y) (height * 0.95)
      then pdf_scaling_v_text_loop fuel' chars width height threshold
             font_size scale_x (scale_y * 1.05)
      else Returns (Some {| fit_font_size := font_size;
                            fit_scale_x := scale_x;
                            fit_scale_y := scale_y |})
  end.

(** The [if ... else if] behind the loop of [pdf_scaling_v_text], as the
    new [(scale_x, scale_y)]. *)
Definition v_aspect_correction (text_width text_height len scale_x scale_y
  threshold : Q) : Q * Q :=
  if Qltb threshold ((text_width * scale_x) / (text_height * scale_y / len))
  then (threshold * (text_height * scale_y / len) / text_width, scale_y)
  else if Qltb threshold
            ((text_height * scale_y / len) / (text_width * scale_x))
  then (scale_x, threshold * (text_width * scale_x) * len / text_height)
  else (scale_x, scale_y).

(** [pdf_scaling_v_text]. *)
Definition pdf_scaling_v_text (fuel : nat) (utf8_text : list byte)
  (width height threshold : Q) : outcome (option FitResult) :=
  if is_empty utf8_text then Returns None
  else
    let chars := u8_split_chars [] utf8_text in
    match pdf_scaling_v_text_loop fuel chars width height threshold 10 1 1 with
    | OutOfFuel => OutOfFuel
    | Returns None => Returns None
    | Returns (Some r) =>
        let len := Q_of_size (length chars) in
        let (text_width, text_height) :=
          pdf_get_v_text_width_and_height (fit_font_size r) chars in
        let (scale_x, scale_y) :=
          v_aspect_correction text_width text_height len
            (fit_scale_x r) (fit_scale_y r) threshold in
        Returns (Some {| fit_font_size := fit_font_size r;
                         fit_scale_x := scale_x;
                         fit_scale_y := scale_y |})
    end.

(** *** Drawing a column *)

(** Whether [pdf_is_font_japanese], [pdf_is_font_chinese] or
    [pdf_is_font_korean] holds of the selected font, and the mapping of
    [u8_locale_map_text], which is the operating system's. *)
Variable font_is_cjk : bool.
Variable u8_locale_map_text : list byte -> list byte.

(** What [pdf_draw_v_text] has fixed when it starts to draw the
    characters. *)
Record v_layout : Type := {
  v_scale_x : Q;
  v_scale_y : Q;
  v_each_blank_height : Q
}.

(** The [while (each_blank_height < font_size / 5)] of [pdf_draw_v_text];
    [cr] still has the font size of the fit. *)
Fixpoint pdf_draw_v_text_loop (fuel : nat) (chars : list (list byte))
  (height font_size scale_x scale_y each_blank_height : Q)
  : outcome v_layout :=
  match fuel with
  | O => OutOfFuel
  | S fuel' =>
      if Qltb each_blank_height (font_size / 5) then
        let scale_x := scale_x * 0.95 in
        let scale_y := scale_y * 0.95 in
        let (text_width, text_height) :=
          pdf_get_v_text_width_and_height font_size chars in
        let text_height := text_height * scale_y in
        pdf_draw_v_text_loop fuel' chars height font_size scale_x scale_y
          ((height - text_height) / (Q_of_size (length chars) + 1))
      else Returns {| v_scale_x := scale_x;
                      v_scale_y := scale_y;
                      v_each_blank_height := each_blank_height |}
  end.

(** The part of [pdf_draw_v_text] between the fit, which has handed back
    [r], and the drawing of the characters: the column is measured, the
    gap is computed and the loop is run. *)
Definition pdf_draw_v_text_gaps (fuel : nat) (chars : list (list byte))
  (height : Q) (r : FitResult) : outcome v_layout :=
  let (text_width, text_height) :=
    pdf_get_v_text_width_and_height (fit_font_size r) chars in
  let text_height := text_height * fit_scale_y r in
  pdf_draw_v_text_loop fuel chars height (fit_font_size r)
    (fit_scale_x r) (fit_scale_y r)
    ((height - text_height) / (Q_of_size (length chars) + 1)).

(** [pdf_draw_v_text] up to the drawing of the characters: [Returns None]
    is [return false]. *)
Definition pdf_draw_v_text (fuel : nat) (text : list byte)
  (width height threshold : Q) : outcome (option v_layout) :=
  if is_empty text then Returns None
  else
    let mapped_text :=
      if font_is_cjk then u8_locale_map_text text else text in
    match pdf_scaling_v_text fuel (c_str mapped_text) width height threshold with
    | OutOfFuel => OutOfFuel
    | Returns None => Returns None
    | Returns (Some r) =>
        match pdf_draw_v_text_gaps fuel
                (u8_split_chars [] (c_str mapped_text)) height r with
        | OutOfFuel => OutOfFuel
        | Returns l => Returns (Some l)
        end
    end.

End FitSolver.

(** ** Notions used by the statements *)

(** What [mstr_escape] writes for one character. *)
Definition escape_unit (ch : byte) : list byte :=
  match ch with
  | x09 => [x5c; x74]
  | x0a => [x5c; x6e]
  | x0d => [x5c; x72]
  | x0c => [x5c; x66]
  | x5c => [x5c; x5c]
  | _ => [ch]
  end.

(** A string that can be read back from its [c_str()]. *)
Definition no_nul (s : list byte) : Prop := Forall (fun ch => ch <> x00) s.

(** A row all of whose glyphs have, at the font size [font_size], a
    positive advance and a positive height: the two measures of a glyph
    that [pdf_get_h_text_width_and_height] reads. *)
Definition glyphs_positive
  (cairo_text_extents : Q -> list byte -> cairo_text_extents_t)
  (font_size : Q) (chars : list (list byte)) : Prop :=
  forall text_char : list byte,
    In text_char chars ->
    0 < te_x_advance (cairo_text_extents font_size text_char) /\
    0 < te_height (cairo_text_extents font_size text_char).

(** The condition under which the loop of [pdf_scaling_h_text] enlarges
    the font. *)
Definition h_grows
  (cairo_text_extents : Q -> list byte -> cairo_text_extents_t)
  (cairo_font_extents : Q -> cairo_font_extents_t)
  (chars : list (list byte)) (width height font_size scale_x scale_y : Q)
  : bool :=
  let m := pdf_get_h_text_width_and_height cairo_text_extents
             cairo_font_extents font_size chars in
  Qltb (fst m * scale_x) (width * 0.9)
  && Qltb (snd m * scale_y) (height * 0.9).

(** Both tests behind the loop of [pdf_scaling_h_text] fire in a run: the
    loop ends with some values, the first test holds of them, and the
    second test holds once the first has changed [scale_x]. *)
Definition h_both_tests_fire
  (cairo_text_extents : Q -> list byte -> cairo_text_extents_t)
  (cairo_font_extents : Q -> cairo_font_extents_t)
  (extents : cairo_text_extents_t) (fuel : nat) (utf8_text : list byte)
  (width height threshold : Q) : Prop :=
  exists r0 : FitResult,
    pdf_scaling_h_text_loop cairo_text_extents cairo_font_extents extents fuel
      (u8_split_chars [] utf8_text) width height threshold 10 1 1
    = Returns (Some r0) /\
    let m := pdf_get_h_text_width_and_height cairo_text_extents
               cairo_font_extents (fit_font_size r0)
               (u8_split_chars [] utf8_text) in
    let len := Q_of_size (u8_len utf8_text) in
    h_width_over (fst m) (snd m) len (fit_scale_x r0) (fit_scale_y r0)
      threshold = true /\
    h_height_over (fst m) (snd m) len
      (fst (h_aspect_correction (fst m) (snd m) len
              (fit_scale_x r0) (fit_scale_y r0) threshold))
      (fit_scale_y r0) threshold = true.

(** ** A font for evaluating the solvers *)

(** A glyph whose ink box and advance grow with the font size. *)
Definition scaled_glyph (w h a font_size : Q) : cairo_text_extents_t :=
  {| te_x_bearing := 0;
     te_y_bearing := - (h * font_size);
     te_width := w * font_size;
     te_height := h * font_size;
     te_x_advance := a * font_size;
     te_y_advance := 0 |}.

(** A font in the proportions of a common sans serif: a blank has no ink
    and advances by 0.3 em, a full stop is a dot of 0.1 em, every other
    character is a letter 0.6 em wide and 0.7 em high. *)
Definition sample_text_extents (font_size : Q) (text_char : list byte)
  : cairo_text_extents_t :=
  if bytes_eqb text_char (bytes_of " ") then scaled_glyph 0 0 0.3 font_size
  else if bytes_eqb text_char (bytes_of ".") then
    scaled_glyph 0.1 0.1 0.3 font_size
  else scaled_glyph 0.6 0.7 0.6 font_size.

(** A font all of whose glyphs are letters. *)
Definition letter_text_extents (font_size : Q) (text_char : list byte)
  : cairo_text_extents_t :=
  scaled_glyph 0.6 0.7 0.6 font_size.

Definition sample_font_extents (font_size : Q) : cairo_font_extents_t :=
  {| fe_ascent := 0.9 * font_size;
     fe_descent := 0.2 * font_size;
     fe_height := 1.15 * font_size;
     fe_max_x_advance := font_size;
     fe_max_y_advance := 0 |}.

(** Two contents of the unassigned [extents]. *)
Definition extents_nonzero : cairo_text_extents_t := scaled_glyph 1 1 1 1.
Definition extents_zero : cairo_text_extents_t := scaled_glyph 0 0 0 1.

Local Close Scope Q_scope.

(** ** The horizontal solver in binary64 *)

(** The horizontal solver once more, with every [double] a binary64 number
    and every operation rounded to the nearest, ties to even, as IEEE 754
    has it: Rocq's primitive [float].  The definitions are those of the
    section [FitSolver] above with [+], [*], [/], [<] and [<=] read on
    [float]; a decimal constant of the source is the binary64 number
    nearest to it, as it is for the C++ compiler.  None of the expressions
    of [pdf_scaling_h_text] has a product inside a sum, so no fused
    multiply-add can change a result. *)
Module Binary64.

Set Warnings "-inexact-float".
Local Open Scope float_scope.

Record cairo_text_extents_t : Type := {
  te_x_bearing : float;
  te_y_bearing : float;
  te_width : float;
  te_height : float;
  te_x_advance : float;
  te_y_advance : float
}.

Record cairo_font_extents_t : Type := {
  fe_ascent : float;
  fe_descent : float;
  fe_height : float;
  fe_max_x_advance : float;
  fe_max_y_advance : float
}.

Record FitResult : Type := {
  fit_font_size : float;
  fit_scale_x : float;
  fit_scale_y : float
}.

(** [size_t len] used as a double; the sum is exact below [2 ^ 53]. *)
Fixpoint double_of_size (len : nat) : float :=
  match len with
  | O => 0
  | S len' => double_of_size len' + 1
  end.

Section FitSolver.

Variable cairo_text_extents : float -> list byte -> cairo_text_extents_t.
Variable cairo_font_extents : float -> cairo_font_extents_t.

(** [pdf_get_h_text_width_and_height], as [(text_width, text_height)]. *)
Definition pdf_get_h_text_width_and_height (font_size : float)
  (chars : list (list byte)) : float * float :=
  let font_extents := cairo_font_extents font_size in
  fold_left
    (fun (acc : float * float) (text_char : list byte) =>
       let (text_width, text_height) := acc in
       let extents := cairo_text_extents font_size text_char in
       let text_height :=
         if text_height <? te_height extents
         then te_height extents else text_height in
       let text_height :=
         if text_height <? fe_height font_extents
         then fe_height font_extents else text_height in
       (text_width + te_x_advance extents, text_height))
    chars (0, 0).

(** The local [extents] that is tested and never assigned. *)
Variable extents : cairo_text_extents_t.

(** The [for (;;)] of [pdf_scaling_h_text]; [!x] on a double is
    [x == 0]. *)
Fixpoint pdf_scaling_h_text_loop (fuel : nat) (chars : list (list byte))
  (width height threshold font_size scale_x scale_y : float)
  : outcome (option FitResult) :=
  match fuel with
  | O => OutOfFuel
  | S fuel' =>
      let (text_width, text_height) :=
        pdf_get_h_text_width_and_height font_size chars in
      if (10000 <=? font_size)
         || (te_width extents =? 0) || (te_height extents =? 0)
      then Returns None
      else if (text_width * scale_x <? width * 0.9)
              && (text_height * scale_y <? height * 0.9)
      then pdf_scaling_h_text_loop fuel' chars width height threshold
             (font_size * 1.1) scale_x scale_y
      else if threshold <? 1.1
      then Returns (Some {| fit_font_size := font_size;
                            fit_scale_x := scale_x;
                            fit_scale_y := scale_y |})
      else if text_width * scale_x <? width * 0.9
      then pdf_scaling_h_text_loop fuel' chars width height threshold
             font_size (scale_x * 1.1) scale_y
      else if text_height * scale_y <? height * 0.9
      then pdf_scaling_h_text_loop fuel' chars width height threshold
             font_size scale_x (scale_y * 1.1)
      else Returns (Some {| fit_font_size := font_size;
                            fit_scale_x := scale_x;
                            fit_scale_y := scale_y |})
  end.

(** The two tests behind the loop. *)
Definition h_width_over (text_width text_height len scale_x scale_y
  threshold : float) : bool :=
  threshold <? (text_width * scale_x / len) / (text_height * scale_y).

Definition h_height_over (text_width text_height len scale_x scale_y
  threshold : float) : bool :=
  threshold <? (text_height * scale_y) / (text_width * scale_x / len).

(** The two [if]s behind the loop, as the new [(scale_x, scale_y)]: the
    second is not an [else] of the first, it tests the [scale_x] that the
    first has left. *)
Definition h_aspect_correction (text_width text_height len scale_x scale_y
  threshold : float) : float * float :=
  let scale_x :=
    if h_width_over text_width text_height len scale_x scale_y threshold
    then threshold * (text_height * scale_y) * len / text_width
    else scale_x in
  let scale_y :=
    if h_height_over text_width text_height len scale_x scale_y threshold
    then threshold * (text_width * scale_x / len) / text_height
    else scale_y in
  (scale_x, scale_y).

(** [pdf_scaling_h_text]. *)
Definition pdf_scaling_h_text (fuel : nat) (utf8_text : list byte)
  (width height threshold : float) : outcome (option FitResult) :=
  if is_empty utf8_text then Returns None
  else
    let chars := u8_split_chars [] utf8_text in
    match pdf_scaling_h_text_loop fuel chars width height threshold 10 1 1 with
    | OutOfFuel => OutOfFuel
    | Returns None => Returns None
    | Returns (Some r) =>
        let len := double_of_size (u8_len utf8_text) in
        let (text_width, text_height) :=
          pdf_get_h_text_width_and_height (fit_font_size r) chars in
        let (scale_x, scale_y) :=
          h_aspect_correction text_width text_height len
            (fit_scale_x r) (fit_scale_y r) threshold in
        Returns (Some {| fit_font_size := fit_font_size r;
                         fit_scale_x := scale_x;
                         fit_scale_y := scale_y |})
    end.

(** Both tests behind the loop fire in the run that ends its loop with
    [r0]: the first holds of the values of [r0], and the second holds once
    the first has changed [scale_x]. *)
Definition h_both_tests_fire (utf8_text : list byte) (threshold : float)
  (r0 : FitResult) : bool :=
  let m := pdf_get_h_text_width_and_height (fit_font_size r0)
             (u8_split_chars [] utf8_text) in
  let len := double_of_size (u8_len utf8_text) in
  h_width_over (fst m) (snd m) len (fit_scale_x r0) (fit_scale_y r0) threshold
  && h_height_over (fst m) (snd m) len
       (threshold * (snd m * fit_scale_y r0) * len / fst m)
       (fit_scale_y r0) threshold.

End FitSolver.

(** A glyph whose ink box and advance grow with the font size. *)
Definition scaled_glyph (w h a font_size : float) : cairo_text_extents_t :=
  {| te_x_bearing := 0;
     te_y_bearing := - (h * font_size);
     te_width := w * font_size;
     te_height := h * font_size;
     te_x_advance := a * font_size;
     te_y_advance := 0 |}.

(** A display font all of whose glyphs are 1.7 em wide and 0.7 em high,
    with lines 1.15 em high. *)
Definition wide_text_extents (font_size : float) (text_char : list byte)
  : cairo_text_extents_t :=
  scaled_glyph 1.7 0.7 1.7 font_size.

Definition sample_font_extents (font_size : float) : cairo_font_extents_t :=
  {| fe_ascent := 0.9 * font_size;
     fe_descent := 0.2 * font_size;
     fe_height := 1.15 * font_size;
     fe_max_x_advance := font_size;
     fe_max_y_advance := 0 |}.

Definition extents_nonzero : cairo_text_extents_t := scaled_glyph 1 1 1 1.

End Binary64.

(* ================================================================== *)
(** * Part I, continued: further functions of the program *)
(* ================================================================== *)

(** ** Splitting and joining *)

(** [str.find_first_of(chars, i)]: the first index not below [i] of a byte
    of [str] that is one of [chars], [None] for [npos]. *)
Fixpoint find_first_of (chars str : list byte) (i : nat) {struct str}
  : option nat :=
  match str with
  | [] => None
  | ch :: str' =>
      match i with
      | O => if existsb (Byte.eqb ch) chars then Some 0
             else option_map S (find_first_of chars str' 0)
      | S i' => option_map S (find_first_of chars str' i')
      end
  end.

(** [str.substr(pos, n)] for [pos] within [str]. *)
Definition substr (str : list byte) (pos n : nat) : list byte :=
  firstn n (skipn pos str).

(** The [while (k != npos)] of [mstr_split] and the [push_back] behind
    it. *)
Fixpoint mstr_split_loop (fuel : nat) (str chars : list byte) (i : nat)
  (k : option nat) (container : list (list byte))
  : option (list (list byte)) :=
  match fuel with
  | O => None
  | S fuel' =>
      match k with
      | None => Some (container ++ [skipn i str])
      | Some k =>
          mstr_split_loop fuel' str chars (k + 1)
            (find_first_of chars str (k + 1))
            (container ++ [substr str i (k - i)])
      end
  end.

(** [mstr_split(container, str, chars)], as the new value of [container],
    which is cleared first.  Every turn of the loop moves [i] behind one
    more byte, so one turn per byte and one more are enough
    ([mstr_split_rows]). *)
Definition mstr_split (str chars : list byte) : option (list (list byte)) :=
  mstr_split_loop (S (length str)) str chars 0 (find_first_of chars str 0) [].

(** [mstr_join(container, sep)]. *)
Definition mstr_join (container : list (list byte)) (sep : list byte)
  : list byte :=
  match container with
  | [] => []
  | first :: rest => fold_left (fun result it => result ++ sep ++ it) rest first
  end.

(** [u8_split_by_newlines(rows, str)], as the new value of [rows]; [str]
    is a [const char *]. *)
Definition u8_split_by_newlines (str : list byte) : option (list (list byte)) :=
  match mstr_replace_all (c_str str) [x0d; x0a] [x0a] with
  | None => None
  | Some s1 =>
      match mstr_replace_all s1 [x0d] [x0a] with
      | None => None
      | Some s2 => mstr_split s2 [x0a]
      end
  end.

(** ** Notions used by the further statements *)

(** A character as [u8_split_chars] is meant to cut it: one byte and no
    lead byte behind it. *)
Definition one_code_point (ch : list byte) : Prop :=
  match ch with
  | [] => False
  | _ :: tail => forallb (fun b => negb (u8_is_lead b)) tail = true
  end.

Definition starts_with_lead (ch : list byte) : Prop :=
  match ch with
  | [] => False
  | b :: _ => u8_is_lead b = true
  end.

(** The bytewise substitution of [to] for the byte [c]. *)
Definition substitute (c : byte) (to str : list byte) : list byte :=
  flat_map (fun x => if Byte.eqb x c then to else [x]) str.

(** Cutting at every byte of [chars], written by recursion on the
    string; [cur] is the piece being collected. *)
Fixpoint split_at (chars str cur : list byte) : list (list byte) :=
  match str with
  | [] => [cur]
  | x :: str' =>
      if existsb (Byte.eqb x) chars then cur :: split_at chars str' []
      else split_at chars str' (cur ++ [x])
  end.

(** One pass from left to right that puts [to] in the place of every
    occurrence of [from] met, the search going on behind the occurrence;
    [skip] counts the bytes of an occurrence still to be passed over. *)
Fixpoint subst_all (from to str : list byte) (skip : nat) : list byte :=
  match str with
  | [] => []
  | x :: str' =>
      match skip with
      | S skip' => subst_all from to str' skip'
      | O =>
          if starts_with from str
          then to ++ subst_all from to str' (length from - 1)
          else x :: subst_all from to str' 0
      end
  end.

(** Is [x] one of [chars]? *)
Definition one_of (chars : list byte) (x : byte) : bool :=
  existsb (Byte.eqb x) chars.

(** A row that holds none of [chars]. *)
Definition free_of (chars row : list byte) : Prop :=
  forall x : byte, In x row -> one_of chars x = false.

(** The bytes that the first four replacements of [delete_spaces] take
    out. *)
Definition is_blank (x : byte) : bool :=
  match x with
  | x20 | x09 | x0d | x0a => true
  | _ => false
  end.


(** ** Decoding UTF-8 and telling the script of a text *)

(** A [uint8_t] as a number. *)
Definition Z_of_byte (b : byte) : Z := Z.of_N (Byte.to_N b).

(** [lo <= u32 && u32 <= hi]. *)
Definition in_range (lo hi u32 : Z) : bool :=
  ((lo <=? u32) && (u32 <=? hi))%Z.

(** [if (ret < n) ret = n;], as the new value of [ret]. *)
Definition at_least (n ret : Z) : Z := if (ret <? n)%Z then n else ret.

Section Decoding.

(** Is the program built with [NDEBUG], which turns [assert] off? *)
Variable NDEBUG : bool.

(** The bytes of the memory behind the NUL that ends a C string: nothing
    is known of them. *)
Variable beyond : nat -> byte.

(** [pch[i]] for a pointer into a C string of which [pch] are the bytes
    still in front of the NUL. *)
Definition peek (pch : list byte) (i : nat) : byte :=
  match nth_error pch i with
  | Some b => b
  | None => if i =? length pch then x00 else beyond (i - length pch - 1)
  end.

(** [u8_get_skip_chars(ch)]; [None] is the [assert(0)] that stops a build
    with assertions. *)
Definition u8_get_skip_chars (ch : byte) : option Z :=
  let ch := Z_of_byte ch in
  if (Z.land ch 0x80 =? 0)%Z then Some 1%Z
  else if (Z.land ch 0xE0 =? 0xC0)%Z then Some 2%Z
  else if (Z.land ch 0xF0 =? 0xE0)%Z then Some 3%Z
  else if (Z.land ch 0xF8 =? 0xF0)%Z then Some 4%Z
  else if (Z.land ch 0xFC =? 0xF8)%Z then Some 5%Z
  else if (Z.land ch 0xFE =? 0xFC)%Z then Some 6%Z
  else if NDEBUG then Some (-1)%Z else None.

(** [u32_from_u8(ptr, &skip)]: the value returned and [*skip]. *)
Definition u32_from_u8 (ptr : list byte) : option (Z * Z) :=
  let pch0 := Z_of_byte (peek ptr 0) in
  let pch1 := Z_of_byte (peek ptr 1) in
  let pch2 := Z_of_byte (peek ptr 2) in
  let pch3 := Z_of_byte (peek ptr 3) in
  match u8_get_skip_chars (peek ptr 0) with
  | None => None
  | Some len =>
      Some
        (if (len =? 1)%Z then (pch0, len)
         else if (len =? 2)%Z then
           (Z.lor (Z.shiftl (Z.land pch0 0x1F) 6) (Z.land pch1 0x3F),
            len)
         else if (len =? 3)%Z then
           (Z.lor (Z.lor (Z.shiftl (Z.land pch0 0x0F) 12)
                         (Z.shiftl (Z.land pch1 0x3F) 6))
                  (Z.land pch2 0x3F),
            len)
         else if (len =? 4)%Z then
           (Z.lor (Z.lor (Z.lor (Z.shiftl (Z.land pch0 0x07) 18)
                                (Z.shiftl (Z.land pch1 0x3F) 12))
                         (Z.shiftl (Z.land pch2 0x3F) 6))
                  (Z.land pch3 0x3F),
            len)
         else (0, -1))%Z
  end.

(** [for (int i = 0; i < skip && *pch; ++i) ++pch;] *)
Definition advance (skip : Z) (pch : list byte) : list byte :=
  skipn (Z.to_nat skip) pch.

(** The tests of one turn of the loop of [u8_is_japanese_text], as the new
    value of [ret]. *)
Definition japanese_rank (u32 ret : Z) : Z :=
  let ret := if in_range 0x3040 0x309F u32 then at_least 2 ret else ret in
  let ret := if in_range 0x30A0 0x30FF u32 then at_least 2 ret else ret in
  let ret := if in_range 0x31F0 0x31FF u32 then at_least 2 ret else ret in
  let ret := if in_range 0xFF01 0xFF9D u32 then at_least 1 ret else ret in
  let ret :=
    if in_range 0x3400 0x4DB5 u32 || in_range 0x4E00 0x9FCB u32
       || in_range 0xF900 0xFA6A u32
    then at_least 1 ret else ret in
  let ret := if in_range 0x3000 0x303F u32 then at_least 1 ret else ret in
  ret.

(** The loop of [u8_is_japanese_text]; [Returns None] is a run stopped by
    the [assert]. *)
Fixpoint u8_is_japanese_text_loop (fuel : nat) (pch : list byte) (ret : Z)
  : outcome (option Z) :=
  match fuel with
  | O => OutOfFuel
  | S fuel' =>
      if is_empty pch then Returns (Some ret)
      else
        match u32_from_u8 pch with
        | None => Returns None
        | Some (u32, skip) =>
            if (skip =? -1)%Z then Returns (Some 0%Z)
            else u8_is_japanese_text_loop fuel' (advance skip pch)
                   (japanese_rank u32 ret)
        end
  end.

(** [u8_is_japanese_text(str)].  Every turn of the loop passes one byte at
    least, so one turn per byte and one more are enough. *)
Definition u8_is_japanese_text (str : list byte) : outcome (option Z) :=
  u8_is_japanese_text_loop (S (length (c_str str))) (c_str str) 0%Z.

(** The tests of one turn of the loop of [u8_is_chinese_text]: does it
    [return 1]? *)
Definition chinese_range (u32 : Z) : bool :=
  in_range 0x4E00 0x9FFF u32 || in_range 0xF900 0xFAFF u32
  || in_range 0x2F00 0x2FDF u32 || in_range 0x2E80 0x2EFF u32
  || in_range 0x3400 0x4DBF u32 || in_range 0x20000 0x2A6DF u32
  || in_range 0x2A700 0x2B73F u32 || in_range 0x2B740 0x2B81F u32
  || in_range 0x2B820 0x2CEAF u32 || in_range 0x2CEB0 0x2EBEF u32
  || in_range 0x30000 0x3134F u32 || in_range 0x31350 0x323AF u32
  || in_range 0x3000 0x303F u32 || in_range 0x2F800 0x2FA1F u32.

Fixpoint u8_is_chinese_text_loop (fuel : nat) (pch : list byte)
  : outcome (option Z) :=
  match fuel with
  | O => OutOfFuel
  | S fuel' =>
      if is_empty pch then Returns (Some 0%Z)
      else
        match u32_from_u8 pch with
        | None => Returns None
        | Some (u32, skip) =>
            if (skip =? -1)%Z then Returns (Some 0%Z)
            else if chinese_range u32 then Returns (Some 1%Z)
            else u8_is_chinese_text_loop fuel' (advance skip pch)
        end
  end.

(** [u8_is_chinese_text(str)]. *)
Definition u8_is_chinese_text (str : list byte) : outcome (option Z) :=
  u8_is_chinese_text_loop (S (length (c_str str))) (c_str str).

(** The tests of one turn of the loop of [u8_is_korean_text], as the new
    value of [ret]. *)
Definition korean_rank (u32 ret : Z) : Z :=
  let ret := if in_range 0x4E00 0x9FFF u32 then at_least 1 ret else ret in
  let ret := if in_range 0xF900 0xFAFF u32 then at_least 1 ret else ret in
  let ret := if in_range 0x2F00 0x2FDF u32 then at_least 1 ret else ret in
  let ret := if in_range 0x2E80 0x2EFF u32 then at_least 1 ret else ret in
  let ret := if in_range 0x3000 0x303F u32 then at_least 1 ret else ret in
  let ret := if in_range 0xAC00 0xD7AF u32 then at_least 2 ret else ret in
  let ret := if in_range 0x1100 0x11FF u32 then at_least 2 ret else ret in
  let ret := if in_range 0x3130 0x318F u32 then at_least 2 ret else ret in
  let ret := if in_range 0xA960 0xA97F u32 then at_least 2 ret else ret in
  let ret := if in_range 0xD7B0 0xD7FF u32 then at_least 2 ret else ret in
  let ret := if in_range 0xFFA0 0xFFDF u32 then at_least 2 ret else ret in
  ret.

Fixpoint u8_is_korean_text_loop (fuel : nat) (pch : list byte) (ret : Z)
  : outcome (option Z) :=
  match fuel with
  | O => OutOfFuel
  | S fuel' =>
      if is_empty pch then Returns (Some ret)
      else
        match u32_from_u8 pch with
        | None => Returns None
        | Some (u32, skip) =>
            if (skip =? -1)%Z then Returns (Some 0%Z)
            else u8_is_korean_text_loop fuel' (advance skip pch)
                   (korean_rank u32 ret)
        end
  end.

(** [u8_is_korean_text(str)]. *)
Definition u8_is_korean_text (str : list byte) : outcome (option Z) :=
  u8_is_korean_text_loop (S (length (c_str str))) (c_str str) 0%Z.

End Decoding.

(** The byte of a number below 256. *)
Definition byte_of_Z (z : Z) : byte :=
  match Byte.of_N (Z.to_N z) with
  | Some b => b
  | None => x00
  end.

(** The UTF-8 sequence of the code point [cp], of one to four bytes: what
    a text that is UTF-8 holds for it. *)
Definition u8_encode (cp : Z) : list byte :=
  if (cp <? 0x80)%Z then [byte_of_Z cp]
  else if (cp <? 0x800)%Z then
    [byte_of_Z (0xC0 + cp / 64); byte_of_Z (0x80 + cp mod 64)]
  else if (cp <? 0x10000)%Z then
    [byte_of_Z (0xE0 + cp / 4096); byte_of_Z (0x80 + (cp / 64) mod 64);
     byte_of_Z (0x80 + cp mod 64)]
  else
    [byte_of_Z (0xF0 + cp / 262144); byte_of_Z (0x80 + (cp / 4096) mod 64);
     byte_of_Z (0x80 + (cp / 64) mod 64); byte_of_Z (0x80 + cp mod 64)].

(** The text of a list of code points. *)
Definition u8_encode_all (cps : list Z) : list byte :=
  flat_map u8_encode cps.

(** A code point that has a sequence of at most four bytes and is not the
    NUL. *)
Definition code_point (cp : Z) : Prop := (0 < cp < 0x200000)%Z.

(** The code points that make [u8_is_japanese_text] answer 2, and those
    that make it answer 1. *)
Definition japanese_kana (u32 : Z) : bool :=
  in_range 0x3040 0x309F u32 || in_range 0x30A0 0x30FF u32
  || in_range 0x31F0 0x31FF u32.

Definition japanese_other (u32 : Z) : bool :=
  in_range 0xFF01 0xFF9D u32 || in_range 0x3400 0x4DB5 u32
  || in_range 0x4E00 0x9FCB u32 || in_range 0xF900 0xFA6A u32
  || in_range 0x3000 0x303F u32.

(** The code points that make [u8_is_korean_text] answer 2, and those that
    make it answer 1. *)
Definition korean_hangul (u32 : Z) : bool :=
  in_range 0xAC00 0xD7AF u32 || in_range 0x1100 0x11FF u32
  || in_range 0x3130 0x318F u32 || in_range 0xA960 0xA97F u32
  || in_range 0xD7B0 0xD7FF u32 || in_range 0xFFA0 0xFFDF u32.

Definition korean_other (u32 : Z) : bool :=
  in_range 0x4E00 0x9FFF u32 || in_range 0xF900 0xFAFF u32
  || in_range 0x2F00 0x2FDF u32 || in_range 0x2E80 0x2EFF u32
  || in_range 0x3000 0x303F u32.

(** The answer of a detector with two ranks for a text of the code points
    [cps]. *)
Definition rank_of (two one : Z -> bool) (cps : list Z) : Z :=
  if existsb two cps then 2%Z else if existsb one cps then 1%Z else 0%Z.



(** ** Colours and units *)

(** [get_r_value], [get_g_value] and [get_b_value] of a [uint32_t]. *)
Definition get_r_value (color : Z) : Z := Z.land (Z.shiftr color 16) 0xFF.
Definition get_g_value (color : Z) : Z := Z.land (Z.shiftr color 8) 0xFF.
Definition get_b_value (color : Z) : Z := Z.land (Z.shiftr color 0) 0xFF.

Local Open Scope Q_scope.

(** [pt_from_mm]. *)
Definition pt_from_mm (mm : Q) : Q := mm * (72.0 / 25.4).

(** ** Drawing a row *)

(** What [pdf_draw_h_char] hands to [cairo_translate], [cairo_scale] and
    [cairo_show_text]. *)
Record glyph_placement : Type := {
  gp_text : list byte;
  gp_x_pos : Q;
  gp_y_pos : Q;
  gp_scale_x : Q;
  gp_scale_y : Q
}.

Section Drawing.

Variable cairo_text_extents : Q -> list byte -> cairo_text_extents_t.
Variable cairo_font_extents : Q -> cairo_font_extents_t.

(** The unassigned [extents] of [pdf_scaling_h_text] and the global
    [g_y_adjust]. *)
Variable extents : cairo_text_extents_t.
Variable g_y_adjust : Q.

(** [pdf_get_total_text_width] at the font size set on [cr]. *)
Definition pdf_get_total_text_width (font_size : Q) (utf8_text : list byte)
  : Q :=
  fold_left
    (fun (text_width : Q) (text_char : list byte) =>
       text_width + te_x_advance (cairo_text_extents font_size text_char))
    (u8_split_chars [] utf8_text) 0.

(** [pdf_draw_h_char], the branch under [if (0)] left out. *)
Definition pdf_draw_h_char (font_size : Q) (text_char : list byte)
  (x y scale_x scale_y : Q) : glyph_placement :=
  let y := y + g_y_adjust in
  let font_extents := cairo_font_extents font_size in
  {| gp_text := text_char;
     gp_x_pos := x;
     gp_y_pos := y + fe_ascent font_extents * scale_y;
     gp_scale_x := scale_x;
     gp_scale_y := scale_y |}.

(** The loop of [pdf_draw_h_text] over the characters: what is drawn, and
    [x] behind the last character. *)
Fixpoint pdf_draw_h_text_loop (chars : list (list byte))
  (x y0 height each_blank_width font_size scale_x scale_y : Q)
  : list glyph_placement * Q :=
  match chars with
  | [] => ([], x)
  | text_char :: chars' =>
      let x := x + each_blank_width in
      let extents := cairo_text_extents font_size text_char in
      let font_extents := cairo_font_extents font_size in
      let y := y0 + (height - fe_height font_extents * scale_y) / 2 in
      let drawn := pdf_draw_h_char font_size text_char x y scale_x scale_y in
      let x := x + te_x_advance extents * scale_x in
      let (more, x_end) :=
        pdf_draw_h_text_loop chars' x y0 height each_blank_width font_size
          scale_x scale_y in
      (drawn :: more, x_end)
  end.

(** [each_blank_width] of [pdf_draw_h_text] for the fit [r]. *)
Definition h_each_blank_width (text : list byte) (width : Q) (r : FitResult)
  : Q :=
  let chars := u8_split_chars [] text in
  let total_text_width :=
    pdf_get_total_text_width (fit_font_size r) text * fit_scale_x r in
  (width - total_text_width) / (Q_of_size (length chars) + 1).

(** [pdf_draw_h_text]: [Returns None] is [return false]; otherwise what is
    drawn. *)
Definition pdf_draw_h_text (fuel : nat) (text : list byte)
  (x0 y0 width height threshold : Q)
  : outcome (option (list glyph_placement)) :=
  if is_empty text then Returns None
  else
    match pdf_scaling_h_text cairo_text_extents cairo_font_extents extents
            fuel text width height threshold with
    | OutOfFuel => OutOfFuel
    | Returns None => Returns None
    | Returns (Some r) =>
        let chars := u8_split_chars [] text in
        Returns
          (Some
             (fst (pdf_draw_h_text_loop chars x0 y0 height
                     (h_each_blank_width text width r)
                     (fit_font_size r) (fit_scale_x r) (fit_scale_y r))))
    end.

(** The loop of [pdf_draw_v_text] over the characters, the layout [l]
    being fixed: the [(x, y)] handed to [pdf_draw_v_char] for each
    character, and [y] behind the last character. *)
Fixpoint pdf_draw_v_text_chars (chars : list (list byte))
  (x0 y width font_size : Q) (l : v_layout)
  : list (list byte * Q * Q) * Q :=
  match chars with
  | [] => ([], y)
  | text_char :: chars' =>
      let y := y + v_each_blank_height l in
      let extents := cairo_text_extents font_size text_char in
      let x := x0 + width / 2 in
      let drawn := (text_char, x, y) in
      let y :=
        if u8_is_space text_char then
          y + te_x_advance extents * v_scale_y l
        else if u8_is_small_kana text_char then
          y + te_height extents * v_scale_y l * SMALL_KANA_RATIO
        else if u8_is_hyphen_dash text_char then
          y + te_width extents * v_scale_y l
        else if u8_is_paren_type_1 text_char
                || u8_is_paren_type_2 text_char
                || u8_is_paren_type_3 text_char then
          y + te_width extents * v_scale_y l
        else y + te_height extents * v_scale_y l in
      let (more, y_end) :=
        pdf_draw_v_text_chars chars' x0 y width font_size l in
      (drawn :: more, y_end)
  end.

End Drawing.

(** ** Rows and columns of a page *)

(** The arguments of [cairo_rectangle]. *)
Record rectangle : Type := {
  rect_x : Q;
  rect_y : Q;
  rect_width : Q;
  rect_height : Q
}.

(** The loop of [pdfplaca_draw_h_page]: for every row the rectangle that
    is filled and the text handed to [pdf_draw_h_text], which gets the
    rectangle as its box; and [y] behind the last row. *)
Fixpoint pdfplaca_draw_h_page_loop (rows : list (list byte))
  (y row_height printable_width margin : Q)
  : list (rectangle * list byte) * Q :=
  match rows with
  | [] => ([], y)
  | row :: rows' =>
      let drawn :=
        ({| rect_x := margin; rect_y := y;
            rect_width := printable_width; rect_height := row_height |},
         c_str row) in
      let y := y + row_height in
      let y := y + margin in
      let (more, y_end) :=
        pdfplaca_draw_h_page_loop rows' y row_height printable_width margin in
      (drawn :: more, y_end)
  end.

(** [row_height] of [pdfplaca_draw_h_page] and [row_width] of
    [pdfplaca_draw_v_page]: the page less the margins, over the rows. *)
Definition row_extent (page_extent margin : Q) (rows : nat) : Q :=
  (page_extent - margin * (Q_of_size rows + 1)) / Q_of_size rows.

Definition pdfplaca_draw_h_page (rows : list (list byte))
  (page_width page_height printable_width printable_height margin : Q)
  : list (rectangle * list byte) * Q :=
  let y := margin in
  let row_height := row_extent page_height margin (length rows) in
  pdfplaca_draw_h_page_loop rows y row_height printable_width margin.

(** The loop of [pdfplaca_draw_v_page]; [pdf_draw_v_text] gets the
    rectangle as its box. *)
Fixpoint pdfplaca_draw_v_page_loop (rows : list (list byte))
  (x row_width printable_width printable_height margin : Q)
  : list (rectangle * list byte) * Q :=
  match rows with
  | [] => ([], x)
  | row :: rows' =>
      let x := x + margin in
      let x0 := (2 * margin + printable_width) - (x + row_width) in
      let drawn :=
        ({| rect_x := x0; rect_y := margin;
            rect_width := row_width; rect_height := printable_height |},
         c_str row) in
      let x := x + row_width in
      let (more, x_end) :=
        pdfplaca_draw_v_page_loop rows' x row_width printable_width
          printable_height margin in
      (drawn :: more, x_end)
  end.

Definition pdfplaca_draw_v_page (rows : list (list byte))
  (page_width page_height printable_width printable_height margin : Q)
  : list (rectangle * list byte) * Q :=
  let x := 0 in
  let row_width := row_extent page_width margin (length rows) in
  pdfplaca_draw_v_page_loop rows x row_width printable_width
    printable_height margin.

(** [pdfplaca_draw_page]: the boxes of the rows of [utf8_text] and their
    texts. *)
Definition pdfplaca_draw_page (g_vertical : bool) (utf8_text : list byte)
  (page_width page_height printable_width printable_height margin : Q)
  : option (list (rectangle * list byte)) :=
  match u8_split_by_newlines utf8_text with
  | None => None
  | Some rows =>
      Some
        (fst
           (if g_vertical
            then pdfplaca_draw_v_page rows page_width page_height
                   printable_width printable_height margin
            else pdfplaca_draw_h_page rows page_width page_height
                   printable_width printable_height margin))
  end.

(** ** The page of [pdfplaca_do_it] *)

(** An ASCII letter in lower case. *)
Definition ascii_lower (b : byte) : byte :=
  let v := Byte.to_N b in
  if ((65 <=? v) && (v <=? 90))%N
  then match Byte.of_N (v + 32) with Some l => l | None => b end
  else b.

(** [_tcsicmp(a, b) == 0] in the "C" locale, in which the program runs. *)
Definition tcsicmp (a b : list byte) : bool :=
  bytes_eqb (map ascii_lower a) (map ascii_lower b).

(** The head of [pdfplaca_do_it]: the page in points, turned to the
    orientation; [None] is [assert(0); return false;].  Then the margin
    and the printable area. *)
Definition pdfplaca_do_it_page (g_orientation : list byte)
  (g_page_width g_page_height : Q) : option (Q * Q) :=
  let page_width := pt_from_mm g_page_width in
  let page_height := pt_from_mm g_page_height in
  if tcsicmp g_orientation (bytes_of "portrait") then
    if Qltb page_height page_width
    then Some (page_height, page_width)
    else Some (page_width, page_height)
  else if tcsicmp g_orientation (bytes_of "landscape") then
    if Qltb page_width page_height
    then Some (page_height, page_width)
    else Some (page_width, page_height)
  else None.

Definition printable (page_extent margin : Q) : Q := page_extent - 2 * margin.

Local Close Scope Q_scope.

(** ** The text of [pdfplaca_do_it] *)

(** What [pdfplaca_do_it] has chosen when it starts to draw: the text,
    the font name and [g_vertical]. *)
Record chosen_text : Type := {
  ct_utf8_text : list byte;
  ct_utf8_font_name : list byte;
  ct_vertical : bool
}.

Section DoItText.

Variable NDEBUG : bool.
Variable beyond : nat -> byte.

(** What [pdf_is_font_japanese], [pdf_is_font_chinese] and
    [pdf_is_font_korean] say of the font that was asked for. *)
Variables font_japanese font_chinese font_korean : bool.

(** "Display error if text is CJK and font is not CJK": the first of the
    three tests that the text answers to decides.  [Returns None] is a run
    stopped by an [assert]. *)
Definition pdfplaca_do_it_script (c : chosen_text)
  : outcome (option chosen_text) :=
  let error := fun message : list byte =>
    {| ct_utf8_text := message;
       ct_utf8_font_name := bytes_of "Arial";
       ct_vertical := false |} in
  match u8_is_japanese_text NDEBUG beyond (ct_utf8_text c) with
  | OutOfFuel => OutOfFuel
  | Returns None => Returns None
  | Returns (Some japanese) =>
      if negb (japanese =? 0)%Z then
        Returns
          (Some (if negb font_japanese
                 then error (bytes_of "   Error:   
Not Japanese font")
                 else c))
      else
        match u8_is_chinese_text NDEBUG beyond (ct_utf8_text c) with
        | OutOfFuel => OutOfFuel
        | Returns None => Returns None
        | Returns (Some chinese) =>
            if negb (chinese =? 0)%Z then
              Returns
                (Some (if negb font_chinese
                       then error (bytes_of "   Error:   
Not Chinese font")
                       else c))
            else
              match u8_is_korean_text NDEBUG beyond (ct_utf8_text c) with
              | OutOfFuel => OutOfFuel
              | Returns None => Returns None
              | Returns (Some korean) =>
                  if negb (korean =? 0)%Z then
                    Returns
                      (Some (if negb font_korean
                             then error (bytes_of "   Error:   
Not Korean font")
                             else c))
                  else Returns (Some c)
              end
        end
  end.

(** "Unescape string" and the widening of the tabs behind it. *)
Definition pdfplaca_do_it_unescape (utf8_text : list byte)
  : option (list byte) :=
  mstr_replace_all (mstr_unescape (c_str utf8_text)) [x09] (bytes_of "   ").

(** [pdfplaca_do_it] from "Get UTF-8 text" to the tabs: the text that is
    split into pages, the font and the direction of writing. *)
Definition pdfplaca_do_it_text (out_text font_name : list byte)
  (g_vertical : bool) : outcome (option chosen_text) :=
  match pdfplaca_do_it_script
          {| ct_utf8_text := out_text;
             ct_utf8_font_name := font_name;
             ct_vertical := g_vertical |} with
  | OutOfFuel => OutOfFuel
  | Returns None => Returns None
  | Returns (Some c) =>
      match pdfplaca_do_it_unescape (ct_utf8_text c) with
      | None => OutOfFuel
      | Some utf8_text =>
          Returns (Some {| ct_utf8_text := utf8_text;
                           ct_utf8_font_name := ct_utf8_font_name c;
                           ct_vertical := ct_vertical c |})
      end
  end.

End DoItText.

(** ** Page sizes and the command line *)

Local Open Scope Q_scope.

(** A [double] that a library function has read from a string: a number,
    or an infinity or a NaN. *)
Inductive parsed_double : Type :=
| Finite (q : Q)
| NotFinite.

(** The least positive normal [double], [2 ^ -1022]. *)
Definition DBL_MIN : Q := 1 # (2 ^ 1022).

(** [std::isnormal] of a number: not 0 and not subnormal. *)
Definition isnormal (q : Q) : bool :=
  Qle_bool DBL_MIN q || Qle_bool q (- DBL_MIN).

(** [s_page_size_info] of [page_size_parse]: names, widths and heights in
    millimetres. *)
Definition s_page_size_info : list (list byte * Q * Q) :=
  [ (bytes_of "A0", 1189, 841);
    (bytes_of "A1", 841, 594);
    (bytes_of "A2", 594, 420);
    (bytes_of "A3", 420, 297);
    (bytes_of "A4", 297, 210);
    (bytes_of "A5", 210, 148);
    (bytes_of "A6", 148, 105);
    (bytes_of "A7", 105, 74);
    (bytes_of "A8", 74, 52);
    (bytes_of "A9", 52, 37);
    (bytes_of "A10", 37, 26);
    (bytes_of "B0", 1456, 1030);
    (bytes_of "B1", 1030, 728);
    (bytes_of "B2", 728, 515);
    (bytes_of "B3", 515, 364);
    (bytes_of "B4", 364, 257);
    (bytes_of "B5", 257, 182);
    (bytes_of "B6", 182, 128);
    (bytes_of "B7", 128, 91);
    (bytes_of "B8", 91, 64);
    (bytes_of "B9", 64, 45);
    (bytes_of "B10", 45, 32);
    (bytes_of "Letter", 279, 216);
    (bytes_of "Legal", 356, 216);
    (bytes_of "Tabloid", 432, 279);
    (bytes_of "Ledger", 279, 432);
    (bytes_of "Junior Legal", 127, 203);
    (bytes_of "Half Letter", 140, 216);
    (bytes_of "Government Letter", 203, 267);
    (bytes_of "Government Legal", 216, 330);
    (bytes_of "ANSI A", 216, 279);
    (bytes_of "ANSI B", 279, 432);
    (bytes_of "ANSI C", 432, 559);
    (bytes_of "ANSI D", 559, 864);
    (bytes_of "ANSI E", 864, 1118);
    (bytes_of "Arch A", 229, 305);
    (bytes_of "Arch B", 305, 457);
    (bytes_of "Arch C", 457, 610);
    (bytes_of "Arch D", 610, 914);
    (bytes_of "Arch E", 914, 1219);
    (bytes_of "Arch E1", 762, 1067);
    (bytes_of "Arch E2", 660, 965);
    (bytes_of "Arch E3", 686, 991) ].

(** The globals that [pdfplaca_parse_cmdline] sets. *)
Record globals : Type := {
  g_out_text : list byte;
  g_out_file : list byte;
  g_font_name : list byte;
  g_page_width : Q;
  g_page_height : Q;
  g_margin : Q;
  g_usage : bool;
  g_version : bool;
  g_font_list : bool;
  g_vertical : bool;
  g_orientation : list byte;
  g_text_color : Z;
  g_back_color : Z;
  g_threshold : parsed_double;
  g_y_adjust : Q;
  g_letters_per_page : Z
}.

Section CommandLine.

(** The library: [_stscanf(arg, "%lfx%lf", ...)], [None] when it does not
    return 2; [_tcstod(arg, &endptr)] with what is left at [endptr];
    [_ttoi]; and [color_value_parse] of the header [color_value.h]. *)
Variable stscanf_lfxlf : list byte -> option (parsed_double * parsed_double).
Variable tcstod : list byte -> parsed_double * list byte.
Variable ttoi : list byte -> Z.
Variable color_value_parse : list byte -> Z.

(** The default font, which [pdfplaca_get_default_font] takes from the
    language of the user. *)
Variable default_font : list byte.

(** The [for] over [s_page_size_info]. *)
Fixpoint page_size_lookup (arg : list byte)
  (entries : list (list byte * Q * Q)) : option (Q * Q) :=
  match entries with
  | [] => None
  | (m_name, m_width, m_height) :: entries' =>
      if tcsicmp arg m_name then Some (m_width, m_height)
      else page_size_lookup arg entries'
  end.

(** [page_size_parse(arg, &width, &height)]: [Some] is [true], with
    [*width] and [*height]. *)
Definition page_size_parse (arg : list byte) : option (Q * Q) :=
  match page_size_lookup arg s_page_size_info with
  | Some size => Some size
  | None =>
      match stscanf_lfxlf arg with
      | Some (Finite width, Finite height) =>
          if Qltb 0 width && isnormal width
             && Qltb 0 height && isnormal height
          then Some (width, height) else None
      | _ => None
      end
  end.

(** The values that the globals are defined with, and the A4 that
    [pdfplaca_parse_cmdline] begins with. *)
Definition globals_default : globals :=
  {| g_out_text := bytes_of "This is
a test.";
     g_out_file := bytes_of "output.pdf";
     g_font_name := default_font;
     g_page_width :=
       match page_size_parse (bytes_of "A4") with
       | Some (width, _) => width
       | None => -1
       end;
     g_page_height :=
       match page_size_parse (bytes_of "A4") with
       | Some (_, height) => height
       | None => -1
       end;
     g_margin := 8;
     g_usage := false;
     g_version := false;
     g_font_list := false;
     g_vertical := false;
     g_orientation := bytes_of "landscape";
     g_text_color := 0x000000;
     g_back_color := 0xFFFFFF;
     g_threshold := Finite 1.5;
     g_y_adjust := 0;
     g_letters_per_page := -1 |}.

(** The [for] of [pdfplaca_parse_cmdline] over [argv[1]], ...: the globals
    behind the last argument, [None] for [return false]. *)
Fixpoint pdfplaca_parse_cmdline_loop (args : list (list byte)) (g : globals)
  : option globals :=
  match args with
  | [] => Some g
  | arg :: args' =>
      if tcsicmp arg (bytes_of "--help") || tcsicmp arg (bytes_of "/?") then
        pdfplaca_parse_cmdline_loop args'
          {| g_out_text := g_out_text g; g_out_file := g_out_file g;
             g_font_name := g_font_name g; g_page_width := g_page_width g;
             g_page_height := g_page_height g; g_margin := g_margin g;
             g_usage := true; g_version := g_version g;
             g_font_list := g_font_list g; g_vertical := g_vertical g;
             g_orientation := g_orientation g;
             g_text_color := g_text_color g; g_back_color := g_back_color g;
             g_threshold := g_threshold g; g_y_adjust := g_y_adjust g;
             g_letters_per_page := g_letters_per_page g |}
      else if tcsicmp arg (bytes_of "--version") then
        pdfplaca_parse_cmdline_loop args'
          {| g_out_text := g_out_text g; g_out_file := g_out_file g;
             g_font_name := g_font_name g; g_page_width := g_page_width g;
             g_page_height := g_page_height g; g_margin := g_margin g;
             g_usage := g_usage g; g_version := true;
             g_font_list := g_font_list g; g_vertical := g_vertical g;
             g_orientation := g_orientation g;
             g_text_color := g_text_color g; g_back_color := g_back_color g;
             g_threshold := g_threshold g; g_y_adjust := g_y_adjust g;
             g_letters_per_page := g_letters_per_page g |}
      else if tcsicmp arg (bytes_of "--font-list") then
        pdfplaca_parse_cmdline_loop args'
          {| g_out_text := g_out_text g; g_out_file := g_out_file g;
             g_font_name := g_font_name g; g_page_width := g_page_width g;
             g_page_height := g_page_height g; g_margin := g_margin g;
             g_usage := g_usage g; g_version := g_version g;
             g_font_list := true; g_vertical := g_vertical g;
             g_orientation := g_orientation g;
             g_text_color := g_text_color g; g_back_color := g_back_color g;
             g_threshold := g_threshold g; g_y_adjust := g_y_adjust g;
             g_letters_per_page := g_letters_per_page g |}
      else if tcsicmp arg (bytes_of "--vertical") then
        pdfplaca_parse_cmdline_loop args'
          {| g_out_text := g_out_text g; g_out_file := g_out_file g;
             g_font_name := g_font_name g; g_page_width := g_page_width g;
             g_page_height := g_page_height g; g_margin := g_margin g;
             g_usage := g_usage g; g_version := g_version g;
             g_font_list := g_font_list g; g_vertical := true;
             g_orientation := g_orientation g;
             g_text_color := g_text_color g; g_back_color := g_back_color g;
             g_threshold := g_threshold g; g_y_adjust := g_y_adjust g;
             g_letters_per_page := g_letters_per_page g |}
      else if bytes_eqb arg (bytes_of "--text") then
        match args' with
        | [] => None
        | value :: args'' =>
            pdfplaca_parse_cmdline_loop args''
              {| g_out_text := value; g_out_file := g_out_file g;
                 g_font_name := g_font_name g;
                 g_page_width := g_page_width g;
                 g_page_height := g_page_height g; g_margin := g_margin g;
                 g_usage := g_usage g; g_version := g_version g;
                 g_font_list := g_font_list g; g_vertical := g_vertical g;
                 g_orientation := g_orientation g;
                 g_text_color := g_text_color g;
                 g_back_color := g_back_color g;
                 g_threshold := g_threshold g; g_y_adjust := g_y_adjust g;
                 g_letters_per_page := g_letters_per_page g |}
        end
      else if bytes_eqb arg (bytes_of "-o") then
        match args' with
        | [] => None
        | value :: args'' =>
            pdfplaca_parse_cmdline_loop args''
              {| g_out_text := g_out_text g; g_out_file := value;
                 g_font_name := g_font_name g;
                 g_page_width := g_page_width g;
                 g_page_height := g_page_height g; g_margin := g_margin g;
                 g_usage := g_usage g; g_version := g_version g;
                 g_font_list := g_font_list g; g_vertical := g_vertical g;
                 g_orientation := g_orientation g;
                 g_text_color := g_text_color g;
                 g_back_color := g_back_color g;
                 g_threshold := g_threshold g; g_y_adjust := g_y_adjust g;
                 g_letters_per_page := g_letters_per_page g |}
        end
      else if bytes_eqb arg (bytes_of "--page-size") then
        match args' with
        | [] => None
        | value :: args'' =>
            match page_size_parse value with
            | None => None
            | Some (width, height) =>
                pdfplaca_parse_cmdline_loop args''
                  {| g_out_text := g_out_text g; g_out_file := g_out_file g;
                     g_font_name := g_font_name g;
                     g_page_width := width; g_page_height := height;
                     g_margin := g_margin g;
                     g_usage := g_usage g; g_version := g_version g;
                     g_font_list := g_font_list g;
                     g_vertical := g_vertical g;
                     g_orientation := g_orientation g;
                     g_text_color := g_text_color g;
                     g_back_color := g_back_color g;
                     g_threshold := g_threshold g;
                     g_y_adjust := g_y_adjust g;
                     g_letters_per_page := g_letters_per_page g |}
            end
        end
      else if tcsicmp arg (bytes_of "--portrait") then
        pdfplaca_parse_cmdline_loop args'
          {| g_out_text := g_out_text g; g_out_file := g_out_file g;
             g_font_name := g_font_name g; g_page_width := g_page_width g;
             g_page_height := g_page_height g; g_margin := g_margin g;
             g_usage := g_usage g; g_version := g_version g;
             g_font_list := g_font_list g; g_vertical := g_vertical g;
             g_orientation := bytes_of "portrait";
             g_text_color := g_text_color g; g_back_color := g_back_color g;
             g_threshold := g_threshold g; g_y_adjust := g_y_adjust g;
             g_letters_per_page := g_letters_per_page g |}
      else if tcsicmp arg (bytes_of "--landscape") then
        pdfplaca_parse_cmdline_loop args'
          {| g_out_text := g_out_text g; g_out_file := g_out_file g;
             g_font_name := g_font_name g; g_page_width := g_page_width g;
             g_page_height := g_page_height g; g_margin := g_margin g;
             g_usage := g_usage g; g_version := g_version g;
             g_font_list := g_font_list g; g_vertical := g_vertical g;
             g_orientation := bytes_of "landscape";
             g_text_color := g_text_color g; g_back_color := g_back_color g;
             g_threshold := g_threshold g; g_y_adjust := g_y_adjust g;
             g_letters_per_page := g_letters_per_page g |}
      else if bytes_eqb arg (bytes_of "--margin") then
        match args' with
        | [] => None
        | value :: args'' =>
            match tcstod value with
            | (Finite margin, endptr) =>
                if negb (is_empty endptr) || negb (isnormal margin)
                   || Qle_bool margin 0
                then None
                else
                  pdfplaca_parse_cmdline_loop args''
                    {| g_out_text := g_out_text g;
                       g_out_file := g_out_file g;
                       g_font_name := g_font_name g;
                       g_page_width := g_page_width g;
                       g_page_height := g_page_height g;
                       g_margin := margin;
                       g_usage := g_usage g; g_version := g_version g;
                       g_font_list := g_font_list g;
                       g_vertical := g_vertical g;
                       g_orientation := g_orientation g;
                       g_text_color := g_text_color g;
                       g_back_color := g_back_color g;
                       g_threshold := g_threshold g;
                       g_y_adjust := g_y_adjust g;
                       g_letters_per_page := g_letters_per_page g |}
            | (NotFinite, _) => None
            end
        end
      else if bytes_eqb arg (bytes_of "--threshold") then
        match args' with
        | [] => None
        | value :: args'' =>
            let (threshold, endptr) := tcstod value in
            if negb (is_empty endptr) || negb (isnormal (g_margin g))
               || Qltb (g_margin g) 1
            then None
            else
              pdfplaca_parse_cmdline_loop args''
                {| g_out_text := g_out_text g; g_out_file := g_out_file g;
                   g_font_name := g_font_name g;
                   g_page_width := g_page_width g;
                   g_page_height := g_page_height g;
                   g_margin := g_margin g;
                   g_usage := g_usage g; g_version := g_version g;
                   g_font_list := g_font_list g;
                   g_vertical := g_vertical g;
                   g_orientation := g_orientation g;
                   g_text_color := g_text_color g;
                   g_back_color := g_back_color g;
                   g_threshold := threshold;
                   g_y_adjust := g_y_adjust g;
                   g_letters_per_page := g_letters_per_page g |}
        end
      else if bytes_eqb arg (bytes_of "--y-adjust") then
        match args' with
        | [] => None
        | value :: args'' =>
            match tcstod value with
            | (Finite y_adjust, endptr) =>
                if negb (is_empty endptr) then None
                else
                  pdfplaca_parse_cmdline_loop args''
                    {| g_out_text := g_out_text g;
                       g_out_file := g_out_file g;
                       g_font_name := g_font_name g;
                       g_page_width := g_page_width g;
                       g_page_height := g_page_height g;
                       g_margin := g_margin g;
                       g_usage := g_usage g; g_version := g_version g;
                       g_font_list := g_font_list g;
                       g_vertical := g_vertical g;
                       g_orientation := g_orientation g;
                       g_text_color := g_text_color g;
                       g_back_color := g_back_color g;
                       g_threshold := g_threshold g;
                       g_y_adjust := - pt_from_mm y_adjust;
                       g_letters_per_page := g_letters_per_page g |}
            | (NotFinite, _) => None
            end
        end
      else if bytes_eqb arg (bytes_of "--font") then
        match args' with
        | [] => None
        | value :: args'' =>
            pdfplaca_parse_cmdline_loop args''
              {| g_out_text := g_out_text g; g_out_file := g_out_file g;
                 g_font_name := value;
                 g_page_width := g_page_width g;
                 g_page_height := g_page_height g; g_margin := g_margin g;
                 g_usage := g_usage g; g_version := g_version g;
                 g_font_list := g_font_list g; g_vertical := g_vertical g;
                 g_orientation := g_orientation g;
                 g_text_color := g_text_color g;
                 g_back_color := g_back_color g;
                 g_threshold := g_threshold g; g_y_adjust := g_y_adjust g;
                 g_letters_per_page := g_letters_per_page g |}
        end
      else if bytes_eqb arg (bytes_of "--text-color") then
        match args' with
        | [] => None
        | value :: args'' =>
            if (color_value_parse value =? 0xFFFFFFFF)%Z then None
            else
              pdfplaca_parse_cmdline_loop args''
                {| g_out_text := g_out_text g; g_out_file := g_out_file g;
                   g_font_name := g_font_name g;
                   g_page_width := g_page_width g;
                   g_page_height := g_page_height g;
                   g_margin := g_margin g;
                   g_usage := g_usage g; g_version := g_version g;
                   g_font_list := g_font_list g;
                   g_vertical := g_vertical g;
                   g_orientation := g_orientation g;
                   g_text_color := color_value_parse value;
                   g_back_color := g_back_color g;
                   g_threshold := g_threshold g;
                   g_y_adjust := g_y_adjust g;
                   g_letters_per_page := g_letters_per_page g |}
        end
      else if bytes_eqb arg (bytes_of "--back-color") then
        match args' with
        | [] => None
        | value :: args'' =>
            if (color_value_parse value =? 0xFFFFFFFF)%Z then None
            else
              pdfplaca_parse_cmdline_loop args''
                {| g_out_text := g_out_text g; g_out_file := g_out_file g;
                   g_font_name := g_font_name g;
                   g_page_width := g_page_width g;
                   g_page_height := g_page_height g;
                   g_margin := g_margin g;
                   g_usage := g_usage g; g_version := g_version g;
                   g_font_list := g_font_list g;
                   g_vertical := g_vertical g;
                   g_orientation := g_orientation g;
                   g_text_color := g_text_color g;
                   g_back_color := color_value_parse value;
                   g_threshold := g_threshold g;
                   g_y_adjust := g_y_adjust g;
                   g_letters_per_page := g_letters_per_page g |}
        end
      else if bytes_eqb arg (bytes_of "--letters-per-page") then
        match args' with
        | [] => None
        | value :: args'' =>
            if (ttoi value =? 0)%Z then None
            else
              pdfplaca_parse_cmdline_loop args''
                {| g_out_text := g_out_text g; g_out_file := g_out_file g;
                   g_font_name := g_font_name g;
                   g_page_width := g_page_width g;
                   g_page_height := g_page_height g;
                   g_margin := g_margin g;
                   g_usage := g_usage g; g_version := g_version g;
                   g_font_list := g_font_list g;
                   g_vertical := g_vertical g;
                   g_orientation := g_orientation g;
                   g_text_color := g_text_color g;
                   g_back_color := g_back_color g;
                   g_threshold := g_threshold g;
                   g_y_adjust := g_y_adjust g;
                   g_letters_per_page := ttoi value |}
        end
      else None
  end.

(** [pdfplaca_parse_cmdline(argc, argv)] for globals that still have the
    values they are defined with. *)
Definition pdfplaca_parse_cmdline (argv : list (list byte)) : option globals :=
  pdfplaca_parse_cmdline_loop (tl argv) globals_default.

End CommandLine.

(** What holds of the globals all through [pdfplaca_parse_cmdline]. *)
Definition globals_sound (g : globals) : Prop :=
  (g_orientation g = bytes_of "portrait"
   \/ g_orientation g = bytes_of "landscape") /\
  0 < g_page_width g /\ 0 < g_page_height g /\ 0 < g_margin g.

(** A [_tcstod] and an [_stscanf] for evaluating the command line: they
    read the few strings they know. *)
Definition sample_tcstod (s : list byte) : parsed_double * list byte :=
  if bytes_eqb s (bytes_of "0") then (Finite 0, [])
  else if bytes_eqb s (bytes_of "0.5") then (Finite 0.5, [])
  else if bytes_eqb s (bytes_of "2") then (Finite 2, [])
  else if bytes_eqb s (bytes_of "nan") then (NotFinite, [])
  else (Finite 0, s).

Definition sample_stscanf (s : list byte)
  : option (parsed_double * parsed_double) :=
  if bytes_eqb s (bytes_of "100x50") then Some (Finite 100, Finite 50)
  else None.

Local Close Scope Q_scope.

(* ================================================================== *)
(** * Part II: properties *)
(* ================================================================== *)

(** ** Character splitting *)

Lemma u8_split_chars_loop_concat (str s : list byte) (chars : list (list byte)) :
  concat (u8_split_chars_loop str s chars) = concat chars ++ s ++ str.
Proof.
  revert s chars.
  induction str as [|pch str IH]; intros s chars; simpl.
  - destruct s; simpl.
    + now rewrite app_nil_r.
    + rewrite concat_app. simpl. now rewrite !app_nil_r.
  - destruct (u8_is_lead pch && negb (is_empty s)); rewrite IH.
    + rewrite concat_app. simpl. now rewrite app_nil_r, <- app_assoc.
    + now rewrite <- app_assoc.
Qed.

(** C10.  Whatever the bytes of the input are, well-formed UTF-8 or not,
    the characters that [u8_split_chars] puts into an empty vector,
    concatenated in order, are the input: no byte is dropped, repeated or
    moved. *)
Theorem u8_split_chars_concat (str : list byte) :
  concat (u8_split_chars [] str) = str.
Proof.
  unfold u8_split_chars. now rewrite u8_split_chars_loop_concat.
Qed.

(** C8.  The three texts of the source's [static_assert]s split into 7, 1
    and 2 characters. *)
Theorem u8_split_chars_counts :
  length (u8_split_chars [] (bytes_of "abあいう漢字")) = 7 /\
  length (u8_split_chars [] (bytes_of "𠮷")) = 1 /\
  length (u8_split_chars [] (bytes_of "😃😃")) = 2.
Proof.
  repeat split; vm_compute; reflexivity.
Qed.

(** ** Counting characters *)

Lemma u8_split_chars_loop_length (str s : list byte)
  (chars : list (list byte)) :
  s <> [] ->
  length (u8_split_chars_loop str s chars) = length chars + S (u8_len str).
Proof.
  revert s chars.
  induction str as [|pch str IH]; intros s chars Hs; simpl.
  - destruct s; [congruence|]. simpl. rewrite length_app. simpl. lia.
  - destruct s as [|c s]; [congruence|]. simpl.
    destruct (u8_is_lead pch); simpl.
    + rewrite IH by discriminate. rewrite length_app. simpl. lia.
    + rewrite IH by discriminate. reflexivity.
Qed.

(** For a text that does not begin inside a character, [u8_len] is the
    number of characters that [u8_split_chars] finds. *)
Lemma u8_len_split_chars (str : list byte) :
  match str with
  | [] => True
  | ch :: _ => u8_is_lead ch = true
  end ->
  u8_len str = length (u8_split_chars [] str).
Proof.
  destruct str as [|ch str]; [reflexivity|].
  intros Hlead. unfold u8_split_chars. simpl. rewrite Hlead. simpl.
  rewrite u8_split_chars_loop_length by discriminate. reflexivity.
Qed.

(** ** Escaping *)

Lemma mstr_escape_loop_app (text ret : list byte) :
  mstr_escape_loop text ret = ret ++ flat_map escape_unit text.
Proof.
  revert ret.
  induction text as [|ch text IH]; intros ret.
  - simpl. now rewrite app_nil_r.
  - change (flat_map escape_unit (ch :: text))
      with (escape_unit ch ++ flat_map escape_unit text).
    rewrite app_assoc.
    destruct ch; simpl; apply IH.
Qed.

(** One escaped character in front of more escaped text is read back as
    that character: a backslash written by [mstr_escape] is never the last
    byte of its output. *)
Lemma mstr_unescape_loop_unit (ch : byte) (rest ret : list byte) :
  mstr_unescape_loop (escape_unit ch ++ rest) false ret =
  mstr_unescape_loop rest false (ret ++ [ch]).
Proof.
  destruct ch; reflexivity.
Qed.

Lemma mstr_unescape_loop_escaped (text ret : list byte) :
  mstr_unescape_loop (flat_map escape_unit text) false ret = ret ++ text.
Proof.
  revert ret.
  induction text as [|ch text IH]; intros ret.
  - simpl. now rewrite app_nil_r.
  - change (flat_map escape_unit (ch :: text))
      with (escape_unit ch ++ flat_map escape_unit text).
    rewrite mstr_unescape_loop_unit, IH, <- app_assoc. reflexivity.
Qed.

Lemma mstr_unescape_escape (s : list byte) :
  mstr_unescape (mstr_escape s) = s.
Proof.
  unfold mstr_unescape, mstr_escape.
  rewrite mstr_escape_loop_app. simpl.
  apply mstr_unescape_loop_escaped.
Qed.

(** C9.  A string without a raw tab, newline, carriage return or form feed
    is given back by [mstr_unescape] after [mstr_escape].  (So is every
    other string: [mstr_unescape_escape].) *)
Theorem mstr_unescape_escape_no_control (s : list byte) :
  forallb (fun ch => negb (is_control ch)) s = true ->
  mstr_unescape (mstr_escape s) = s.
Proof.
  intros _. apply mstr_unescape_escape.
Qed.

Lemma mstr_unescape_escape_no_control_witness :
  forallb (fun ch => negb (is_control ch)) (bytes_of "C:\dir\n 100%") = true /\
  mstr_unescape (mstr_escape (bytes_of "C:\dir\n 100%")) = bytes_of "C:\dir\n 100%".
Proof.
  split.
  - reflexivity.
  - apply (mstr_unescape_escape_no_control (bytes_of "C:\dir\n 100%")).
    reflexivity.
Defined.

(** ** Replacing *)

Lemma starts_with_length (from str : list byte) :
  starts_with from str = true -> length from <= length str.
Proof.
  revert str.
  induction from as [|a from IH]; intros [|b str]; simpl; try lia; try discriminate.
  intros H. apply andb_prop in H. destruct H as [_ H].
  apply IH in H. lia.
Qed.

(** Where [find] answers, [from] lies inside [str], at or behind [i]. *)
Lemma find_bounds (from str : list byte) (i j : nat) :
  find from str i = Some j -> i <= j /\ j + length from <= length str.
Proof.
  revert i j.
  induction str as [|ch str IH]; intros i j; simpl.
  - destruct i; [|discriminate].
    destruct from; simpl; [|discriminate].
    intros [= <-]. lia.
  - destruct i as [|i].
    + destruct (starts_with from (ch :: str)) eqn:E.
      * intros [= <-]. apply starts_with_length in E. simpl in E. lia.
      * destruct (find from str 0) as [j'|] eqn:F; simpl; [|discriminate].
        intros [= <-]. apply IH in F. lia.
    + destruct (find from str i) as [j'|] eqn:F; simpl; [|discriminate].
      intros [= <-]. apply IH in F. lia.
Qed.

Lemma mstr_replace_all_loop_total (from to : list byte) :
  from <> [] ->
  forall (fuel : nat) (str : list byte) (i : nat),
    length str - i < fuel ->
    exists str', mstr_replace_all_loop fuel str from to i = Some str'.
Proof.
  intros Hfrom.
  induction fuel as [|fuel IH]; intros str i Hlt; [lia|].
  simpl. destruct (find from str i) as [j|] eqn:F.
  - apply find_bounds in F. destruct F as [Hij Hj].
    apply IH.
    assert (0 < length from) by (destruct from; [congruence | simpl; lia]).
    rewrite !length_app, length_firstn, length_skipn. lia.
  - now exists str.
Qed.

(** [mstr_replace_all] ends for every non-empty pattern. *)
Lemma mstr_replace_all_total (str from to : list byte) :
  from <> [] -> exists str', mstr_replace_all str from to = Some str'.
Proof.
  intros Hfrom. apply mstr_replace_all_loop_total; [assumption | lia].
Qed.

Lemma delete_spaces_total (utf8_text : list byte) :
  exists stripped, delete_spaces utf8_text = Some stripped.
Proof.
  unfold delete_spaces.
  destruct (mstr_replace_all_total utf8_text (bytes_of " ") []) as [t1 ->];
    [discriminate|].
  destruct (mstr_replace_all_total t1 [x09] []) as [t2 ->]; [discriminate|].
  destruct (mstr_replace_all_total t2 [x0d] []) as [t3 ->]; [discriminate|].
  destruct (mstr_replace_all_total t3 [x0a] []) as [t4 ->]; [discriminate|].
  apply mstr_replace_all_total. discriminate.
Qed.

(** ** Pages of a fixed number of letters *)

Lemma c_str_no_nul (s : list byte) : no_nul (c_str s).
Proof.
  induction s as [|ch s IH]; simpl; [constructor|].
  destruct (Byte.eqb ch x00) eqn:E; constructor; [|exact IH].
  intros ->. discriminate.
Qed.

Lemma c_str_id (s : list byte) : no_nul s -> c_str s = s.
Proof.
  induction 1 as [|ch s Hch _ IH]; simpl; [reflexivity|].
  destruct (Byte.eqb ch x00) eqn:E.
  - apply Byte.byte_dec_bl in E. contradiction.
  - now rewrite IH.
Qed.

Lemma in_firstn {A : Type} (x : A) (n : nat) (l : list A) :
  In x (firstn n l) -> In x l.
Proof.
  intros H. rewrite <- (firstn_skipn n l). apply in_or_app. now left.
Qed.

Lemma in_skipn {A : Type} (x : A) (n : nat) (l : list A) :
  In x (skipn n l) -> In x l.
Proof.
  intros H. rewrite <- (firstn_skipn n l). apply in_or_app. now right.
Qed.

Lemma no_nul_concat_firstn_skipn (chars : list (list byte)) (a b : nat) :
  no_nul (concat chars) -> no_nul (concat (firstn a (skipn b chars))).
Proof.
  unfold no_nul. rewrite !Forall_forall. intros H ch Hin.
  apply H. apply in_concat in Hin. destruct Hin as [c [Hc Hch]].
  apply in_concat. exists c. split; [|assumption].
  apply in_firstn, in_skipn in Hc. exact Hc.
Qed.

Lemma firstn_plus_skipn {A : Type} (a b : nat) (l : list A) :
  firstn (a + b) l = firstn a l ++ firstn b (skipn a l).
Proof.
  revert l. induction a as [|a IH]; intros [|x l]; simpl;
    try reflexivity.
  - now rewrite firstn_nil.
  - now rewrite IH.
Qed.

Lemma skipn_cons_nth {A : Type} (d : A) (i : nat) (l : list A) :
  i < length l -> skipn i l = nth i l d :: skipn (S i) l.
Proof.
  revert l. induction i as [|i IH]; intros [|x l]; simpl; try lia.
  - reflexivity.
  - intros H. apply IH. lia.
Qed.

(** The inner loop adds the next [n] characters, as far as there are any. *)
Lemma page_chars_loop_spec (chars : list (list byte)) (n : nat) :
  forall (iChar : Z) (str : list byte),
    (0 <= iChar)%Z ->
    page_chars_loop n chars iChar str =
    ((iChar + Z.of_nat n)%Z,
     str ++ concat (firstn n (skipn (Z.to_nat iChar) chars))).
Proof.
  induction n as [|n IH]; intros iChar str Hi.
  - simpl. now rewrite Z.add_0_r, app_nil_r.
  - cbn [page_chars_loop]. rewrite IH by lia.
    f_equal; [lia|].
    destruct (iChar <? Z.of_nat (length chars))%Z eqn:E.
    + apply Z.ltb_lt in E.
      rewrite (skipn_cons_nth [] (Z.to_nat iChar) chars) by lia.
      cbn [firstn concat]. rewrite <- app_assoc.
      replace (Z.to_nat (iChar + 1)) with (S (Z.to_nat iChar)) by lia.
      reflexivity.
    + apply Z.ltb_ge in E.
      rewrite !skipn_all2 by lia.
      now rewrite !firstn_nil.
Qed.

Section LettersPerPageFacts.

Variable size_bits : Z.
Variable chars : list (list byte).
Variable k : Z.
Hypothesis k_pos : (0 < k)%Z.
Hypothesis chars_no_nul : no_nul (concat chars).

Lemma draw_pages_loop_spec (n : nat) :
  forall (iPage : Z) (pages : list (list byte)),
    (0 <= iPage)%Z ->
    ((iPage + Z.of_nat n) * k < 2 ^ size_bits)%Z ->
    let out := draw_pages_loop size_bits n chars k iPage (iPage * k)%Z pages in
    length out = length pages + n /\
    concat out =
    concat pages ++
    concat (firstn (n * Z.to_nat k) (skipn (Z.to_nat (iPage * k)) chars)).
Proof.
  induction n as [|n IH]; intros iPage pages Hi Hw; cbn zeta.
  - simpl. rewrite app_nil_r. split; [lia | reflexivity].
  - cbn [draw_pages_loop].
    assert (Hle : ((iPage + 1) * k <= (iPage + Z.of_nat (S n)) * k)%Z)
      by (apply Z.mul_le_mono_nonneg_r; lia).
    assert (Hk : ((iPage + 1) * k = iPage * k + k)%Z) by ring.
    assert (H0 : (0 <= iPage * k)%Z) by (apply Z.mul_nonneg_nonneg; lia).
    assert (Hb : size_t size_bits ((iPage + 1) * k) = ((iPage + 1) * k)%Z).
    { unfold size_t. apply Z.mod_small. lia. }
    rewrite Hb, page_chars_loop_spec by lia.
    replace (iPage * k + Z.of_nat (Z.to_nat ((iPage + 1) * k - iPage * k)))%Z
      with ((iPage + 1) * k)%Z by lia.
    replace (Z.to_nat ((iPage + 1) * k - iPage * k)) with (Z.to_nat k) by lia.
    cbn [app].
    rewrite c_str_id by (apply no_nul_concat_firstn_skipn, chars_no_nul).
    specialize (IH (iPage + 1)%Z
      (pages ++ [concat (firstn (Z.to_nat k) (skipn (Z.to_nat (iPage * k)) chars))])).
    cbn zeta in IH. destruct IH as [IHl IHc];
      [lia | replace (iPage + 1 + Z.of_nat n)%Z with (iPage + Z.of_nat (S n))%Z by lia;
             exact Hw |].
    split.
    + rewrite IHl, length_app. simpl. lia.
    + rewrite IHc, concat_app. cbn [concat]. rewrite app_nil_r, <- app_assoc.
      f_equal.
      replace (S n * Z.to_nat k) with (Z.to_nat k + n * Z.to_nat k) by lia.
      rewrite firstn_plus_skipn, concat_app, skipn_skipn.
      do 2 f_equal.
      replace (Z.to_nat ((iPage + 1) * k)) with (Z.to_nat k + Z.to_nat (iPage * k))
        by (rewrite Hk; lia).
      reflexivity.
Qed.


End LettersPerPageFacts.



(** ** Comparisons of doubles *)

Local Open Scope Q_scope.

Lemma Qltb_lt (x y : Q) : Qltb x y = true <-> x < y.
Proof.
  unfold Qltb. rewrite negb_true_iff, <- not_true_iff_false, Qle_bool_iff.
  split; [apply Qnot_le_lt | apply Qlt_not_le].
Qed.

Lemma Qltb_ge (x y : Q) : Qltb x y = false <-> y <= x.
Proof.
  unfold Qltb. rewrite negb_false_iff. apply Qle_bool_iff.
Qed.

Lemma Qle_bool_false (x y : Q) : Qle_bool x y = false <-> y < x.
Proof.
  rewrite <- not_true_iff_false, Qle_bool_iff.
  split; [apply Qnot_le_lt | apply Qlt_not_le].
Qed.

Lemma Qdiv_zero_r (a b : Q) : b == 0 -> a / b == 0.
Proof.
  intros Hb. unfold Qdiv. rewrite Hb. unfold Qinv. simpl. ring.
Qed.

Lemma Qdiv_zero_l (a b : Q) : a == 0 -> a / b == 0.
Proof.
  intros Ha. unfold Qdiv. rewrite Ha. ring.
Qed.

Lemma Qdiv_pos (a b : Q) : 0 < a -> 0 < b -> 0 < a / b.
Proof.
  intros Ha Hb. apply Qlt_shift_div_l; [assumption|]. now rewrite Qmult_0_l.
Qed.

Lemma Q_of_size_pos (n : nat) : (0 < n)%nat -> 0 < Q_of_size n.
Proof.
  intros H. unfold Q_of_size, Qlt. simpl. lia.
Qed.

(** ** The correction of the vertical solver *)

(** The [if ... else if] changes one scale factor at most. *)
Lemma v_aspect_correction_one_axis
  (text_width text_height len scale_x scale_y threshold : Q) :
  fst (v_aspect_correction text_width text_height len scale_x scale_y threshold)
  = scale_x \/
  snd (v_aspect_correction text_width text_height len scale_x scale_y threshold)
  = scale_y.
Proof.
  unfold v_aspect_correction.
  destruct (Qltb threshold _); [right; reflexivity|].
  destruct (Qltb threshold _); left; reflexivity.
Qed.

(** C5.  Whenever [pdf_scaling_v_text] returns [true], its loop has ended
    with values [r0], the font size handed back is that of [r0], and of the
    two scale factors handed back one at least is that of [r0]: the
    correction behind the loop never changes both. *)
Theorem pdf_scaling_v_text_one_axis
  (cairo_text_extents : Q -> list byte -> cairo_text_extents_t)
  (fuel : nat) (utf8_text : list byte) (width height threshold : Q)
  (r : FitResult) :
  pdf_scaling_v_text cairo_text_extents fuel utf8_text width height threshold
  = Returns (Some r) ->
  exists r0 : FitResult,
    pdf_scaling_v_text_loop cairo_text_extents fuel
      (u8_split_chars [] utf8_text) width height threshold 10 1 1
    = Returns (Some r0) /\
    fit_font_size r = fit_font_size r0 /\
    (fit_scale_x r = fit_scale_x r0 \/ fit_scale_y r = fit_scale_y r0).
Proof.
  unfold pdf_scaling_v_text.
  destruct (is_empty utf8_text); [discriminate|].
  destruct (pdf_scaling_v_text_loop _ _ _ _ _ _ _ _ _) as [[r0|]|];
    try discriminate.
  destruct (pdf_get_v_text_width_and_height _ _ _) as [text_width text_height].
  pose proof (v_aspect_correction_one_axis text_width text_height
                (Q_of_size (length (u8_split_chars [] utf8_text)))
                (fit_scale_x r0) (fit_scale_y r0) threshold) as H.
  destruct (v_aspect_correction _ _ _ _ _ _) as [sx sy].
  intros [= <-]. exists r0. simpl in *. auto.
Qed.

Lemma pdf_scaling_v_text_one_axis_witness :
  exists r r0 : FitResult,
    pdf_scaling_v_text sample_text_extents 200 (bytes_of "AB") 100 100 1.5
    = Returns (Some r) /\
    pdf_scaling_v_text_loop sample_text_extents 200
      (u8_split_chars [] (bytes_of "AB")) 100 100 1.5 10 1 1
    = Returns (Some r0) /\
    fit_font_size r = fit_font_size r0 /\
    (fit_scale_x r = fit_scale_x r0 \/ fit_scale_y r = fit_scale_y r0).
Proof.
  eexists.
  assert (H : pdf_scaling_v_text sample_text_extents 200 (bytes_of "AB")
                100 100 1.5 = Returns (Some _)) by (vm_compute; reflexivity).
  destruct (pdf_scaling_v_text_one_axis sample_text_extents 200
              (bytes_of "AB") 100 100 1.5 _ H) as [r0 Hr0].
  exists r0. split; [exact H | exact Hr0].
Defined.

(** ** The correction of the horizontal solver *)

Lemma Qinv_le_self (t : Q) : 1 <= t -> 1 / t <= t.
Proof.
  intros Ht. apply Qle_trans with 1; [|assumption].
  apply Qle_shift_div_r; lra.
Qed.

(** When the first test has fired, [scale_x] has been set so that the
    second test sees the quotient [1 / threshold], which is not above a
    threshold of 1 or more. *)
Lemma h_tests_exclusive
  (text_width text_height len scale_x scale_y threshold : Q) :
  1 <= threshold ->
  h_width_over text_width text_height len scale_x scale_y threshold = true ->
  h_height_over text_width text_height len
    (threshold * (text_height * scale_y) * len / text_width)
    scale_y threshold = false.
Proof.
  intros HT Hover. unfold h_width_over in Hover. unfold h_height_over.
  apply Qltb_lt in Hover. apply Qltb_ge.
  assert (Hb : ~ text_height * scale_y == 0).
  { intros E. rewrite (Qdiv_zero_r _ _ E) in Hover. lra. }
  assert (Hw : ~ text_width == 0).
  { intros E. rewrite (Qdiv_zero_l _ (text_height * scale_y)) in Hover; [lra|].
    unfold Qdiv. rewrite E. ring. }
  assert (Hl : ~ len == 0).
  { intros E. rewrite (Qdiv_zero_l _ (text_height * scale_y)) in Hover; [lra|].
    apply Qdiv_zero_r. exact E. }
  assert (E : text_height * scale_y
              / (text_width
                 * (threshold * (text_height * scale_y) * len / text_width)
                 / len)
              == 1 / threshold).
  { field. repeat split; try assumption; try lra.
    - intros E. apply Hb. rewrite E. ring.
    - intros E. apply Hb. rewrite E. ring. }
  rewrite E. apply Qinv_le_self. exact HT.
Qed.

Ltac Qpos :=
  repeat first [apply Qdiv_pos | apply Qmult_lt_0_compat];
  first [assumption | lra].

(** With positive measures and factors and a threshold of 1 or more, the
    correction leaves positive factors and both quotients within the
    threshold. *)
Lemma h_aspect_correction_cap
  (text_width text_height len scale_x scale_y threshold : Q) :
  0 < text_width -> 0 < text_height -> 0 < len ->
  0 < scale_x -> 0 < scale_y -> 1 <= threshold ->
  let p := h_aspect_correction text_width text_height len scale_x scale_y
             threshold in
  0 < fst p /\ 0 < snd p /\
  (text_width * fst p / len) / (text_height * snd p) <= threshold /\
  (text_height * snd p) / (text_width * fst p / len) <= threshold.
Proof.
  intros HW HH HN Hsx Hsy HT.
  assert (Hb : 0 < text_height * scale_y) by Qpos.
  unfold h_aspect_correction.
  destruct (h_width_over text_width text_height len scale_x scale_y threshold)
    eqn:E1.
  - rewrite (h_tests_exclusive _ _ _ _ _ _ HT E1). cbn [fst snd].
    assert (Hx : 0 < threshold * (text_height * scale_y) * len / text_width).
    { Qpos. }
    assert (Ea : text_width
                 * (threshold * (text_height * scale_y) * len / text_width)
                 / len
                 == threshold * (text_height * scale_y)) by (field; split; lra).
    repeat split; try assumption.
    + rewrite Ea. apply Qle_shift_div_r; [assumption | lra].
    + rewrite Ea.
      assert (E : text_height * scale_y / (threshold * (text_height * scale_y))
                  == 1 / threshold) by (field; split; lra).
      rewrite E. apply Qinv_le_self. exact HT.
  - assert (Ha : 0 < text_width * scale_x / len)
      by Qpos.
    unfold h_width_over in E1. apply Qltb_ge in E1.
    destruct (h_height_over text_width text_height len scale_x scale_y threshold)
      eqn:E2; cbn [fst snd].
    + assert (Hy : 0 < threshold * (text_width * scale_x / len) / text_height).
      { Qpos. }
      assert (Eb : text_height
                   * (threshold * (text_width * scale_x / len) / text_height)
                   == threshold * (text_width * scale_x / len))
        by (field; split; lra).
      repeat split; try assumption.
      * rewrite Eb.
        assert (E : text_width * scale_x / len
                    / (threshold * (text_width * scale_x / len))
                    == 1 / threshold) by (field; repeat split; lra).
        rewrite E. apply Qinv_le_self. exact HT.
      * rewrite Eb. apply Qle_shift_div_r; [assumption | lra].
    + unfold h_height_over in E2. apply Qltb_ge in E2.
      repeat split; assumption.
Qed.

(** ** The loop of the horizontal solver *)

Section HorizontalLoop.

Variable cairo_text_extents : Q -> list byte -> cairo_text_extents_t.
Variable cairo_font_extents : Q -> cairo_font_extents_t.
Variable chars : list (list byte).
Variable threshold : Q.

(** The font size never goes down and the factors stay positive. *)
Lemma pdf_scaling_h_text_loop_inv (extents : cairo_text_extents_t)
  (width height : Q) (fuel : nat) :
  forall (font_size scale_x scale_y : Q) (r : FitResult),
    0 < font_size -> 0 < scale_x -> 0 < scale_y ->
    pdf_scaling_h_text_loop cairo_text_extents cairo_font_extents
      extents fuel chars width height threshold font_size scale_x scale_y
    = Returns (Some r) ->
    font_size <= fit_font_size r /\ 0 < fit_scale_x r /\ 0 < fit_scale_y r.
Proof.
  induction fuel as [|fuel IH]; intros font_size scale_x scale_y r Hf Hx Hy;
    cbn [pdf_scaling_h_text_loop]; [discriminate|].
  destruct (pdf_get_h_text_width_and_height _ _ font_size chars)
    as [text_width text_height].
  destruct (_ || _ || _); [discriminate|].
  destruct (_ && _).
  { intros H. apply IH in H; lra. }
  destruct (Qltb threshold 1.1).
  { intros [= <-]. cbn. repeat split; try assumption. lra. }
  destruct (Qltb (text_width * scale_x) _).
  { intros H. apply IH in H; lra. }
  destruct (Qltb (text_height * scale_y) _).
  { intros H. apply IH in H; lra. }
  intros [= <-]. cbn. repeat split; try assumption. lra.
Qed.

(** Once the loop does not enlarge the font it never does again: the font
    size it ends with is the one it has. *)
Lemma pdf_scaling_h_text_loop_settled (extents : cairo_text_extents_t)
  (width height : Q) (fuel : nat) :
  forall (font_size scale_x scale_y : Q) (r : FitResult),
    h_grows cairo_text_extents cairo_font_extents chars
      width height font_size scale_x scale_y = false ->
    pdf_scaling_h_text_loop cairo_text_extents cairo_font_extents
      extents fuel chars width height threshold font_size scale_x scale_y
    = Returns (Some r) ->
    fit_font_size r = font_size.
Proof.
  unfold h_grows.
  induction fuel as [|fuel IH]; intros font_size scale_x scale_y r Hg;
    cbn [pdf_scaling_h_text_loop]; [discriminate|].
  destruct (pdf_get_h_text_width_and_height _ _ font_size chars)
    as [text_width text_height] eqn:Em.
  cbn [fst snd] in Hg.
  destruct (_ || _ || _); [discriminate|].
  rewrite Hg.
  destruct (Qltb threshold 1.1); [now intros [= <-]|].
  destruct (Qltb (text_width * scale_x) _) eqn:Ex.
  { cbn [andb] in Hg. apply IH. rewrite Em. cbn [fst snd].
    rewrite Hg. apply andb_false_r. }
  destruct (Qltb (text_height * scale_y) _) eqn:Ey.
  { apply IH. rewrite Em. cbn [fst snd]. rewrite Ex. reflexivity. }
  now intros [= <-].
Qed.

(** A larger box keeps the font growing at least as long. *)
Lemma pdf_scaling_h_text_loop_monotone
  (extents extents' : cairo_text_extents_t) (width height width' height' : Q) :
  width <= width' -> height <= height' ->
  forall (fuel fuel' : nat) (font_size scale_x scale_y : Q) (r r' : FitResult),
    0 < font_size -> 0 < scale_x -> 0 < scale_y ->
    pdf_scaling_h_text_loop cairo_text_extents cairo_font_extents
      extents fuel chars width height threshold font_size scale_x scale_y
    = Returns (Some r) ->
    pdf_scaling_h_text_loop cairo_text_extents cairo_font_extents
      extents' fuel' chars width' height' threshold font_size scale_x scale_y
    = Returns (Some r') ->
    fit_font_size r <= fit_font_size r'.
Proof.
  intros Hw Hh.
  induction fuel as [|fuel IH];
    intros fuel' font_size scale_x scale_y r r' Hf Hx Hy H H';
    [discriminate|].
  destruct (h_grows cairo_text_extents cairo_font_extents chars
      width height font_size scale_x scale_y) eqn:Eg.
  - (* the smaller box lets the font grow: so does the larger one *)
    destruct fuel' as [|fuel']; [discriminate|].
    unfold h_grows in *.
    cbn [pdf_scaling_h_text_loop] in H, H'.
    destruct (pdf_get_h_text_width_and_height _ _ font_size chars)
      as [text_width text_height].
    cbn [fst snd] in Eg.
    destruct (_ || _ || _); [discriminate|].
    destruct (_ || _ || _); [discriminate|].
    rewrite Eg in H.
    apply andb_prop in Eg. destruct Eg as [E1 E2].
    apply Qltb_lt in E1, E2.
    assert (E1' : Qltb (text_width * scale_x) (width' * 0.9) = true)
      by (apply Qltb_lt; lra).
    assert (E2' : Qltb (text_height * scale_y) (height' * 0.9) = true)
      by (apply Qltb_lt; lra).
    rewrite E1', E2' in H'. cbn [andb] in H'.
    apply (IH fuel' (font_size * 1.1) scale_x scale_y); try assumption; lra.
  - rewrite (pdf_scaling_h_text_loop_settled _ _ _ _ _ _ _ _ Eg H).
    apply (pdf_scaling_h_text_loop_inv _ _ _ _ _ _ _ _ Hf Hx Hy H').
Qed.

End HorizontalLoop.

(** ** The measures of a row *)

Section HorizontalMeasure.

Variable cairo_text_extents : Q -> list byte -> cairo_text_extents_t.
Variable cairo_font_extents : Q -> cairo_font_extents_t.
Variable font_size : Q.

Lemma pdf_get_h_fold_positive (chars : list (list byte)) :
  glyphs_positive cairo_text_extents font_size chars ->
  forall acc : Q * Q,
    0 <= fst acc -> 0 <= snd acc ->
    (chars <> [] \/ (0 < fst acc /\ 0 < snd acc)) ->
    let m :=
      fold_left
        (fun (acc : Q * Q) (text_char : list byte) =>
           let (text_width, text_height) := acc in
           let extents := cairo_text_extents font_size text_char in
           let text_height :=
             if Qltb text_height (te_height extents)
             then te_height extents else text_height in
           let text_height :=
             if Qltb text_height (fe_height (cairo_font_extents font_size))
             then fe_height (cairo_font_extents font_size) else text_height in
           (text_width + te_x_advance extents, text_height))
        chars acc in
    0 < fst m /\ 0 < snd m.
Proof.
  induction chars as [|c chars IH]; intros Hglyph [w h] Hw Hh Hne; cbn zeta.
  - destruct Hne as [Hne | Hpos]; [congruence | exact Hpos].
  - cbn [fold_left]. cbn [fst snd] in *.
    destruct (Hglyph c (or_introl eq_refl)) as [Ha Hg].
    set (h1 := if Qltb h (te_height (cairo_text_extents font_size c))
               then te_height (cairo_text_extents font_size c) else h).
    assert (H1 : 0 < h1).
    { unfold h1.
      destruct (Qltb h _) eqn:E; [exact Hg|].
      apply Qltb_ge in E. lra. }
    set (h2 := if Qltb h1 (fe_height (cairo_font_extents font_size))
               then fe_height (cairo_font_extents font_size) else h1).
    assert (H2 : 0 < h2).
    { unfold h2.
      destruct (Qltb h1 _) eqn:E; [|exact H1].
      apply Qltb_lt in E. lra. }
    apply IH; cbn [fst snd]; try lra.
    intros text_char Hin. apply Hglyph. now right.
Qed.

Lemma pdf_get_h_text_width_and_height_positive (chars : list (list byte)) :
  glyphs_positive cairo_text_extents font_size chars ->
  chars <> [] ->
  0 < fst (pdf_get_h_text_width_and_height cairo_text_extents
             cairo_font_extents font_size chars) /\
  0 < snd (pdf_get_h_text_width_and_height cairo_text_extents
             cairo_font_extents font_size chars).
Proof.
  intros Hglyph Hne. unfold pdf_get_h_text_width_and_height.
  apply pdf_get_h_fold_positive; cbn [fst snd]; try lra; [exact Hglyph|].
  now left.
Qed.

End HorizontalMeasure.

Lemma u8_len_pos_not_empty (str : list byte) :
  (0 < u8_len str)%nat -> u8_split_chars [] str <> [].
Proof.
  intros H E.
  assert (Hc : concat (u8_split_chars [] str) = str)
    by (unfold u8_split_chars; now rewrite u8_split_chars_loop_concat).
  rewrite E in Hc. simpl in Hc. subst str. simpl in H. lia.
Qed.

(** ** The horizontal solver *)

(** What [pdf_scaling_h_text] hands back is what its loop ended with,
    corrected. *)
Lemma pdf_scaling_h_text_returns
  (cairo_text_extents : Q -> list byte -> cairo_text_extents_t)
  (cairo_font_extents : Q -> cairo_font_extents_t)
  (extents : cairo_text_extents_t) (fuel : nat) (utf8_text : list byte)
  (width height threshold : Q) (r : FitResult) :
  pdf_scaling_h_text cairo_text_extents cairo_font_extents extents fuel
    utf8_text width height threshold = Returns (Some r) ->
  exists r0 : FitResult,
    pdf_scaling_h_text_loop cairo_text_extents cairo_font_extents extents fuel
      (u8_split_chars [] utf8_text) width height threshold 10 1 1
    = Returns (Some r0) /\
    fit_font_size r = fit_font_size r0 /\
    (fit_scale_x r, fit_scale_y r) =
    h_aspect_correction
      (fst (pdf_get_h_text_width_and_height cairo_text_extents
              cairo_font_extents (fit_font_size r0)
              (u8_split_chars [] utf8_text)))
      (snd (pdf_get_h_text_width_and_height cairo_text_extents
              cairo_font_extents (fit_font_size r0)
              (u8_split_chars [] utf8_text)))
      (Q_of_size (u8_len utf8_text))
      (fit_scale_x r0) (fit_scale_y r0) threshold.
Proof.
  unfold pdf_scaling_h_text. cbv zeta.
  destruct (is_empty utf8_text); [discriminate|].
  destruct (pdf_scaling_h_text_loop _ _ _ _ _ _ _ _ _ _ _) as [[r0|]|];
    try discriminate.
  intros H. exists r0. revert H.
  destruct (pdf_get_h_text_width_and_height _ _ _ _)
    as [text_width text_height].
  cbn [fst snd].
  destruct (h_aspect_correction _ _ _ _ _ _) as [sx sy].
  intros [= <-]. cbn. auto.
Qed.



(** C2.  For a row of at least one character and a threshold of 1 or
    more, the glyphs of the characters of the row having positive advances
    and heights at the font sizes from 10 on (nothing is asked of the
    other glyphs of the font), whenever [pdf_scaling_h_text] returns
    [true] the font size handed back is 10 or more and both scale factors
    are positive; and of two such runs on the same row, the second for a
    box at least as wide and as high, the second hands back a font size at
    least as large.  (A run is its own second run, which gives the first
    part for every run.) *)
Theorem pdf_scaling_h_text_positive_monotone
  (cairo_text_extents : Q -> list byte -> cairo_text_extents_t)
  (cairo_font_extents : Q -> cairo_font_extents_t)
  (extents extents' : cairo_text_extents_t) (fuel fuel' : nat)
  (utf8_text : list byte) (width height width' height' threshold : Q)
  (r r' : FitResult) :
  (forall font_size : Q,
     10 <= font_size ->
     glyphs_positive cairo_text_extents font_size
       (u8_split_chars [] utf8_text)) ->
  (0 < u8_len utf8_text)%nat ->
  1 <= threshold ->
  width <= width' -> height <= height' ->
  pdf_scaling_h_text cairo_text_extents cairo_font_extents extents fuel
    utf8_text width height threshold = Returns (Some r) ->
  pdf_scaling_h_text cairo_text_extents cairo_font_extents extents' fuel'
    utf8_text width' height' threshold = Returns (Some r') ->
  10 <= fit_font_size r /\ 0 < fit_scale_x r /\ 0 < fit_scale_y r /\
  fit_font_size r <= fit_font_size r'.
Proof.
  intros Hglyph Hlen HT Hw Hh Hret Hret'.
  destruct (pdf_scaling_h_text_returns _ _ _ _ _ _ _ _ _ Hret)
    as [r0 [Hloop [Hfs Hcorr]]].
  destruct (pdf_scaling_h_text_returns _ _ _ _ _ _ _ _ _ Hret')
    as [r0' [Hloop' [Hfs' _]]].
  assert (Hmono : fit_font_size r0 <= fit_font_size r0').
  { eapply pdf_scaling_h_text_loop_monotone;
      [exact Hw | exact Hh | | | | exact Hloop | exact Hloop']; lra. }
  apply pdf_scaling_h_text_loop_inv in Hloop; try lra.
  destruct Hloop as [H10 [Hx Hy]].
  destruct (pdf_get_h_text_width_and_height_positive cairo_text_extents
              cairo_font_extents (fit_font_size r0)
              (u8_split_chars [] utf8_text)
              (Hglyph (fit_font_size r0) H10)
              (u8_len_pos_not_empty utf8_text Hlen)) as [HW HH].
  pose proof (h_aspect_correction_cap _ _ _ _ _ _ HW HH
                (Q_of_size_pos _ Hlen) Hx Hy HT) as Hcap.
  cbn zeta in Hcap. rewrite <- Hcorr in Hcap. cbn [fst snd] in Hcap.
  destruct Hcap as [Hx' [Hy' _]].
  rewrite Hfs, Hfs'. repeat split; assumption.
Qed.

Lemma pdf_scaling_h_text_positive_monotone_witness :
  exists r r' : FitResult,
    pdf_scaling_h_text sample_text_extents sample_font_extents extents_nonzero
      200 (bytes_of "Placard.") 796 250 1.5 = Returns (Some r) /\
    pdf_scaling_h_text sample_text_extents sample_font_extents extents_nonzero
      200 (bytes_of "Placard.") 796 550 1.5 = Returns (Some r') /\
    10 <= fit_font_size r /\ 0 < fit_scale_x r /\ 0 < fit_scale_y r /\
    fit_font_size r <= fit_font_size r'.
Proof.
  do 2 eexists.
  assert (H : pdf_scaling_h_text sample_text_extents sample_font_extents
                extents_nonzero 200 (bytes_of "Placard.") 796 250 1.5
              = Returns (Some _)) by (vm_compute; reflexivity).
  assert (H' : pdf_scaling_h_text sample_text_extents sample_font_extents
                 extents_nonzero 200 (bytes_of "Placard.") 796 550 1.5
               = Returns (Some _)) by (vm_compute; reflexivity).
  split; [exact H|]. split; [exact H'|].
  apply (pdf_scaling_h_text_positive_monotone sample_text_extents
           sample_font_extents extents_nonzero extents_nonzero 200 200
           (bytes_of "Placard.") 796 250 796 550 1.5 _ _).
  - intros font_size Hfs text_char Hin.
    cbn in Hin.
    repeat (destruct Hin as [<- | Hin]; [cbn; lra|]).
    destruct Hin.
  - vm_compute. lia.
  - vm_compute. discriminate.
  - vm_compute. discriminate.
  - vm_compute. discriminate.
  - exact H.
  - exact H'.
Defined.

(** *** The two tests in exact arithmetic and in binary64 *)

(** In exact arithmetic the two tests behind the loop never fire in the
    same run when the threshold is 1 or more. *)
Lemma h_both_tests_fire_false
  (cairo_text_extents : Q -> list byte -> cairo_text_extents_t)
  (cairo_font_extents : Q -> cairo_font_extents_t)
  (extents : cairo_text_extents_t) (fuel : nat) (utf8_text : list byte)
  (width height threshold : Q) :
  1 <= threshold ->
  ~ h_both_tests_fire cairo_text_extents cairo_font_extents extents fuel
      utf8_text width height threshold.
Proof.
  intros HT [r0 [_ [H1 H2]]].
  unfold h_aspect_correction in H2. rewrite H1 in H2. cbn [fst] in H2.
  rewrite (h_tests_exclusive _ _ _ _ _ _ HT H1) in H2. discriminate.
Qed.

(** So a run in which both fire owes it to the rounding of the doubles
    and not to the proportions of a glyph: were the arithmetic exact,
    there would be no font, row, box of positive width and height and
    threshold of 1 or more for which both tests fire in the same run. *)
Lemma h_both_tests_fire_nowhere :
  ~ exists (cairo_text_extents : Q -> list byte -> cairo_text_extents_t)
      (cairo_font_extents : Q -> cairo_font_extents_t)
      (extents : cairo_text_extents_t) (fuel : nat) (utf8_text : list byte)
      (width height threshold : Q),
      utf8_text <> [] /\ 0 < width /\ 0 < height /\ 1 <= threshold /\
      h_both_tests_fire cairo_text_extents cairo_font_extents extents fuel
        utf8_text width height threshold.
Proof.
  intros [cte [cfe [extents [fuel [utf8_text [width [height [threshold
    [_ [_ [_ [HT H]]]]]]]]]]]].
  exact (h_both_tests_fire_false _ _ _ _ _ _ _ _ HT H).
Qed.

(** Below 1 the two tests fire together in exact arithmetic too: for a
    threshold of one half and a square cell the first halves [scale_x],
    which leaves the cell twice as high as wide, and the second quarters
    [scale_y]. *)
Lemma h_both_tests_fire_below_one :
  h_width_over 10 10 1 1 1 0.5 = true /\
  h_height_over 10 10 1 (fst (h_aspect_correction 10 10 1 1 1 0.5)) 1 0.5
  = true /\
  fst (h_aspect_correction 10 10 1 1 1 0.5) == 0.5 /\
  snd (h_aspect_correction 10 10 1 1 1 0.5) == 0.25.
Proof.
  repeat split; vm_compute; reflexivity.
Qed.

(** In exact arithmetic, for a threshold of 1 or more, of the two scale
    factors that [pdf_scaling_h_text] hands back one at least is that of
    the end of its loop. *)
Lemma pdf_scaling_h_text_one_axis
  (cairo_text_extents : Q -> list byte -> cairo_text_extents_t)
  (cairo_font_extents : Q -> cairo_font_extents_t)
  (extents : cairo_text_extents_t) (fuel : nat) (utf8_text : list byte)
  (width height threshold : Q) (r : FitResult) :
  1 <= threshold ->
  pdf_scaling_h_text cairo_text_extents cairo_font_extents extents fuel
    utf8_text width height threshold = Returns (Some r) ->
  exists r0 : FitResult,
    pdf_scaling_h_text_loop cairo_text_extents cairo_font_extents extents fuel
      (u8_split_chars [] utf8_text) width height threshold 10 1 1
    = Returns (Some r0) /\
    fit_font_size r = fit_font_size r0 /\
    (fit_scale_x r = fit_scale_x r0 \/ fit_scale_y r = fit_scale_y r0).
Proof.
  intros HT Hret.
  destruct (pdf_scaling_h_text_returns _ _ _ _ _ _ _ _ _ Hret)
    as [r0 [Hloop [Hfs Hcorr]]].
  exists r0. repeat split; try assumption.
  revert Hcorr. unfold h_aspect_correction.
  destruct (h_width_over _ _ _ _ _ _) eqn:E1.
  - rewrite (h_tests_exclusive _ _ _ _ _ _ HT E1). intros [= _ ->]. now right.
  - intros [= -> _]. now left.
Qed.

Local Close Scope Q_scope.

(** In binary64 the second [if] is not an [else] of the first: whenever
    both tests hold, both scale factors are assigned. *)
Lemma h_aspect_correction_both
  (text_width text_height len scale_x scale_y threshold : float) :
  Binary64.h_width_over text_width text_height len scale_x scale_y threshold
  = true ->
  Binary64.h_height_over text_width text_height len
    (threshold * (text_height * scale_y) * len / text_width)%float
    scale_y threshold = true ->
  Binary64.h_aspect_correction text_width text_height len scale_x scale_y
    threshold
  = ((threshold * (text_height * scale_y) * len / text_width)%float,
     (threshold
      * (text_width
         * (threshold * (text_height * scale_y) * len / text_width) / len)
      / text_height)%float).
Proof.
  intros H1 H2. unfold Binary64.h_aspect_correction.
  rewrite H1. cbv zeta. rewrite H2. reflexivity.
Qed.

(** C6.  The two tests behind the loop of [pdf_scaling_h_text] are
    separate [if]s, and there is an input for which both fire in the same
    run, the arithmetic being that of binary64 doubles: the row "A" in a
    font whose glyphs are 1.7 em wide, a box 37 wide and 250 high and a
    threshold of 1.  The loop ends with the font size 21.4358881 and both
    factors 1; the cell is wider than it is high, so the first test fires
    and makes [scale_x] 0.676...; the quotient that the second test then
    computes is 1 in exact arithmetic and is rounded to a number above 1,
    so the second fires too and makes [scale_y] 0.99999999999999989.
    Both the factors handed back are below those of the end of the
    loop. *)
Theorem pdf_scaling_h_text_both_tests_fire :
  exists (utf8_text : list byte) (width height threshold : float)
    (r0 r : Binary64.FitResult),
    utf8_text <> [] /\
    (0 <? width)%float = true /\ (0 <? height)%float = true /\
    (1 <=? threshold)%float = true /\
    Binary64.pdf_scaling_h_text_loop Binary64.wide_text_extents
      Binary64.sample_font_extents Binary64.extents_nonzero 200
      (u8_split_chars [] utf8_text) width height threshold 10 1 1
    = Returns (Some r0) /\
    Binary64.pdf_scaling_h_text Binary64.wide_text_extents
      Binary64.sample_font_extents Binary64.extents_nonzero 200
      utf8_text width height threshold
    = Returns (Some r) /\
    Binary64.h_both_tests_fire Binary64.wide_text_extents
      Binary64.sample_font_extents utf8_text threshold r0 = true /\
    (Binary64.fit_scale_x r <? Binary64.fit_scale_x r0)%float = true /\
    (Binary64.fit_scale_y r <? Binary64.fit_scale_y r0)%float = true.
Proof.
  exists (bytes_of "A"), 37%float, 250%float, 1%float.
  do 2 eexists.
  split; [discriminate|].
  split; [reflexivity|]. split; [reflexivity|]. split; [reflexivity|].
  split; [vm_compute; reflexivity|].
  split; [vm_compute; reflexivity|].
  repeat split; vm_compute; reflexivity.
Qed.

(** Where the exact model and the code part.  A row that begins with a
    byte that is no lead byte has a character and a [u8_len] of 0; the
    first test divides by it, which in binary64 gives an infinity, so the
    test fires and sets [scale_x] to 0.  In [Q] that quotient is 0, the
    test does not fire and the factor stays as it is.  The statements on
    the exact model ask for [0 < N], which leaves such rows out. *)
Example pdf_scaling_h_text_no_lead_byte :
  (exists r : Binary64.FitResult,
     Binary64.pdf_scaling_h_text Binary64.wide_text_extents
       Binary64.sample_font_extents Binary64.extents_nonzero 200
       [x80] 100 100 1.5
     = Returns (Some r) /\
     (Binary64.fit_scale_x r =? 0)%float = true) /\
  (exists r : FitResult,
     pdf_scaling_h_text (fun font_size _ => scaled_glyph 1.7 0.7 1.7 font_size)
       sample_font_extents extents_nonzero 200 [x80] 100 100 1.5
     = Returns (Some r) /\
     (0 < fit_scale_x r)%Q).
Proof.
  split; eexists; (split; [vm_compute; reflexivity|]); reflexivity.
Qed.

Local Open Scope Q_scope.

(** ** The horizontal solver ends *)

Lemma Q_of_size_S (n : nat) : Q_of_size (S n) == Q_of_size n + 1.
Proof.
  unfold Q_of_size. rewrite Nat2Z.inj_succ, <- Z.add_1_r, inject_Z_plus.
  reflexivity.
Qed.

Lemma Q_of_size_nonneg (n : nat) : 0 <= Q_of_size n.
Proof.
  unfold Q_of_size, Qle. simpl. lia.
Qed.

(** Growing by a tenth [n] times reaches any bound. *)
Lemma tenths_unbounded (a b : Q) :
  0 < b -> exists n : nat, a <= b * (1 + Q_of_size n / 10).
Proof.
  intros Hb. exists (Z.to_nat (Qceiling (10 * a / b))).
  pose proof (Qle_ceiling (10 * a / b)) as Hc.
  assert (Hn : inject_Z (Qceiling (10 * a / b))
               <= Q_of_size (Z.to_nat (Qceiling (10 * a / b)))).
  { unfold Q_of_size. rewrite <- Zle_Qle. lia. }
  assert (Ha : 10 * a / b * b == 10 * a) by (field; lra).
  assert (Hm : 10 * a / b * b
               <= Q_of_size (Z.to_nat (Qceiling (10 * a / b))) * b).
  { apply Qmult_le_compat_r; lra. }
  rewrite Ha in Hm.
  set (X := Q_of_size (Z.to_nat (Qceiling (10 * a / b)))) in *.
  assert (E : b * (1 + X / 10) == b + X * b * (1 # 10)) by field.
  rewrite E. lra.
Qed.

Lemma tenths_step (c : Q) (n : nat) :
  0 <= c -> c * (1 + Q_of_size (S n) / 10) <= c * 1.1 * (1 + Q_of_size n / 10).
Proof.
  intros Hc. rewrite Q_of_size_S.
  pose proof (Q_of_size_nonneg n) as Hn.
  assert (0 <= c * Q_of_size n) by (apply Qmult_le_0_compat; assumption).
  assert (El : c * (1 + (Q_of_size n + 1) / 10)
               == c * (11 # 10) + c * Q_of_size n * (1 # 10)) by field.
  assert (Er : c * 1.1 * (1 + Q_of_size n / 10)
               == c * (11 # 10) + c * Q_of_size n * (11 # 100)) by field.
  rewrite El, Er. lra.
Qed.

Lemma tenths_zero (c : Q) : c * (1 + Q_of_size 0 / 10) == c.
Proof.
  unfold Q_of_size. simpl. field.
Qed.

Section HorizontalEnds.

Variable cairo_text_extents : Q -> list byte -> cairo_text_extents_t.
Variable cairo_font_extents : Q -> cairo_font_extents_t.
Variable extents : cairo_text_extents_t.
Variable chars : list (list byte).
Variables width height threshold : Q.

(** At every trial size the row has a positive width and height. *)
Hypothesis measures_positive :
  forall font_size : Q,
    10 <= font_size ->
    0 < fst (pdf_get_h_text_width_and_height cairo_text_extents
               cairo_font_extents font_size chars) /\
    0 < snd (pdf_get_h_text_width_and_height cairo_text_extents
               cairo_font_extents font_size chars).

(** One turn of the loop. *)
Lemma pdf_scaling_h_text_loop_step (fuel : nat)
  (font_size scale_x scale_y : Q) :
  pdf_scaling_h_text_loop cairo_text_extents cairo_font_extents extents
    (S fuel) chars width height threshold font_size scale_x scale_y =
  let (text_width, text_height) :=
    pdf_get_h_text_width_and_height cairo_text_extents cairo_font_extents
      font_size chars in
  if Qle_bool 10000 font_size
     || Qzero (te_width extents) || Qzero (te_height extents)
  then Returns None
  else if Qltb (text_width * scale_x) (width * 0.9)
          && Qltb (text_height * scale_y) (height * 0.9)
  then pdf_scaling_h_text_loop cairo_text_extents cairo_font_extents extents
         fuel chars width height threshold (font_size * 1.1) scale_x scale_y
  else if Qltb threshold 1.1
  then Returns (Some {| fit_font_size := font_size;
                        fit_scale_x := scale_x;
                        fit_scale_y := scale_y |})
  else if Qltb (text_width * scale_x) (width * 0.9)
  then pdf_scaling_h_text_loop cairo_text_extents cairo_font_extents extents
         fuel chars width height threshold font_size (scale_x * 1.1) scale_y
  else if Qltb (text_height * scale_y) (height * 0.9)
  then pdf_scaling_h_text_loop cairo_text_extents cairo_font_extents extents
         fuel chars width height threshold font_size scale_x (scale_y * 1.1)
  else Returns (Some {| fit_font_size := font_size;
                        fit_scale_x := scale_x;
                        fit_scale_y := scale_y |}).
Proof.
  reflexivity.
Qed.

(** Stretching [scale_x] ends once the row is wide enough. *)
Lemma pdf_scaling_h_text_loop_ends_x (font_size scale_y : Q) (n : nat) :
  10 <= font_size ->
  Qltb (snd (pdf_get_h_text_width_and_height cairo_text_extents
               cairo_font_extents font_size chars) * scale_y)
       (height * 0.9) = false ->
  forall scale_x : Q,
    0 < scale_x ->
    width * 0.9
    <= fst (pdf_get_h_text_width_and_height cairo_text_extents
              cairo_font_extents font_size chars)
       * scale_x * (1 + Q_of_size n / 10) ->
    exists x : option FitResult,
      pdf_scaling_h_text_loop cairo_text_extents cairo_font_extents extents
        (S n) chars width height threshold font_size scale_x scale_y
      = Returns x.
Proof.
  intros Hfs Hy.
  destruct (measures_positive font_size Hfs) as [HW _].
  induction n as [|n IH]; intros scale_x Hx Hreach;
    rewrite pdf_scaling_h_text_loop_step;
    destruct (pdf_get_h_text_width_and_height _ _ font_size chars)
      as [tw th]; cbn [fst snd] in *;
    (destruct (_ || _ || _); [eauto|]);
    rewrite Hy, andb_false_r;
    (destruct (Qltb threshold 1.1); [eauto|]);
    (destruct (Qltb (tw * scale_x) (width * 0.9)) eqn:Ex; [|eauto]);
    apply Qltb_lt in Ex.
  - exfalso. rewrite tenths_zero in Hreach. lra.
  - assert (Hc : 0 <= tw * scale_x)
      by (apply Qmult_le_0_compat; lra).
    pose proof (tenths_step (tw * scale_x) n Hc) as Hstep.
    apply IH; [lra|].
    assert (E : tw * (scale_x * 1.1) * (1 + Q_of_size n / 10)
                == tw * scale_x * 1.1 * (1 + Q_of_size n / 10)) by ring.
    rewrite E. exact (Qle_trans _ _ _ Hreach Hstep).
Qed.

(** Stretching [scale_y] ends once the row is high enough. *)
Lemma pdf_scaling_h_text_loop_ends_y (font_size scale_x : Q) (n : nat) :
  10 <= font_size ->
  Qltb (fst (pdf_get_h_text_width_and_height cairo_text_extents
               cairo_font_extents font_size chars) * scale_x)
       (width * 0.9) = false ->
  forall scale_y : Q,
    0 < scale_y ->
    height * 0.9
    <= snd (pdf_get_h_text_width_and_height cairo_text_extents
              cairo_font_extents font_size chars)
       * scale_y * (1 + Q_of_size n / 10) ->
    exists x : option FitResult,
      pdf_scaling_h_text_loop cairo_text_extents cairo_font_extents extents
        (S n) chars width height threshold font_size scale_x scale_y
      = Returns x.
Proof.
  intros Hfs Hx.
  destruct (measures_positive font_size Hfs) as [_ HH].
  induction n as [|n IH]; intros scale_y Hy Hreach;
    rewrite pdf_scaling_h_text_loop_step;
    destruct (pdf_get_h_text_width_and_height _ _ font_size chars)
      as [tw th]; cbn [fst snd] in *;
    (destruct (_ || _ || _); [eauto|]);
    rewrite Hx; cbn [andb];
    (destruct (Qltb threshold 1.1); [eauto|]);
    (destruct (Qltb (th * scale_y) (height * 0.9)) eqn:Ey; [|eauto]);
    apply Qltb_lt in Ey.
  - exfalso. rewrite tenths_zero in Hreach. lra.
  - assert (Hc : 0 <= th * scale_y)
      by (apply Qmult_le_0_compat; lra).
    pose proof (tenths_step (th * scale_y) n Hc) as Hstep.
    apply IH; [lra|].
    assert (E : th * (scale_y * 1.1) * (1 + Q_of_size n / 10)
                == th * scale_y * 1.1 * (1 + Q_of_size n / 10)) by ring.
    rewrite E. exact (Qle_trans _ _ _ Hreach Hstep).
Qed.

(** Once the font has stopped growing the loop ends. *)
Lemma pdf_scaling_h_text_loop_ends_settled (font_size scale_x scale_y : Q) :
  10 <= font_size -> 0 < scale_x -> 0 < scale_y ->
  h_grows cairo_text_extents cairo_font_extents chars width height
    font_size scale_x scale_y = false ->
  exists (fuel : nat) (x : option FitResult),
    pdf_scaling_h_text_loop cairo_text_extents cairo_font_extents extents
      fuel chars width height threshold font_size scale_x scale_y
    = Returns x.
Proof.
  intros Hfs Hx Hy Hg. unfold h_grows in Hg. cbv zeta in Hg.
  destruct (measures_positive font_size Hfs) as [HW HH].
  apply andb_false_iff in Hg. destruct Hg as [Hg|Hg].
  - destruct (tenths_unbounded (height * 0.9)
                (snd (pdf_get_h_text_width_and_height cairo_text_extents
                        cairo_font_extents font_size chars) * scale_y))
      as [n Hn]; [apply Qmult_lt_0_compat; assumption|].
    exists (S n). apply pdf_scaling_h_text_loop_ends_y; assumption.
  - destruct (tenths_unbounded (width * 0.9)
                (fst (pdf_get_h_text_width_and_height cairo_text_extents
                        cairo_font_extents font_size chars) * scale_x))
      as [n Hn]; [apply Qmult_lt_0_compat; assumption|].
    exists (S n). apply pdf_scaling_h_text_loop_ends_x; assumption.
Qed.

(** The font stops growing before it is 10000 points high. *)
Lemma pdf_scaling_h_text_loop_ends_growing (scale_x scale_y : Q) (n : nat) :
  0 < scale_x -> 0 < scale_y ->
  forall font_size : Q,
    10 <= font_size ->
    10000 <= font_size * (1 + Q_of_size n / 10) ->
    exists (fuel : nat) (x : option FitResult),
      pdf_scaling_h_text_loop cairo_text_extents cairo_font_extents extents
        fuel chars width height threshold font_size scale_x scale_y
      = Returns x.
Proof.
  intros Hx Hy.
  induction n as [|n IH]; intros font_size Hfs Hreach.
  - exists 1%nat. rewrite pdf_scaling_h_text_loop_step.
    destruct (pdf_get_h_text_width_and_height _ _ font_size chars)
      as [tw th].
    assert (E : Qle_bool 10000 font_size = true).
    { apply Qle_bool_iff. rewrite tenths_zero in Hreach. exact Hreach. }
    rewrite E. cbn [orb]. eauto.
  - destruct (h_grows cairo_text_extents cairo_font_extents chars width height
                font_size scale_x scale_y) eqn:Eg.
    + destruct (IH (font_size * 1.1)) as [fuel [x Hfuel]]; [lra | |].
      { assert (Hc : 0 <= font_size) by lra.
        exact (Qle_trans _ _ _ Hreach (tenths_step font_size n Hc)). }
      unfold h_grows in Eg. cbv zeta in Eg.
      destruct (Qle_bool 10000 font_size
                || Qzero (te_width extents) || Qzero (te_height extents))
        eqn:Eguard.
      * exists 1%nat. rewrite pdf_scaling_h_text_loop_step.
        destruct (pdf_get_h_text_width_and_height _ _ font_size chars)
          as [tw th].
        rewrite Eguard. eauto.
      * exists (S fuel), x. rewrite pdf_scaling_h_text_loop_step.
        destruct (pdf_get_h_text_width_and_height _ _ font_size chars)
          as [tw th]. cbn [fst snd] in Eg.
        rewrite Eguard, Eg. exact Hfuel.
    + apply pdf_scaling_h_text_loop_ends_settled; assumption.
Qed.

End HorizontalEnds.

(** For a row that has a positive width and height at every trial size,
    [pdf_scaling_h_text] returns, [true] or [false], when it is given
    enough fuel. *)
Lemma pdf_scaling_h_text_ends
  (cairo_text_extents : Q -> list byte -> cairo_text_extents_t)
  (cairo_font_extents : Q -> cairo_font_extents_t)
  (extents : cairo_text_extents_t) (utf8_text : list byte)
  (width height threshold : Q) :
  (forall font_size : Q,
     10 <= font_size ->
     0 < fst (pdf_get_h_text_width_and_height cairo_text_extents
                cairo_font_extents font_size (u8_split_chars [] utf8_text)) /\
     0 < snd (pdf_get_h_text_width_and_height cairo_text_extents
                cairo_font_extents font_size (u8_split_chars [] utf8_text))) ->
  exists (fuel : nat) (x : option FitResult),
    pdf_scaling_h_text cairo_text_extents cairo_font_extents extents fuel
      utf8_text width height threshold = Returns x.
Proof.
  intros Hpos.
  destruct (pdf_scaling_h_text_loop_ends_growing cairo_text_extents
              cairo_font_extents extents (u8_split_chars [] utf8_text)
              width height threshold Hpos 1 1 (Z.to_nat 9990)
              ltac:(lra) ltac:(lra) 10 ltac:(lra))
    as [fuel [x Hx]].
  { vm_compute. discriminate. }
  exists fuel. unfold pdf_scaling_h_text. cbv zeta.
  destruct (is_empty utf8_text); [eauto|].
  rewrite Hx. destruct x as [r|]; [|eauto].
  destruct (pdf_get_h_text_width_and_height _ _ _ _) as [tw th].
  destruct (h_aspect_correction _ _ _ _ _ _) as [sx sy]. eauto.
Qed.

(** ** The test of the unassigned [extents] *)

(** With a zero in the unassigned [extents] the solver gives up in the
    first turn of its loop, whatever the row and the font are. *)
Lemma pdf_scaling_h_text_zero_extents
  (cairo_text_extents : Q -> list byte -> cairo_text_extents_t)
  (cairo_font_extents : Q -> cairo_font_extents_t)
  (extents : cairo_text_extents_t) (fuel : nat) (utf8_text : list byte)
  (width height threshold : Q) :
  te_width extents == 0 \/ te_height extents == 0 ->
  pdf_scaling_h_text cairo_text_extents cairo_font_extents extents (S fuel)
    utf8_text width height threshold = Returns None.
Proof.
  intros Hz. unfold pdf_scaling_h_text.
  destruct (is_empty utf8_text); [reflexivity|].
  cbn [pdf_scaling_h_text_loop].
  destruct (pdf_get_h_text_width_and_height _ _ 10 _) as [tw th].
  assert (E : Qzero (te_width extents) || Qzero (te_height extents) = true).
  { unfold Qzero. apply orb_true_iff.
    destruct Hz as [Hz|Hz]; [left | right]; now apply Qeq_bool_iff. }
  rewrite <- orb_assoc, E, orb_true_r. reflexivity.
Qed.

(** C3 fails on the code.  A blank has no ink at any font size, and the
    row of one blank is fitted when the unassigned [extents] holds no zero;
    the letter A has a positive box and advance at the first trial size 10,
    and the row of one A is refused in the first turn when the unassigned
    [extents] holds a zero. *)
Theorem pdf_scaling_h_text_tests_unassigned_extents :
  (forall font_size : Q,
     te_width (sample_text_extents font_size (bytes_of " ")) == 0 /\
     te_height (sample_text_extents font_size (bytes_of " ")) == 0) /\
  (exists r : FitResult,
     pdf_scaling_h_text sample_text_extents sample_font_extents
       extents_nonzero 200 (bytes_of " ") 100 100 1.5 = Returns (Some r)) /\
  0 < te_width (sample_text_extents 10 (bytes_of "A")) /\
  0 < te_height (sample_text_extents 10 (bytes_of "A")) /\
  0 < te_x_advance (sample_text_extents 10 (bytes_of "A")) /\
  pdf_scaling_h_text sample_text_extents sample_font_extents
    extents_zero 200 (bytes_of "A") 100 100 1.5 = Returns None.
Proof.
  split; [intros font_size; cbn; split; ring|].
  split; [eexists; vm_compute; reflexivity|].
  repeat split; vm_compute; reflexivity.
Qed.

(** ** The loop of [pdf_draw_v_text] *)

Section VerticalFuel.

Variable cairo_text_extents : Q -> list byte -> cairo_text_extents_t.

(** More fuel does not change what the loop of the vertical solver
    returns. *)
Lemma pdf_scaling_v_text_loop_fuel (chars : list (list byte))
  (width height threshold : Q) (x : option FitResult) (fuel : nat) :
  forall (fuel' : nat) (font_size scale_x scale_y : Q),
    (fuel <= fuel')%nat ->
    pdf_scaling_v_text_loop cairo_text_extents fuel chars width height
      threshold font_size scale_x scale_y = Returns x ->
    pdf_scaling_v_text_loop cairo_text_extents fuel' chars width height
      threshold font_size scale_x scale_y = Returns x.
Proof.
  induction fuel as [|fuel IH]; intros fuel' font_size scale_x scale_y Hle;
    [discriminate|].
  destruct fuel' as [|fuel']; [lia|].
  cbn [pdf_scaling_v_text_loop].
  destruct (pdf_get_v_text_width_and_height _ _ _) as [tw th].
  destruct (_ || _ || _); [auto|].
  destruct (_ && _); [apply IH; lia|].
  destruct (Qltb threshold 1.1); [auto|].
  destruct (Qltb (tw * scale_x) _); [apply IH; lia|].
  destruct (Qltb (th * scale_y) _); [apply IH; lia|].
  auto.
Qed.

(** Two runs of the vertical solver that return, return the same. *)
Lemma pdf_scaling_v_text_same (utf8_text : list byte)
  (width height threshold : Q) (fuel fuel' : nat) (x x' : option FitResult) :
  pdf_scaling_v_text cairo_text_extents fuel utf8_text width height threshold
  = Returns x ->
  pdf_scaling_v_text cairo_text_extents fuel' utf8_text width height threshold
  = Returns x' ->
  x = x'.
Proof.
  unfold pdf_scaling_v_text.
  destruct (is_empty utf8_text); [congruence|].
  destruct (pdf_scaling_v_text_loop _ fuel _ _ _ _ _ _ _) as [y|] eqn:E;
    [|discriminate].
  destruct (pdf_scaling_v_text_loop _ fuel' _ _ _ _ _ _ _) as [y'|] eqn:E';
    [|discriminate].
  assert (y = y').
  { destruct (Nat.le_ge_cases fuel fuel') as [Hle|Hle].
    - apply (pdf_scaling_v_text_loop_fuel _ _ _ _ _ _ _ _ _ _ Hle) in E.
      congruence.
    - apply (pdf_scaling_v_text_loop_fuel _ _ _ _ _ _ _ _ _ _ Hle) in E'.
      congruence. }
  subst y'. destruct y as [r|]; congruence.
Qed.

(** When even an empty column would leave gaps below a fifth of the font
    size, shrinking the scale factors never lifts the gap to it: the loop
    uses up any fuel. *)
Lemma pdf_draw_v_text_loop_never_ends (chars : list (list byte))
  (height font_size : Q) :
  0 <= snd (pdf_get_v_text_width_and_height cairo_text_extents font_size chars) ->
  height / (Q_of_size (length chars) + 1) < font_size / 5 ->
  forall (fuel : nat) (scale_x scale_y each_blank_height : Q),
    0 <= scale_y ->
    each_blank_height < font_size / 5 ->
    pdf_draw_v_text_loop cairo_text_extents fuel chars height font_size
      scale_x scale_y each_blank_height = OutOfFuel.
Proof.
  intros Hth Hroom.
  assert (Hn : 0 < Q_of_size (length chars) + 1).
  { unfold Q_of_size, Qlt, Qplus. simpl. lia. }
  induction fuel as [|fuel IH]; intros scale_x scale_y each_blank_height Hy Hgap;
    [reflexivity|].
  cbn [pdf_draw_v_text_loop].
  apply Qltb_lt in Hgap. rewrite Hgap.
  destruct (pdf_get_v_text_width_and_height _ _ _) as [tw th].
  cbn [snd] in Hth.
  apply IH; [lra|].
  apply Qle_lt_trans with (height / (Q_of_size (length chars) + 1));
    [|exact Hroom].
  apply Qle_shift_div_l; [exact Hn|].
  assert (E : (height - th * (scale_y * 0.95)) / (Q_of_size (length chars) + 1)
              * (Q_of_size (length chars) + 1)
              == height - th * (scale_y * 0.95)) by (field; lra).
  rewrite E. nra.
Qed.

Lemma pdf_draw_v_text_gaps_never_ends (chars : list (list byte))
  (height : Q) (r : FitResult) :
  0 <= snd (pdf_get_v_text_width_and_height cairo_text_extents
              (fit_font_size r) chars) ->
  0 <= fit_scale_y r ->
  height / (Q_of_size (length chars) + 1) < fit_font_size r / 5 ->
  forall fuel : nat,
    pdf_draw_v_text_gaps cairo_text_extents fuel chars height r = OutOfFuel.
Proof.
  intros Hth Hy Hroom fuel. unfold pdf_draw_v_text_gaps.
  pose proof (pdf_draw_v_text_loop_never_ends chars height (fit_font_size r)
                Hth Hroom fuel) as Hloop.
  destruct (pdf_get_v_text_width_and_height _ _ _) as [tw th].
  cbn [snd] in Hth.
  apply Hloop; [exact Hy|].
  assert (Hn : 0 < Q_of_size (length chars) + 1).
  { unfold Q_of_size, Qlt, Qplus. simpl. lia. }
  apply Qle_lt_trans with (height / (Q_of_size (length chars) + 1));
    [|exact Hroom].
  apply Qle_shift_div_l; [exact Hn|].
  assert (E : (height - th * fit_scale_y r) / (Q_of_size (length chars) + 1)
              * (Q_of_size (length chars) + 1)
              == height - th * fit_scale_y r) by (field; lra).
  rewrite E. nra.
Qed.

End VerticalFuel.

(** A column that has been fitted with a font size of which a fifth is
    more than the gaps of an empty column is never drawn:
    [pdf_draw_v_text] uses up any fuel. *)
Lemma pdf_draw_v_text_never_ends
  (cairo_text_extents : Q -> list byte -> cairo_text_extents_t)
  (font_is_cjk : bool) (u8_locale_map_text : list byte -> list byte)
  (text : list byte) (width height threshold : Q) (fuel0 : nat)
  (r0 : FitResult) :
  let mapped_text := if font_is_cjk then u8_locale_map_text text else text in
  let chars := u8_split_chars [] (c_str mapped_text) in
  text <> [] ->
  pdf_scaling_v_text cairo_text_extents fuel0 (c_str mapped_text)
    width height threshold = Returns (Some r0) ->
  0 <= snd (pdf_get_v_text_width_and_height cairo_text_extents
              (fit_font_size r0) chars) ->
  0 <= fit_scale_y r0 ->
  height / (Q_of_size (length chars) + 1) < fit_font_size r0 / 5 ->
  forall fuel : nat,
    pdf_draw_v_text cairo_text_extents font_is_cjk u8_locale_map_text fuel
      text width height threshold = OutOfFuel.
Proof.
  cbv zeta. intros Htext Hfit Hth Hy Hroom fuel. unfold pdf_draw_v_text.
  destruct text as [|ch text]; [congruence|]. cbn [is_empty].
  destruct (pdf_scaling_v_text cairo_text_extents fuel _ width height threshold)
    as [[r|]|] eqn:E; [| |reflexivity].
  - assert (Some r = Some r0)
      by exact (pdf_scaling_v_text_same _ _ _ _ _ _ _ _ _ E Hfit).
    replace r with r0 by congruence.
    rewrite pdf_draw_v_text_gaps_never_ends; [reflexivity | | | ]; assumption.
  - pose proof (pdf_scaling_v_text_same _ _ _ _ _ _ _ _ _ E Hfit).
    discriminate.
Qed.

(** C4 fails on the code.  For a column of one full stop in a box of 100
    by 100 the fit succeeds, with a font size of which a fifth is more than
    the half of the height that two gaps can have at most, and the loop
    begun behind the fit never ends: [pdf_draw_v_text] uses up any fuel. *)
Theorem pdf_draw_v_text_full_stop_never_ends :
  (exists r : FitResult,
     pdf_scaling_v_text sample_text_extents 200 (bytes_of ".") 100 100 1.5
     = Returns (Some r) /\
     100 / (Q_of_size 1 + 1) < fit_font_size r / 5) /\
  forall fuel : nat,
    pdf_draw_v_text sample_text_extents false (fun text => text) fuel
      (bytes_of ".") 100 100 1.5 = OutOfFuel.
Proof.
  evar (r0 : FitResult).
  assert (H200 : pdf_scaling_v_text sample_text_extents 200 (bytes_of ".")
                   100 100 1.5 = Returns (Some r0))
    by (subst r0; vm_compute; reflexivity).
  assert (Hroom : 100 / (Q_of_size 1 + 1) < fit_font_size r0 / 5)
    by (subst r0; vm_compute; reflexivity).
  split; [exists r0; split; assumption|].
  apply (pdf_draw_v_text_never_ends sample_text_extents false
           (fun text => text) (bytes_of ".") 100 100 1.5 200 r0).
  - discriminate.
  - exact H200.
  - subst r0. vm_compute. discriminate.
  - subst r0. vm_compute. discriminate.
  - exact Hroom.
Qed.

(** The same on a page: a column of three full stops that has the
    printable area of an A4 sheet laid on its side to itself, 796 by 550
    points, is fitted and then never drawn. *)
Lemma pdf_draw_v_text_full_stops_a4_never_ends :
  (exists r : FitResult,
     pdf_scaling_v_text sample_text_extents 200 (bytes_of "...") 796 550 1.5
     = Returns (Some r)) /\
  forall fuel : nat,
    pdf_draw_v_text sample_text_extents false (fun text => text) fuel
      (bytes_of "...") 796 550 1.5 = OutOfFuel.
Proof.
  evar (r0 : FitResult).
  assert (H200 : pdf_scaling_v_text sample_text_extents 200 (bytes_of "...")
                   796 550 1.5 = Returns (Some r0))
    by (subst r0; vm_compute; reflexivity).
  split; [exists r0; assumption|].
  apply (pdf_draw_v_text_never_ends sample_text_extents false
           (fun text => text) (bytes_of "...") 796 550 1.5 200 r0).
  - discriminate.
  - exact H200.
  - subst r0. vm_compute. discriminate.
  - subst r0. vm_compute. discriminate.
  - subst r0. vm_compute. reflexivity.
Qed.

(** On a column of two letters in the same box the loop does end, with gaps
    of a fifth of the font size at least. *)
Lemma pdf_draw_v_text_letters_returns :
  exists (r : FitResult) (l : v_layout),
    pdf_scaling_v_text sample_text_extents 200 (bytes_of "AB") 100 100 1.5
    = Returns (Some r) /\
    pdf_draw_v_text sample_text_extents false (fun text => text) 200
      (bytes_of "AB") 100 100 1.5 = Returns (Some l) /\
    fit_font_size r / 5 <= v_each_blank_height l.
Proof.
  do 2 eexists. split; [|split].
  - vm_compute. reflexivity.
  - vm_compute. reflexivity.
  - vm_compute. discriminate.
Qed.

(* ================================================================== *)
(** * Part III: further properties *)
(* ================================================================== *)

Local Close Scope Q_scope.

(** ** The shape of the characters *)

Lemma Forall_app_one {A : Type} (P : A -> Prop) (l : list A) (x : A) :
  Forall P l -> P x -> Forall P (l ++ [x]).
Proof.
  intros Hl Hx. apply Forall_app. split; [assumption | now constructor].
Qed.

Lemma forallb_app_one {A : Type} (f : A -> bool) (l : list A) (x : A) :
  forallb f l = true -> f x = true -> forallb f (l ++ [x]) = true.
Proof.
  intros Hl Hx. rewrite forallb_app, Hl. simpl. now rewrite Hx.
Qed.

(** While [u8_split_chars] scans, the character being collected has no
    lead byte behind its first byte, and neither has any character
    stored. *)
Lemma u8_split_chars_loop_one_code_point (str : list byte) :
  forall (s : list byte) (chars : list (list byte)),
    Forall one_code_point chars ->
    s = [] \/ one_code_point s ->
    Forall one_code_point (u8_split_chars_loop str s chars).
Proof.
  induction str as [|pch str IH]; intros s chars Hchars Hs; simpl.
  - destruct s as [|b t]; simpl; [assumption|].
    destruct Hs as [Hs|Hs]; [discriminate|].
    now apply Forall_app_one.
  - destruct s as [|b t]; simpl.
    + rewrite andb_false_r. apply IH; [assumption|]. right. reflexivity.
    + destruct Hs as [Hs|Hs]; [discriminate|].
      destruct (u8_is_lead pch) eqn:E; simpl.
      * apply IH; [now apply Forall_app_one | right; reflexivity].
      * apply IH; [assumption|]. right. simpl.
        apply forallb_app_one; [exact Hs | now rewrite E].
Qed.

(** Every character stored behind the first begins with a lead byte. *)
Lemma u8_split_chars_loop_starts_with_lead (str : list byte) :
  forall (s : list byte) (chars : list (list byte)),
    Forall starts_with_lead (tl (chars ++ [s])) ->
    Forall starts_with_lead (tl (u8_split_chars_loop str s chars)).
Proof.
  induction str as [|pch str IH]; intros s chars H; simpl.
  - destruct s as [|b t]; simpl; [|assumption].
    destruct chars as [|c chars]; simpl in *; [constructor|].
    apply Forall_app in H. tauto.
  - destruct s as [|b t]; simpl.
    + rewrite andb_false_r. apply IH.
      destruct chars as [|c chars]; simpl in *; [constructor|].
      apply Forall_app in H. destruct H as [H1 H2].
      inversion H2 as [|? ? Hbad _]. contradiction.
    + destruct (u8_is_lead pch) eqn:E; simpl.
      * apply IH.
        destruct chars as [|c chars]; simpl in *.
        -- constructor; [exact E | constructor].
        -- apply Forall_app_one; [assumption | exact E].
      * apply IH.
        destruct chars as [|c chars]; simpl in *; [constructor|].
        apply Forall_app in H. destruct H as [H1 H2].
        apply Forall_app_one; [assumption|].
        inversion H2 as [|? ? Hb _]. exact Hb.
Qed.

(** The characters of any text: each is one byte with no lead byte behind
    it, and each but the first begins with a lead byte.  So no character
    holds two code points, and only a text that begins inside a code point
    gives a character, its first, that begins with a trailing byte. *)
Theorem u8_split_chars_shape (str : list byte) :
  Forall one_code_point (u8_split_chars [] str) /\
  Forall starts_with_lead (tl (u8_split_chars [] str)).
Proof.
  unfold u8_split_chars. split.
  - apply u8_split_chars_loop_one_code_point; [constructor | now left].
  - apply u8_split_chars_loop_starts_with_lead. constructor.
Qed.

Lemma u8_len_split_chars_witness :
  u8_len (bytes_of "abあいう漢字")
  = length (u8_split_chars [] (bytes_of "abあいう漢字")).
Proof.
  apply (u8_len_split_chars (bytes_of "abあいう漢字")). reflexivity.
Defined.

(** ** Escaped and plain text *)

(** What [mstr_escape] returns holds no raw tab, line feed, carriage
    return or form feed: every one of them has become a backslash and a
    letter. *)
Theorem mstr_escape_no_control (text : list byte) :
  forallb (fun ch => negb (is_control ch)) (mstr_escape text) = true.
Proof.
  unfold mstr_escape. rewrite mstr_escape_loop_app. simpl.
  induction text as [|ch text IH]; [reflexivity|].
  change (flat_map escape_unit (ch :: text))
    with (escape_unit ch ++ flat_map escape_unit text).
  rewrite forallb_app, IH, andb_true_r.
  destruct ch; reflexivity.
Qed.

Lemma mstr_unescape_loop_plain (text : list byte) :
  forallb (fun ch => negb (Byte.eqb ch x5c)) text = true ->
  forall ret : list byte,
    mstr_unescape_loop text false ret = ret ++ text.
Proof.
  induction text as [|ch text IH]; intros Hplain ret; simpl.
  - now rewrite app_nil_r.
  - simpl in Hplain. apply andb_prop in Hplain. destruct Hplain as [Hch Ht].
    apply negb_true_iff in Hch. rewrite Hch.
    rewrite IH by assumption. now rewrite <- app_assoc.
Qed.

(** A text without a backslash is left as it is by [mstr_unescape]. *)
Theorem mstr_unescape_plain (text : list byte) :
  forallb (fun ch => negb (Byte.eqb ch x5c)) text = true ->
  mstr_unescape text = text.
Proof.
  intros Hplain. unfold mstr_unescape.
  now rewrite mstr_unescape_loop_plain.
Qed.

Lemma mstr_unescape_plain_witness :
  mstr_unescape (bytes_of "This is a test.") = bytes_of "This is a test.".
Proof.
  apply (mstr_unescape_plain (bytes_of "This is a test.")). reflexivity.
Defined.

Lemma mstr_unescape_loop_length (text : list byte) :
  forall (escaping : bool) (ret : list byte),
    length (mstr_unescape_loop text escaping ret) <= length ret + length text.
Proof.
  induction text as [|ch text IH]; intros escaping ret; simpl; [lia|].
  destruct escaping.
  - destruct ch;
      match goal with
      | |- length (mstr_unescape_loop _ _ ?r) <= _ =>
          specialize (IH false r); rewrite length_app in IH; simpl in IH; lia
      end.
  - destruct (Byte.eqb ch x5c).
    + destruct text as [|ch' text']; simpl.
      * rewrite length_app. simpl. lia.
      * specialize (IH true ret). simpl in IH. lia.
    + specialize (IH false (ret ++ [ch])).
      rewrite length_app in IH. simpl in IH. lia.
Qed.

(** [mstr_unescape] never makes a text longer, and [mstr_escape] at most
    doubles it. *)
Theorem mstr_unescape_escape_lengths (text : list byte) :
  length (mstr_unescape text) <= length text /\
  length text <= length (mstr_escape text) <= 2 * length text.
Proof.
  split.
  - unfold mstr_unescape.
    pose proof (mstr_unescape_loop_length text false []) as H. simpl in H. lia.
  - unfold mstr_escape. rewrite mstr_escape_loop_app. simpl.
    induction text as [|ch text IH]; [simpl; lia|].
    change (flat_map escape_unit (ch :: text))
      with (escape_unit ch ++ flat_map escape_unit text).
    rewrite length_app.
    assert (1 <= length (escape_unit ch) <= 2) by (destruct ch; simpl; lia).
    cbn [length]. lia.
Qed.

(** ** Replacing one byte *)

Lemma byte_eqb_refl (x : byte) : Byte.eqb x x = true.
Proof.
  now apply Byte.byte_dec_lb.
Qed.

Lemma byte_eqb_sym (x y : byte) : Byte.eqb x y = Byte.eqb y x.
Proof.
  destruct (Byte.eqb x y) eqn:E.
  - apply Byte.byte_dec_bl in E. subst y. symmetry. apply byte_eqb_refl.
  - destruct (Byte.eqb y x) eqn:E'; [|reflexivity].
    apply Byte.byte_dec_bl in E'. subst y.
    rewrite byte_eqb_refl in E. discriminate.
Qed.

Lemma find_app_done (from done rest : list byte) :
  find from (done ++ rest) (length done)
  = option_map (fun j => length done + j) (find from rest 0).
Proof.
  induction done as [|d done IH]; simpl.
  - destruct (find from rest 0); reflexivity.
  - rewrite IH. destruct (find from rest 0); reflexivity.
Qed.

(** The first occurrence of the byte [c], if there is one, and what the
    substitution makes of the text around it. *)
Lemma find_byte_cases (c : byte) (to rest : list byte) :
  (find [c] rest 0 = None /\ substitute c to rest = rest) \/
  (exists pre post : list byte,
     rest = pre ++ c :: post /\
     find [c] rest 0 = Some (length pre) /\
     substitute c to rest = pre ++ to ++ substitute c to post).
Proof.
  induction rest as [|x rest IH].
  - left. split; reflexivity.
  - cbn [find starts_with]. unfold substitute. cbn [flat_map].
    fold (substitute c to rest).
    rewrite andb_true_r, (byte_eqb_sym c x).
    destruct (Byte.eqb x c) eqn:E.
    + right. exists [], rest. apply Byte.byte_dec_bl in E. subst x.
      repeat split.
    + destruct IH as [[Hf Hs]|[pre [post [Hr [Hf Hs]]]]].
      * left. rewrite Hf, Hs. split; reflexivity.
      * right. exists (x :: pre), post. subst rest. rewrite Hf, Hs.
        repeat split.
Qed.

(** From any position on, the loop of [mstr_replace_all] for a pattern of
    one byte substitutes bytewise. *)
Lemma mstr_replace_all_loop_byte (c : byte) (to : list byte) (fuel : nat) :
  forall done rest : list byte,
    length rest < fuel ->
    mstr_replace_all_loop fuel (done ++ rest) [c] to (length done)
    = Some (done ++ substitute c to rest).
Proof.
  induction fuel as [|fuel IH]; intros done rest Hlt; [lia|].
  cbn [mstr_replace_all_loop]. rewrite find_app_done.
  destruct (find_byte_cases c to rest)
    as [[Hf Hs]|[pre [post [Hr [Hf Hs]]]]]; rewrite Hf, Hs; cbn [option_map].
  - reflexivity.
  - subst rest. cbn [length].
    replace (firstn (length done + length pre) (done ++ pre ++ c :: post))
      with (done ++ pre).
    2:{ rewrite app_assoc, <- length_app, firstn_app, Nat.sub_diag.
        rewrite firstn_all. simpl. now rewrite app_nil_r. }
    replace (skipn (length done + length pre + 1) (done ++ pre ++ c :: post))
      with post.
    2:{ rewrite app_assoc, <- length_app, skipn_app.
        rewrite skipn_all2 by lia.
        replace (length (done ++ pre) + 1 - length (done ++ pre)) with 1 by lia.
        reflexivity. }
    replace (length done + length pre + length to)
      with (length ((done ++ pre) ++ to))
      by (rewrite !length_app; lia).
    rewrite app_assoc.
    rewrite IH by (rewrite length_app in Hlt; simpl in Hlt; lia).
    now rewrite <- !app_assoc.
Qed.

(** [mstr_replace_all] for a pattern of one byte returns, and what it
    returns is the text with [to] in the place of every such byte: what has
    been put in is not searched again, even when [to] holds the byte. *)
Lemma mstr_replace_all_byte (str : list byte) (c : byte) (to : list byte) :
  mstr_replace_all str [c] to = Some (substitute c to str).
Proof.
  unfold mstr_replace_all.
  apply (mstr_replace_all_loop_byte c to (S (length str)) [] str). lia.
Qed.

(** ** Replacing a pattern *)

Lemma starts_with_app (from s : list byte) :
  starts_with from s = true -> s = from ++ skipn (length from) s.
Proof.
  revert s. induction from as [|a from IH]; intros s H; [reflexivity|].
  destruct s as [|b s]; [discriminate|].
  cbn [starts_with] in H. apply andb_true_iff in H. destruct H as [E H].
  apply Byte.byte_dec_bl in E. subst b.
  cbn [length skipn app]. f_equal. now apply IH.
Qed.

Lemma subst_all_skip (from to l post : list byte) :
  subst_all from to (l ++ post) (length l) = subst_all from to post 0.
Proof.
  induction l as [|x l IH]; [reflexivity|exact IH].
Qed.

Lemma find_cases (from to rest : list byte) :
  from <> [] ->
  (find from rest 0 = None /\ subst_all from to rest 0 = rest) \/
  (exists pre post : list byte,
     rest = pre ++ from ++ post /\
     find from rest 0 = Some (length pre) /\
     subst_all from to rest 0 = pre ++ to ++ subst_all from to post 0).
Proof.
  intros Hfrom. induction rest as [|x rest IH].
  - left. destruct from; [congruence|]. split; reflexivity.
  - cbn [find subst_all].
    destruct (starts_with from (x :: rest)) eqn:E.
    + right. exists [], (skipn (length from) (x :: rest)).
      apply starts_with_app in E.
      split; [exact E|]. split; [reflexivity|].
      cbn [app]. f_equal.
      destruct from as [|a from]; [congruence|].
      cbn [length skipn app] in E |- *. injection E as _ E.
      replace (S (length from) - 1) with (length from) by lia.
      rewrite E at 1. apply subst_all_skip.
    + destruct IH as [[Hf Hs]|[pre [post [Hr [Hf Hs]]]]].
      * left. rewrite Hf, Hs. split; reflexivity.
      * right. exists (x :: pre), post. rewrite Hf, Hs. subst rest.
        repeat split.
Qed.

(** From any position on, the loop of [mstr_replace_all] goes through the
    rest of the text once. *)
Lemma mstr_replace_all_loop_subst_all (from to : list byte) (fuel : nat) :
  from <> [] ->
  forall done rest : list byte,
    length rest < fuel ->
    mstr_replace_all_loop fuel (done ++ rest) from to (length done)
    = Some (done ++ subst_all from to rest 0).
Proof.
  intros Hfrom.
  induction fuel as [|fuel IH]; intros done rest Hlt; [lia|].
  cbn [mstr_replace_all_loop]. rewrite find_app_done.
  destruct (find_cases from to rest Hfrom)
    as [[Hf Hs]|[pre [post [Hr [Hf Hs]]]]]; rewrite Hf, Hs; cbn [option_map].
  - reflexivity.
  - subst rest.
    replace (firstn (length done + length pre) (done ++ pre ++ from ++ post))
      with (done ++ pre).
    2:{ rewrite app_assoc, <- length_app, firstn_app, Nat.sub_diag.
        rewrite firstn_all. simpl. now rewrite app_nil_r. }
    replace (skipn (length done + length pre + length from)
               (done ++ pre ++ from ++ post))
      with post.
    2:{ rewrite !app_assoc, <- !length_app, skipn_app.
        rewrite skipn_all, Nat.sub_diag. reflexivity. }
    replace (length done + length pre + length to)
      with (length ((done ++ pre) ++ to))
      by (rewrite !length_app; lia).
    rewrite app_assoc.
    assert (0 < length from) by (destruct from; [congruence | simpl; lia]).
    rewrite IH by (rewrite !length_app in Hlt; lia).
    now rewrite <- !app_assoc.
Qed.

Lemma mstr_replace_all_loop_from_start (fuel : nat) (str from to : list byte) :
  from <> [] -> length str < fuel ->
  mstr_replace_all_loop fuel str from to 0 = Some (subst_all from to str 0).
Proof.
  intros Hfrom Hlt.
  exact (mstr_replace_all_loop_subst_all from to fuel Hfrom [] str Hlt).
Qed.

Lemma mstr_replace_all_subst (str from to : list byte) :
  from <> [] -> mstr_replace_all str from to = Some (subst_all from to str 0).
Proof.
  intros Hfrom. apply mstr_replace_all_loop_from_start; [assumption | lia].
Qed.

(** [mstr_replace_all] with a pattern that is not empty returns, whatever
    the text and the replacement, and what it leaves in [str] is the text
    gone through once from left to right with [to] in the place of each
    occurrence of [from] met on the way: neither what was put in nor the
    bytes of an occurrence are looked at again.  (The [bool] returned by
    the source is not part of the model.) *)
Theorem mstr_replace_all_one_pass (str from to : list byte) :
  from <> [] ->
  forall fuel : nat,
    length str < fuel ->
    mstr_replace_all_loop fuel str from to 0
    = Some (subst_all from to str 0) /\
    mstr_replace_all str from to = Some (subst_all from to str 0).
Proof.
  intros Hfrom fuel Hlt. split.
  - now apply mstr_replace_all_loop_from_start.
  - apply mstr_replace_all_loop_from_start; [assumption | lia].
Qed.

Lemma mstr_replace_all_one_pass_witness :
  mstr_replace_all (bytes_of "aaa") (bytes_of "aa") (bytes_of "a")
  = Some (bytes_of "aa").
Proof.
  refine (proj2 (mstr_replace_all_one_pass
                   (bytes_of "aaa") (bytes_of "aa") (bytes_of "a") _ 4 _)).
  - discriminate.
  - simpl. lia.
Defined.

Lemma find_empty (str : list byte) :
  forall i : nat, i <= length str -> find [] str i = Some i.
Proof.
  induction str as [|x str IH]; intros [|i] Hi; simpl in *; try reflexivity.
  - lia.
  - rewrite IH by lia. reflexivity.
Qed.

(** With an empty pattern [str.find] succeeds at every position up to the
    end, so the loop of [mstr_replace_all] never leaves: with an empty
    replacement it stays where it is, and otherwise the text grows without
    end.  No number of turns is enough. *)
Theorem mstr_replace_all_empty_pattern_never_ends (str to : list byte) :
  forall fuel : nat, mstr_replace_all_loop fuel str [] to 0 = None.
Proof.
  intros fuel.
  assert (H : forall fuel s i, i <= length s ->
              mstr_replace_all_loop fuel s [] to i = None).
  { clear. induction fuel as [|fuel IH]; intros s i Hi; [reflexivity|].
    cbn [mstr_replace_all_loop]. rewrite find_empty by assumption.
    apply IH. rewrite !length_app, length_firstn, length_skipn.
    cbn [length]. lia. }
  apply H. lia.
Qed.

(** ** Deleting the spaces *)

Lemma subst_all_byte (c : byte) (to str : list byte) :
  subst_all [c] to str 0 = substitute c to str.
Proof.
  induction str as [|x str IH]; [reflexivity|].
  cbn [subst_all starts_with length]. unfold substitute. cbn [flat_map].
  fold (substitute c to str).
  change (1 - 1) with 0.
  rewrite andb_true_r, (byte_eqb_sym c x), IH.
  destruct (Byte.eqb x c); reflexivity.
Qed.

Lemma substitute_nil_filter (c : byte) (str : list byte) :
  substitute c [] str = filter (fun x => negb (Byte.eqb x c)) str.
Proof.
  induction str as [|x str IH]; [reflexivity|].
  unfold substitute in *. cbn [flat_map filter]. rewrite IH.
  destruct (Byte.eqb x c); reflexivity.
Qed.

Lemma subst_all_nil_in (from str : list byte) (x : byte) :
  forall skip : nat, In x (subst_all from [] str skip) -> In x str.
Proof.
  induction str as [|y str IH]; intros skip H; [exact H|].
  cbn [subst_all] in H. destruct skip as [|skip].
  - destruct (starts_with from (y :: str)).
    + right. exact (IH _ H).
    + destruct H as [H|H]; [now left | right; exact (IH _ H)].
  - right. exact (IH _ H).
Qed.

Lemma subst_all_absent (from to str : list byte) (a : byte) (from' : list byte) :
  from = a :: from' -> ~ In a str -> subst_all from to str 0 = str.
Proof.
  intros -> Ha. induction str as [|x str IH]; [reflexivity|].
  cbn [subst_all starts_with].
  destruct (Byte.eqb a x) eqn:E.
  - apply Byte.byte_dec_bl in E. subst x. exfalso. apply Ha. now left.
  - cbn [andb]. f_equal. apply IH. intros H. apply Ha. now right.
Qed.

Lemma filter_blanks (str : list byte) :
  filter (fun x => negb (Byte.eqb x x0a))
    (filter (fun x => negb (Byte.eqb x x0d))
       (filter (fun x => negb (Byte.eqb x x09))
          (filter (fun x => negb (Byte.eqb x x20)) str)))
  = filter (fun x => negb (is_blank x)) str.
Proof.
  induction str as [|x str IH]; [reflexivity|].
  cbn [filter]. rewrite <- IH. destruct x; reflexivity.
Qed.

Lemma delete_spaces_subst_all (utf8_text : list byte) :
  delete_spaces utf8_text
  = Some (subst_all (bytes_of "　") []
            (filter (fun x => negb (is_blank x)) utf8_text) 0).
Proof.
  unfold delete_spaces.
  change (bytes_of " ") with [x20].
  rewrite !mstr_replace_all_byte, !substitute_nil_filter, filter_blanks.
  now rewrite mstr_replace_all_subst by discriminate.
Qed.

Lemma delete_spaces_in (utf8_text stripped : list byte) (x : byte) :
  delete_spaces utf8_text = Some stripped ->
  In x stripped -> In x utf8_text /\ is_blank x = false.
Proof.
  rewrite delete_spaces_subst_all. intros [= <-] Hx.
  apply subst_all_nil_in in Hx.
  apply filter_In in Hx. destruct Hx as [Hin Hb].
  split; [exact Hin|]. now destruct (is_blank x).
Qed.

(** "Delete spaces" returns; no blank, tab, carriage return or line feed is
    left in the text and every byte left comes from the text; and where the
    text has no byte [0xE3], the lead byte of the ideographic space, all
    its other bytes are left, in their order. *)
Theorem delete_spaces_no_blank (utf8_text : list byte) :
  exists stripped : list byte,
    delete_spaces utf8_text = Some stripped /\
    (forall x : byte,
       In x stripped -> In x utf8_text /\ is_blank x = false) /\
    (~ In xe3 utf8_text ->
     stripped = filter (fun x => negb (is_blank x)) utf8_text).
Proof.
  eexists. split; [apply delete_spaces_subst_all|]. split.
  - intros x. apply (delete_spaces_in utf8_text); apply delete_spaces_subst_all.
  - intros He3. apply (subst_all_absent _ _ _ xe3 [x80; x80]).
    + reflexivity.
    + intros H. apply filter_In in H. now apply He3.
Qed.

(** ** Splitting and joining *)

Lemma find_first_of_app_done (chars done rest : list byte) :
  find_first_of chars (done ++ rest) (length done)
  = option_map (fun j => length done + j) (find_first_of chars rest 0).
Proof.
  induction done as [|d done IH]; simpl.
  - destruct (find_first_of chars rest 0); reflexivity.
  - rewrite IH. destruct (find_first_of chars rest 0); reflexivity.
Qed.

(** The first byte of [chars] in [rest], if there is one, and what
    [split_at] makes of the text around it. *)
Lemma find_first_of_cases (chars rest : list byte) :
  (find_first_of chars rest 0 = None /\
   forall cur, split_at chars rest cur = [cur ++ rest]) \/
  (exists (p : list byte) (x : byte) (q : list byte),
     rest = p ++ x :: q /\
     find_first_of chars rest 0 = Some (length p) /\
     forall cur, split_at chars rest cur = (cur ++ p) :: split_at chars q []).
Proof.
  induction rest as [|x rest IH].
  - left. split; [reflexivity|]. intros cur. simpl. now rewrite app_nil_r.
  - cbn [find_first_of split_at].
    destruct (existsb (Byte.eqb x) chars) eqn:E.
    + right. exists [], x, rest. repeat split.
      intros cur. now rewrite app_nil_r.
    + destruct IH as [[Hf Hs]|[p [y [q [Hr [Hf Hs]]]]]].
      * left. rewrite Hf. split; [reflexivity|].
        intros cur. rewrite Hs, <- app_assoc. reflexivity.
      * right. exists (x :: p), y, q. rewrite Hf. subst rest.
        repeat split. intros cur. rewrite Hs, <- app_assoc. reflexivity.
Qed.

Lemma mstr_split_loop_split_at (chars : list byte) (fuel : nat) :
  forall (done rest : list byte) (container : list (list byte)),
    length rest < fuel ->
    mstr_split_loop fuel (done ++ rest) chars (length done)
      (find_first_of chars (done ++ rest) (length done)) container
    = Some (container ++ split_at chars rest []).
Proof.
  induction fuel as [|fuel IH]; intros done rest container Hlt; [lia|].
  cbn [mstr_split_loop]. rewrite find_first_of_app_done.
  destruct (find_first_of_cases chars rest)
    as [[Hf Hs]|[p [x [q [Hr [Hf Hs]]]]]]; rewrite Hf, Hs; cbn [option_map].
  - rewrite skipn_app, skipn_all, Nat.sub_diag. reflexivity.
  - subst rest. unfold substr.
    rewrite skipn_app, skipn_all, Nat.sub_diag. cbn [skipn app].
    replace (length done + length p - length done) with (length p) by lia.
    rewrite firstn_app, firstn_all, Nat.sub_diag. cbn [firstn].
    rewrite app_nil_r.
    replace (done ++ p ++ x :: q) with ((done ++ p ++ [x]) ++ q)
      by (now rewrite <- !app_assoc).
    replace (length done + length p + 1) with (length (done ++ p ++ [x]))
      by (rewrite !length_app; simpl; lia).
    rewrite IH by (rewrite length_app in Hlt; simpl in Hlt; lia).
    now rewrite <- app_assoc.
Qed.

Lemma mstr_split_split_at (str chars : list byte) :
  mstr_split str chars = Some (split_at chars str []).
Proof.
  unfold mstr_split.
  exact (mstr_split_loop_split_at chars (S (length str)) [] str []
           (Nat.lt_succ_diag_r _)).
Qed.

Lemma split_at_length (chars str : list byte) :
  forall cur : list byte,
    length (split_at chars str cur)
    = S (length (filter (one_of chars) str)).
Proof.
  induction str as [|x str IH]; intros cur; [reflexivity|].
  cbn [split_at filter]. unfold one_of at 1.
  destruct (existsb (Byte.eqb x) chars); cbn [length]; now rewrite IH.
Qed.

Lemma split_at_free (chars str : list byte) :
  forall cur : list byte,
    free_of chars cur -> Forall (free_of chars) (split_at chars str cur).
Proof.
  induction str as [|x str IH]; intros cur Hcur.
  - constructor; [exact Hcur | constructor].
  - cbn [split_at]. destruct (existsb (Byte.eqb x) chars) eqn:E.
    + constructor; [exact Hcur|]. apply IH. intros y [].
    + apply IH. intros y Hy. apply in_app_or in Hy.
      destruct Hy as [Hy|[Hy|[]]]; [now apply Hcur | now subst y].
Qed.

Lemma mstr_join_cons (first : list byte) (rest : list (list byte))
  (sep : list byte) :
  mstr_join (first :: rest) sep
  = first ++ concat (map (fun it => sep ++ it) rest).
Proof.
  cbn [mstr_join]. revert first.
  induction rest as [|r rest IH]; intros first; cbn [fold_left map concat].
  - now rewrite app_nil_r.
  - rewrite IH, <- !app_assoc. reflexivity.
Qed.

Lemma split_at_join (c : byte) (str : list byte) :
  forall cur : list byte,
    mstr_join (split_at [c] str cur) [c] = cur ++ str.
Proof.
  induction str as [|x str IH]; intros cur.
  - cbn [split_at mstr_join fold_left]. now rewrite app_nil_r.
  - cbn [split_at existsb]. rewrite orb_false_r.
    destruct (Byte.eqb x c) eqn:E.
    + apply Byte.byte_dec_bl in E. subst x.
      specialize (IH []). rewrite mstr_join_cons.
      destruct (split_at [c] str []) as [|h t] eqn:S.
      * pose proof (split_at_length [c] str []) as L.
        rewrite S in L. discriminate L.
      * rewrite mstr_join_cons in IH. cbn [map concat app] in *.
        now rewrite IH.
    + rewrite IH, <- app_assoc. reflexivity.
Qed.

(** [mstr_split] returns for every text and every set of separators; there
    is one row more than there are separator bytes in the text, so there is
    always a row; and no row holds a separator. *)
Theorem mstr_split_rows (str chars : list byte) :
  exists rows : list (list byte),
    mstr_split str chars = Some rows /\
    length rows = S (length (filter (one_of chars) str)) /\
    Forall (free_of chars) rows.
Proof.
  exists (split_at chars str []). split; [apply mstr_split_split_at|]. split.
  - apply split_at_length.
  - apply split_at_free. intros x [].
Qed.

(** Joining what [mstr_split] cut at the byte [c] with that byte gives the
    text back. *)
Theorem mstr_join_split (str : list byte) (c : byte) :
  exists rows : list (list byte),
    mstr_split str [c] = Some rows /\ mstr_join rows [c] = str.
Proof.
  exists (split_at [c] str []). split; [apply mstr_split_split_at|].
  apply split_at_join.
Qed.

(** ** Rows of a text *)

Lemma subst_all_in (from to str : list byte) (x : byte) :
  forall skip : nat,
    In x (subst_all from to str skip) -> In x str \/ In x to.
Proof.
  induction str as [|y str IH]; intros skip H; [now left|].
  cbn [subst_all] in H. destruct skip as [|skip].
  - destruct (starts_with from (y :: str)).
    + apply in_app_or in H. destruct H as [H|H]; [now right|].
      destruct (IH _ H); [left; now right | now right].
    + destruct H as [H|H]; [left; now left|].
      destruct (IH _ H); [left; now right | now right].
  - destruct (IH _ H); [left; now right | now right].
Qed.

Lemma substitute_in (c : byte) (to str : list byte) (x : byte) :
  In x (substitute c to str) -> x <> c \/ In x to.
Proof.
  unfold substitute. intros H. apply in_flat_map in H.
  destruct H as [y [_ H]]. destruct (Byte.eqb y c) eqn:E.
  - now right.
  - destruct H as [H|[]]. subst y. left. intros ->.
    rewrite byte_eqb_refl in E. discriminate.
Qed.

Lemma substitute_in_str (c : byte) (to str : list byte) (x : byte) :
  In x (substitute c to str) -> In x str \/ In x to.
Proof.
  unfold substitute. intros H. apply in_flat_map in H.
  destruct H as [y [Hy H]]. destruct (Byte.eqb y c).
  - now right.
  - destruct H as [H|[]]. subst y. now left.
Qed.

Lemma split_at_in (chars str : list byte) :
  forall cur : list byte,
    Forall (fun row => forall x, In x row -> In x cur \/ In x str)
      (split_at chars str cur).
Proof.
  induction str as [|y str IH]; intros cur.
  - constructor; [|constructor]. intros x Hx. now left.
  - cbn [split_at]. destruct (existsb (Byte.eqb y) chars).
    + constructor; [intros x Hx; now left|].
      eapply Forall_impl; [|apply IH]. cbn beta. intros row H x Hx.
      destruct (H x Hx) as [[]|Hs]. right. now right.
    + eapply Forall_impl; [|apply IH]. cbn beta. intros row H x Hx.
      destruct (H x Hx) as [Hc|Hs]; [|right; now right].
      apply in_app_or in Hc. destruct Hc as [Hc|[Hc|[]]]; [now left|].
      subst y. right. now left.
Qed.

(** [u8_split_by_newlines] returns for every text; there is always a row,
    and no row holds a carriage return, a line feed or a NUL. *)
Theorem u8_split_by_newlines_rows (str : list byte) :
  exists rows : list (list byte),
    u8_split_by_newlines str = Some rows /\
    rows <> [] /\
    Forall (free_of [x0d; x0a; x00]) rows.
Proof.
  unfold u8_split_by_newlines.
  rewrite mstr_replace_all_subst by discriminate.
  rewrite mstr_replace_all_byte, mstr_split_split_at.
  eexists. split; [reflexivity|]. split.
  - intros H. apply (f_equal (@length _)) in H.
    rewrite split_at_length in H. discriminate H.
  - pose proof (split_at_free [x0a]
                  (substitute x0d [x0a]
                     (subst_all [x0d; x0a] [x0a] (c_str str) 0)) []) as Hfree.
    pose proof (split_at_in [x0a]
                  (substitute x0d [x0a]
                     (subst_all [x0d; x0a] [x0a] (c_str str) 0)) []) as Hin.
    assert (Hnil : free_of [x0a] []) by (intros x []).
    specialize (Hfree Hnil).
    rewrite Forall_forall in *. intros row Hrow x Hx.
    specialize (Hfree row Hrow x Hx). specialize (Hin row Hrow x Hx).
    destruct Hin as [[]|Hin].
    assert (Hcr : x <> x0d).
    { apply substitute_in in Hin. destruct Hin as [H|[H|[]]];
        [exact H | subst x; discriminate]. }
    assert (Hnul : x <> x00).
    { apply substitute_in_str in Hin.
      destruct Hin as [Hin|[H|[]]]; [|subst x; discriminate].
      apply subst_all_in in Hin.
      destruct Hin as [Hin|[H|[]]]; [|subst x; discriminate].
      pose proof (c_str_no_nul str) as Hn. unfold no_nul in Hn.
      rewrite Forall_forall in Hn. now apply Hn. }
    unfold one_of in *. cbn [existsb] in *.
    rewrite orb_false_r in Hfree. rewrite Hfree.
    destruct (Byte.eqb x x0d) eqn:E1;
      [apply Byte.byte_dec_bl in E1; contradiction|].
    destruct (Byte.eqb x x00) eqn:E2;
      [apply Byte.byte_dec_bl in E2; contradiction|].
    reflexivity.
Qed.

Lemma free_of_not_in (chars row : list byte) (c : byte) :
  free_of chars row -> In c chars -> ~ In c row.
Proof.
  intros Hfree Hc Hin. specialize (Hfree c Hin).
  unfold one_of in Hfree.
  assert (existsb (Byte.eqb c) chars = true).
  { apply existsb_exists. exists c. split; [exact Hc | apply byte_eqb_refl]. }
  congruence.
Qed.

Lemma not_in_join (c : byte) (sep first : list byte)
  (rest : list (list byte)) :
  ~ In c sep -> ~ In c first -> Forall (fun row => ~ In c row) rest ->
  ~ In c (first ++ concat (map (fun it => sep ++ it) rest)).
Proof.
  intros Hsep Hfirst Hrest H. apply in_app_or in H.
  destruct H as [H|H]; [contradiction|].
  apply in_concat in H. destruct H as [l [Hl Hc]].
  apply in_map_iff in Hl. destruct Hl as [row [<- Hrow]].
  apply in_app_or in Hc. destruct Hc as [Hc|Hc]; [contradiction|].
  rewrite Forall_forall in Hrest. exact (Hrest row Hrow Hc).
Qed.

Lemma subst_all_no_occurrence (from to str : list byte) (b : byte) :
  In b from -> ~ In b str -> subst_all from to str 0 = str.
Proof.
  intros Hb. induction str as [|x str IH]; intros Hn; [reflexivity|].
  cbn [subst_all]. destruct (starts_with from (x :: str)) eqn:E.
  - apply starts_with_app in E. exfalso. apply Hn. rewrite E.
    apply in_or_app. now left.
  - f_equal. apply IH. intros H. apply Hn. now right.
Qed.

Lemma substitute_absent (c : byte) (to str : list byte) :
  ~ In c str -> substitute c to str = str.
Proof.
  induction str as [|x str IH]; intros Hn; [reflexivity|].
  unfold substitute in *. cbn [flat_map].
  destruct (Byte.eqb x c) eqn:E.
  - apply Byte.byte_dec_bl in E. subst x. exfalso. apply Hn. now left.
  - cbn [app]. f_equal. apply IH. intros H. apply Hn. now right.
Qed.

Lemma substitute_app (c : byte) (to a b : list byte) :
  substitute c to (a ++ b) = substitute c to a ++ substitute c to b.
Proof.
  unfold substitute. apply flat_map_app.
Qed.

Lemma subst_all_row (from' to row tail : list byte) (a : byte) :
  ~ In a row ->
  subst_all (a :: from') to (row ++ tail) 0
  = row ++ subst_all (a :: from') to tail 0.
Proof.
  induction row as [|x row IH]; intros Hn; [reflexivity|].
  cbn [app subst_all starts_with].
  destruct (Byte.eqb a x) eqn:E.
  - apply Byte.byte_dec_bl in E. subst x. exfalso. apply Hn. now left.
  - cbn [andb]. f_equal. apply IH. intros H. apply Hn. now right.
Qed.

(** What the two replacements of [u8_split_by_newlines] make of rows
    joined by one of the three line ends. *)
Lemma starts_with_self (from post : list byte) :
  starts_with from (from ++ post) = true.
Proof.
  induction from as [|a from IH]; [reflexivity|].
  cbn [app starts_with]. now rewrite byte_eqb_refl, IH.
Qed.

Lemma subst_all_occurrence (from to post : list byte) :
  from <> [] ->
  subst_all from to (from ++ post) 0 = to ++ subst_all from to post 0.
Proof.
  intros Hfrom. pose proof (starts_with_self from post) as E.
  destruct from as [|a from]; [congruence|].
  change ((a :: from) ++ post) with (a :: from ++ post) in *.
  cbn [subst_all]. rewrite E. f_equal.
  replace (length (a :: from) - 1) with (length from) by (simpl; lia).
  apply subst_all_skip.
Qed.

(** What the two replacements of [u8_split_by_newlines] make of rows
    joined by one of the three line ends. *)
Lemma newlines_join_cr (first : list byte) (rest : list (list byte)) :
  Forall (fun row => ~ In x0d row) (first :: rest) ->
  substitute x0d [x0a] (first ++ concat (map (fun it => [x0d] ++ it) rest))
  = first ++ concat (map (fun it => [x0a] ++ it) rest).
Proof.
  revert first. induction rest as [|r rest IH]; intros first H.
  - cbn [map concat]. rewrite !app_nil_r. apply substitute_absent.
    now inversion H.
  - inversion H as [|? ? Hf Hr]; subst. cbn [map concat].
    rewrite <- !app_assoc.
    rewrite substitute_app, (substitute_absent _ _ first Hf). f_equal.
    rewrite substitute_app. f_equal. exact (IH r Hr).
Qed.

Lemma newlines_join_crlf (first : list byte) (rest : list (list byte)) :
  Forall (fun row => ~ In x0d row) (first :: rest) ->
  subst_all [x0d; x0a] [x0a]
    (first ++ concat (map (fun it => [x0d; x0a] ++ it) rest)) 0
  = first ++ concat (map (fun it => [x0a] ++ it) rest).
Proof.
  revert first. induction rest as [|r rest IH]; intros first H.
  - cbn [map concat]. rewrite !app_nil_r.
    apply (subst_all_no_occurrence _ _ _ x0d); [now left | now inversion H].
  - inversion H as [|? ? Hf Hr]; subst. cbn [map concat].
    rewrite <- !app_assoc.
    rewrite (subst_all_row _ _ _ _ _ Hf). f_equal.
    rewrite subst_all_occurrence by discriminate. f_equal. exact (IH r Hr).
Qed.

Lemma split_at_row (c : byte) (row tail : list byte) :
  ~ In c row ->
  forall cur : list byte,
    split_at [c] (row ++ tail) cur = split_at [c] tail (cur ++ row).
Proof.
  induction row as [|x row IH]; intros Hn cur.
  - now rewrite app_nil_r.
  - cbn [app split_at existsb]. rewrite orb_false_r.
    destruct (Byte.eqb x c) eqn:E.
    + apply Byte.byte_dec_bl in E. subst x. exfalso. apply Hn. now left.
    + rewrite IH by (intros H; apply Hn; now right).
      now rewrite <- app_assoc.
Qed.

Lemma split_at_sep (c : byte) (tail cur : list byte) :
  split_at [c] ([c] ++ tail) cur = cur :: split_at [c] tail [].
Proof.
  cbn [app split_at existsb]. now rewrite byte_eqb_refl.
Qed.

Lemma split_at_joined (c : byte) (rest : list (list byte)) :
  forall first cur : list byte,
    Forall (fun row => ~ In c row) (first :: rest) ->
    split_at [c] (first ++ concat (map (fun it => [c] ++ it) rest)) cur
    = (cur ++ first) :: rest.
Proof.
  induction rest as [|r rest IH]; intros first cur H;
    inversion H as [|? ? Hf Hr]; subst.
  - cbn [map concat]. rewrite split_at_row by assumption. reflexivity.
  - cbn [map concat]. rewrite <- app_assoc.
    rewrite split_at_row by assumption. rewrite split_at_sep.
    f_equal. exact (IH r [] Hr).
Qed.

(** Rows that hold no carriage return, line feed or NUL, joined by one of
    the three line ends, are the rows that [u8_split_by_newlines] gives
    for the joined text: empty rows are kept, also at both ends. *)
Theorem u8_split_by_newlines_join (rows : list (list byte))
  (sep : list byte) :
  rows <> [] ->
  In sep [[x0d; x0a]; [x0d]; [x0a]] ->
  Forall (free_of [x0d; x0a; x00]) rows ->
  u8_split_by_newlines (mstr_join rows sep) = Some rows.
Proof.
  intros Hne Hsep Hfree.
  destruct rows as [|first rest]; [congruence|]. clear Hne.
  assert (Hcr : Forall (fun row => ~ In x0d row) (first :: rest)).
  { eapply Forall_impl; [|exact Hfree]. cbn beta. intros row H.
    apply (free_of_not_in _ _ _ H). now left. }
  assert (Hlf : Forall (fun row => ~ In x0a row) (first :: rest)).
  { eapply Forall_impl; [|exact Hfree]. cbn beta. intros row H.
    apply (free_of_not_in _ _ _ H). right. now left. }
  assert (Hnul : Forall (fun row => ~ In x00 row) (first :: rest)).
  { eapply Forall_impl; [|exact Hfree]. cbn beta. intros row H.
    apply (free_of_not_in _ _ _ H). right. right. now left. }
  unfold u8_split_by_newlines. rewrite mstr_join_cons.
  assert (Hc : c_str (first ++ concat (map (fun it => sep ++ it) rest))
               = first ++ concat (map (fun it => sep ++ it) rest)).
  { apply c_str_id. unfold no_nul. rewrite Forall_forall. intros x Hx ->.
    revert Hx. apply not_in_join.
    - destruct Hsep as [<-|[<-|[<-|[]]]]; cbn [In]; intuition discriminate.
    - now inversion Hnul.
    - now inversion Hnul. }
  rewrite Hc. rewrite mstr_replace_all_subst by discriminate.
  rewrite mstr_replace_all_byte, mstr_split_split_at. f_equal.
  assert (Hnorm : substitute x0d [x0a]
                    (subst_all [x0d; x0a] [x0a]
                       (first ++ concat (map (fun it => sep ++ it) rest)) 0)
                  = first ++ concat (map (fun it => [x0a] ++ it) rest)).
  { destruct Hsep as [<-|[<-|[<-|[]]]].
    - rewrite newlines_join_crlf by assumption.
      apply substitute_absent. apply not_in_join.
      + cbn [In]. intuition discriminate.
      + now inversion Hcr.
      + now inversion Hcr.
    - rewrite (subst_all_no_occurrence _ _ _ x0a).
      + now apply newlines_join_cr.
      + right. now left.
      + apply not_in_join.
        * cbn [In]. intuition discriminate.
        * now inversion Hlf.
        * now inversion Hlf.
    - rewrite (subst_all_no_occurrence _ _ _ x0d).
      + apply substitute_absent. apply not_in_join.
        * cbn [In]. intuition discriminate.
        * now inversion Hcr.
        * now inversion Hcr.
      + now left.
      + apply not_in_join.
        * cbn [In]. intuition discriminate.
        * now inversion Hcr.
        * now inversion Hcr. }
  rewrite Hnorm. now apply split_at_joined.
Qed.

Lemma u8_split_by_newlines_join_witness :
  u8_split_by_newlines
    (mstr_join [bytes_of "ab"; []; bytes_of "c"; []] [x0d; x0a])
  = Some [bytes_of "ab"; []; bytes_of "c"; []].
Proof.
  apply (u8_split_by_newlines_join
           [bytes_of "ab"; []; bytes_of "c"; []] [x0d; x0a]).
  - discriminate.
  - now left.
  - repeat constructor; intros x Hx; cbn in Hx;
      repeat (destruct Hx as [<-|Hx]; [reflexivity|]); destruct Hx.
Defined.

(** ** Decoding UTF-8 *)

Example u8_encode_hiragana_a : u8_encode 0x3042 = bytes_of "あ".
Proof. reflexivity. Qed.

Example u8_encode_emoji : u8_encode 0x1F603 = bytes_of "😃".
Proof. reflexivity. Qed.

Lemma Z_of_byte_bounded (b : byte) : (0 <= Z_of_byte b < 256)%Z.
Proof.
  unfold Z_of_byte. pose proof (Byte.to_N_bounded b). lia.
Qed.

Lemma Z_of_byte_of_Z (z : Z) :
  (0 <= z < 256)%Z -> Z_of_byte (byte_of_Z z) = z.
Proof.
  intros Hz. unfold Z_of_byte, byte_of_Z.
  destruct (Byte.of_N (Z.to_N z)) as [b|] eqn:E.
  - apply Byte.to_of_N in E. rewrite E. lia.
  - apply Byte.of_N_None_iff in E. lia.
Qed.

Lemma byte_of_Z_not_nul (z : Z) :
  (0 < z < 256)%Z -> byte_of_Z z <> x00.
Proof.
  intros Hz H. apply (f_equal Z_of_byte) in H.
  rewrite Z_of_byte_of_Z in H by lia. change (Z_of_byte x00) with 0%Z in H.
  lia.
Qed.

(** [u8_get_skip_chars] by the value of the byte. *)
Lemma u8_get_skip_chars_value (NDEBUG : bool) (b : byte) :
  u8_get_skip_chars NDEBUG b
  = let v := Z_of_byte b in
    if (v <? 0x80)%Z then Some 1%Z
    else if (v <? 0xC0)%Z then (if NDEBUG then Some (-1)%Z else None)
    else if (v <? 0xE0)%Z then Some 2%Z
    else if (v <? 0xF0)%Z then Some 3%Z
    else if (v <? 0xF8)%Z then Some 4%Z
    else if (v <? 0xFC)%Z then Some 5%Z
    else if (v <? 0xFE)%Z then Some 6%Z
    else if NDEBUG then Some (-1)%Z else None.
Proof.
  destruct b; reflexivity.
Qed.

(** Bits put behind shifted bits add up. *)
Lemma lor_shiftl_add (a b n : Z) :
  (0 <= n)%Z -> (0 <= b < 2 ^ n)%Z ->
  Z.lor (Z.shiftl a n) b = (a * 2 ^ n + b)%Z.
Proof.
  intros Hn Hb. rewrite Z.shiftl_mul_pow2 by assumption.
  assert (Hland : Z.land (a * 2 ^ n) b = 0%Z).
  { apply Z.bits_inj'. intros i Hi. rewrite Z.land_spec, Z.bits_0.
    destruct (Z.lt_ge_cases i n) as [Hlt|Hge].
    - rewrite Z.mul_pow2_bits_low by lia. reflexivity.
    - assert (Hbit : Z.testbit b i = false).
      { destruct (Z.eq_dec b 0) as [->|Hb0]; [apply Z.bits_0|].
        apply Z.bits_above_log2; [lia|].
        assert (Z.log2 b < n)%Z by (apply Z.log2_lt_pow2; lia). lia. }
      rewrite Hbit. apply andb_false_r. }
  rewrite <- Z.lxor_lor by exact Hland.
  symmetry. apply Z.add_nocarry_lxor. exact Hland.
Qed.

Lemma assemble2 (a b : Z) :
  (0 <= b < 64)%Z -> Z.lor (Z.shiftl a 6) b = (a * 64 + b)%Z.
Proof.
  intros Hb. rewrite lor_shiftl_add by (change (2 ^ 6)%Z with 64%Z; lia).
  reflexivity.
Qed.

Lemma assemble3 (a b c : Z) :
  (0 <= b < 64)%Z -> (0 <= c < 64)%Z ->
  Z.lor (Z.lor (Z.shiftl a 12) (Z.shiftl b 6)) c
  = ((a * 64 + b) * 64 + c)%Z.
Proof.
  intros Hb Hc.
  replace (Z.shiftl a 12) with (Z.shiftl (Z.shiftl a 6) 6)
    by (rewrite Z.shiftl_shiftl by lia; reflexivity).
  rewrite <- Z.shiftl_lor, (assemble2 a b Hb). now apply assemble2.
Qed.

Lemma assemble4 (a b c d : Z) :
  (0 <= b < 64)%Z -> (0 <= c < 64)%Z -> (0 <= d < 64)%Z ->
  Z.lor (Z.lor (Z.lor (Z.shiftl a 18) (Z.shiftl b 12)) (Z.shiftl c 6)) d
  = (((a * 64 + b) * 64 + c) * 64 + d)%Z.
Proof.
  intros Hb Hc Hd.
  replace (Z.shiftl a 18) with (Z.shiftl (Z.shiftl a 12) 6)
    by (rewrite Z.shiftl_shiftl by lia; reflexivity).
  replace (Z.shiftl b 12) with (Z.shiftl (Z.shiftl b 6) 6)
    by (rewrite Z.shiftl_shiftl by lia; reflexivity).
  rewrite <- !Z.shiftl_lor, (assemble3 a b c Hb Hc). now apply assemble2.
Qed.

Lemma land_low (v n : Z) :
  (0 <= n)%Z -> Z.land v (Z.ones n) = (v mod 2 ^ n)%Z.
Proof.
  intros Hn. now apply Z.land_ones.
Qed.

Section DecodingFacts.

Variable NDEBUG : bool.
Variable beyond : nat -> byte.

(** [u32_from_u8] gives back the code point of a UTF-8 sequence and its
    length, whatever follows the sequence. *)
Lemma u32_from_u8_u8_encode (cp : Z) (rest : list byte) :
  code_point cp ->
  u32_from_u8 NDEBUG beyond (u8_encode cp ++ rest)
  = Some (cp, Z.of_nat (length (u8_encode cp))).
Proof.
  unfold code_point, u8_encode. intros Hcp.
  destruct (cp <? 0x80)%Z eqn:E1; [|destruct (cp <? 0x800)%Z eqn:E2;
    [|destruct (cp <? 0x10000)%Z eqn:E3]];
    unfold u32_from_u8; cbn [app peek nth_error length];
    rewrite u8_get_skip_chars_value; cbv zeta;
    rewrite ?Z_of_byte_of_Z
      by (pose proof (Z.mod_pos_bound cp 64); pose proof (Z.mod_pos_bound (cp / 64) 64);
          pose proof (Z.mod_pos_bound (cp / 4096) 64);
          Z.div_mod_to_equations; lia).
  - rewrite E1. reflexivity.
  - assert (H0 : ((0xC0 + cp / 64 <? 0x80)%Z = false))
      by (apply Z.ltb_ge; Z.div_mod_to_equations; lia).
    assert (H1 : ((0xC0 + cp / 64 <? 0xC0)%Z = false))
      by (apply Z.ltb_ge; Z.div_mod_to_equations; lia).
    assert (H2 : ((0xC0 + cp / 64 <? 0xE0)%Z = true))
      by (apply Z.ltb_lt; Z.div_mod_to_equations; lia).
    rewrite H0, H1, H2. cbn [Z.eqb Pos.eqb].
    change 0x1F%Z with (Z.ones 5). change 0x3F%Z with (Z.ones 6).
    rewrite !land_low by lia.
    rewrite assemble2 by (apply Z.mod_pos_bound; lia).
    f_equal. f_equal. Z.div_mod_to_equations. lia.
  - assert (H0 : ((0xE0 + cp / 4096 <? 0x80)%Z = false))
      by (apply Z.ltb_ge; Z.div_mod_to_equations; lia).
    assert (H1 : ((0xE0 + cp / 4096 <? 0xC0)%Z = false))
      by (apply Z.ltb_ge; Z.div_mod_to_equations; lia).
    assert (H2 : ((0xE0 + cp / 4096 <? 0xE0)%Z = false))
      by (apply Z.ltb_ge; Z.div_mod_to_equations; lia).
    assert (H3 : ((0xE0 + cp / 4096 <? 0xF0)%Z = true))
      by (apply Z.ltb_lt; Z.div_mod_to_equations; lia).
    rewrite H0, H1, H2, H3. cbn [Z.eqb Pos.eqb].
    change 0x0F%Z with (Z.ones 4). change 0x3F%Z with (Z.ones 6).
    rewrite !land_low by lia.
    rewrite assemble3 by (apply Z.mod_pos_bound; lia).
    f_equal. f_equal. Z.div_mod_to_equations. lia.
  - assert (H0 : ((0xF0 + cp / 262144 <? 0x80)%Z = false))
      by (apply Z.ltb_ge; Z.div_mod_to_equations; lia).
    assert (H1 : ((0xF0 + cp / 262144 <? 0xC0)%Z = false))
      by (apply Z.ltb_ge; Z.div_mod_to_equations; lia).
    assert (H2 : ((0xF0 + cp / 262144 <? 0xE0)%Z = false))
      by (apply Z.ltb_ge; Z.div_mod_to_equations; lia).
    assert (H3 : ((0xF0 + cp / 262144 <? 0xF0)%Z = false))
      by (apply Z.ltb_ge; Z.div_mod_to_equations; lia).
    assert (H4 : ((0xF0 + cp / 262144 <? 0xF8)%Z = true))
      by (apply Z.ltb_lt; Z.div_mod_to_equations; lia).
    rewrite H0, H1, H2, H3, H4. cbn [Z.eqb Pos.eqb].
    change 0x07%Z with (Z.ones 3). change 0x3F%Z with (Z.ones 6).
    rewrite !land_low by lia.
    rewrite assemble4 by (apply Z.mod_pos_bound; lia).
    f_equal. f_equal. Z.div_mod_to_equations. lia.
Qed.


Lemma u8_encode_not_empty (cp : Z) (rest : list byte) :
  is_empty (u8_encode cp ++ rest) = false.
Proof.
  unfold u8_encode.
  destruct (cp <? 0x80)%Z; [|destruct (cp <? 0x800)%Z;
    [|destruct (cp <? 0x10000)%Z]]; reflexivity.
Qed.

Lemma advance_u8_encode (cp : Z) (rest : list byte) :
  advance (Z.of_nat (length (u8_encode cp))) (u8_encode cp ++ rest) = rest.
Proof.
  unfold advance. rewrite Nat2Z.id, skipn_app, skipn_all, Nat.sub_diag.
  reflexivity.
Qed.

(** Decoding gives back the code point of a UTF-8 sequence of one to four
    bytes, whatever follows it, and the pointer is then moved behind the
    sequence: in a build with assertions as in one without, and without a
    look at the memory behind the text. *)
Theorem u32_from_u8_round_trip (cp : Z) (rest : list byte) :
  code_point cp ->
  exists skip : Z,
    u32_from_u8 NDEBUG beyond (u8_encode cp ++ rest) = Some (cp, skip) /\
    (1 <= skip <= 4)%Z /\
    advance skip (u8_encode cp ++ rest) = rest.
Proof.
  intros Hcp. exists (Z.of_nat (length (u8_encode cp))).
  split; [now apply u32_from_u8_u8_encode|].
  split; [|apply advance_u8_encode].
  unfold u8_encode.
  destruct (cp <? 0x80)%Z; [|destruct (cp <? 0x800)%Z;
    [|destruct (cp <? 0x10000)%Z]]; simpl; lia.
Qed.

Lemma u8_encode_no_nul (cp : Z) : code_point cp -> no_nul (u8_encode cp).
Proof.
  unfold code_point, u8_encode, no_nul. intros Hcp.
  pose proof (Z.mod_pos_bound cp 64).
  pose proof (Z.mod_pos_bound (cp / 64) 64).
  pose proof (Z.mod_pos_bound (cp / 4096) 64).
  destruct (cp <? 0x80)%Z eqn:E1; [|destruct (cp <? 0x800)%Z eqn:E2;
    [|destruct (cp <? 0x10000)%Z eqn:E3]];
    repeat constructor; apply byte_of_Z_not_nul;
    Z.div_mod_to_equations; lia.
Qed.

Lemma u8_encode_all_no_nul (cps : list Z) :
  Forall code_point cps -> no_nul (u8_encode_all cps).
Proof.
  unfold u8_encode_all, no_nul. intros H.
  induction H as [|cp cps Hcp _ IH]; [constructor|].
  cbn [flat_map]. apply Forall_app. split; [|exact IH].
  now apply u8_encode_no_nul.
Qed.

Lemma c_str_app (a r : list byte) :
  no_nul a -> c_str (a ++ r) = a ++ c_str r.
Proof.
  unfold no_nul. induction 1 as [|x a Hx _ IH]; [reflexivity|].
  cbn [app c_str]. destruct (Byte.eqb x x00) eqn:E.
  - apply Byte.byte_dec_bl in E. contradiction.
  - now rewrite IH.
Qed.

Lemma u8_encode_all_length (cps : list Z) (rest : list byte) :
  exists k : nat,
    S (length (u8_encode_all cps ++ rest)) = length cps + S k.
Proof.
  assert (H : length cps <= length (u8_encode_all cps)).
  { unfold u8_encode_all. induction cps as [|cp cps IH]; [simpl; lia|].
    cbn [flat_map length]. rewrite length_app.
    assert (1 <= length (u8_encode cp)).
    { unfold u8_encode.
      destruct (cp <? 0x80)%Z; [|destruct (cp <? 0x800)%Z;
        [|destruct (cp <? 0x10000)%Z]]; simpl; lia. }
    lia. }
  exists (length (u8_encode_all cps ++ rest) - length cps).
  rewrite length_app in *. lia.
Qed.

Lemma at_least_max (n ret : Z) : at_least n ret = Z.max n ret.
Proof.
  unfold at_least. destruct (ret <? n)%Z eqn:E;
    [apply Z.ltb_lt in E | apply Z.ltb_ge in E]; lia.
Qed.

(** The rank that one code point gives. *)
Lemma japanese_rank_max (u32 ret : Z) :
  (0 <= ret)%Z ->
  japanese_rank u32 ret
  = Z.max ret (rank_of japanese_kana japanese_other [u32]).
Proof.
  intros Hret.
  unfold japanese_rank, rank_of, japanese_kana, japanese_other.
  cbn [existsb]. rewrite !orb_false_r. cbv zeta. rewrite !at_least_max.
  destruct (in_range 0x3040 0x309F u32), (in_range 0x30A0 0x30FF u32),
    (in_range 0x31F0 0x31FF u32), (in_range 0xFF01 0xFF9D u32),
    (in_range 0x3400 0x4DB5 u32), (in_range 0x4E00 0x9FCB u32),
    (in_range 0xF900 0xFA6A u32), (in_range 0x3000 0x303F u32);
    cbn [orb]; lia.
Qed.

Lemma korean_rank_max (u32 ret : Z) :
  (0 <= ret)%Z ->
  korean_rank u32 ret = Z.max ret (rank_of korean_hangul korean_other [u32]).
Proof.
  intros Hret.
  unfold korean_rank, rank_of, korean_hangul, korean_other.
  cbn [existsb]. rewrite !orb_false_r. cbv zeta. rewrite !at_least_max.
  destruct (in_range 0x4E00 0x9FFF u32), (in_range 0xF900 0xFAFF u32),
    (in_range 0x2F00 0x2FDF u32), (in_range 0x2E80 0x2EFF u32),
    (in_range 0x3000 0x303F u32); cbn [orb];
  destruct (in_range 0xAC00 0xD7AF u32), (in_range 0x1100 0x11FF u32),
    (in_range 0x3130 0x318F u32), (in_range 0xA960 0xA97F u32),
    (in_range 0xD7B0 0xD7FF u32), (in_range 0xFFA0 0xFFDF u32);
    cbn [orb]; lia.
Qed.

Lemma fold_rank (two one : Z -> bool) (rank : Z -> Z -> Z) :
  (forall u32 ret,
     (0 <= ret)%Z -> rank u32 ret = Z.max ret (rank_of two one [u32])) ->
  forall (cps : list Z) (ret : Z),
    (0 <= ret)%Z ->
    fold_left (fun r cp => rank cp r) cps ret
    = Z.max ret (rank_of two one cps).
Proof.
  intros Hrank. induction cps as [|cp cps IH]; intros ret Hret.
  - cbn. unfold rank_of. cbn. lia.
  - cbn [fold_left]. rewrite Hrank by assumption.
    rewrite IH by lia. unfold rank_of. cbn [existsb].
    rewrite !orb_false_r.
    destruct (two cp), (one cp), (existsb two cps), (existsb one cps);
      cbn [orb]; lia.
Qed.

(** One turn of the loops for each code point of the text. *)
Lemma u8_is_japanese_text_loop_encoded (cps : list Z) :
  Forall code_point cps ->
  forall (fuel : nat) (rest : list byte) (ret : Z),
    u8_is_japanese_text_loop NDEBUG beyond (length cps + fuel)
      (u8_encode_all cps ++ rest) ret
    = u8_is_japanese_text_loop NDEBUG beyond fuel rest
        (fold_left (fun r cp => japanese_rank cp r) cps ret).
Proof.
  induction 1 as [|cp cps Hcp _ IH]; intros fuel rest ret; [reflexivity|].
  cbn [length Nat.add u8_is_japanese_text_loop u8_encode_all flat_map].
  fold (u8_encode_all cps). rewrite <- app_assoc.
  rewrite u8_encode_not_empty, u32_from_u8_u8_encode by assumption.
  replace (Z.of_nat (length (u8_encode cp)) =? -1)%Z with false
    by (symmetry; apply Z.eqb_neq; lia).
  rewrite advance_u8_encode. apply IH.
Qed.

Lemma u8_is_korean_text_loop_encoded (cps : list Z) :
  Forall code_point cps ->
  forall (fuel : nat) (rest : list byte) (ret : Z),
    u8_is_korean_text_loop NDEBUG beyond (length cps + fuel)
      (u8_encode_all cps ++ rest) ret
    = u8_is_korean_text_loop NDEBUG beyond fuel rest
        (fold_left (fun r cp => korean_rank cp r) cps ret).
Proof.
  induction 1 as [|cp cps Hcp _ IH]; intros fuel rest ret; [reflexivity|].
  cbn [length Nat.add u8_is_korean_text_loop u8_encode_all flat_map].
  fold (u8_encode_all cps). rewrite <- app_assoc.
  rewrite u8_encode_not_empty, u32_from_u8_u8_encode by assumption.
  replace (Z.of_nat (length (u8_encode cp)) =? -1)%Z with false
    by (symmetry; apply Z.eqb_neq; lia).
  rewrite advance_u8_encode. apply IH.
Qed.

Lemma u8_is_chinese_text_loop_encoded (cps : list Z) :
  Forall code_point cps ->
  forall (fuel : nat) (rest : list byte),
    u8_is_chinese_text_loop NDEBUG beyond (length cps + S fuel)
      (u8_encode_all cps ++ rest)
    = if existsb chinese_range cps then Returns (Some 1%Z)
      else u8_is_chinese_text_loop NDEBUG beyond (S fuel) rest.
Proof.
  induction 1 as [|cp cps Hcp _ IH]; intros fuel rest; [reflexivity|].
  cbn [length Nat.add u8_is_chinese_text_loop u8_encode_all flat_map
       existsb].
  fold (u8_encode_all cps). rewrite <- app_assoc.
  rewrite u8_encode_not_empty, u32_from_u8_u8_encode by assumption.
  replace (Z.of_nat (length (u8_encode cp)) =? -1)%Z with false
    by (symmetry; apply Z.eqb_neq; lia).
  destruct (chinese_range cp); [reflexivity|].
  rewrite advance_u8_encode. cbn [orb]. apply IH.
Qed.

(** For a text that is UTF-8 [u8_is_japanese_text] returns 2 when the text
    has a kana, 1 when it has none but has a kanji, a full-width form or a
    CJK symbol, and 0 otherwise, in a build with assertions as in one
    without, and whatever lies behind the text in memory. *)
Lemma u8_is_japanese_text_encoded (cps : list Z) :
  Forall code_point cps ->
  u8_is_japanese_text NDEBUG beyond (u8_encode_all cps)
  = Returns (Some (rank_of japanese_kana japanese_other cps)).
Proof.
  intros Hcps. unfold u8_is_japanese_text.
  rewrite (c_str_id _ (u8_encode_all_no_nul cps Hcps)).
  destruct (u8_encode_all_length cps []) as [k Hk].
  rewrite app_nil_r in Hk. rewrite Hk.
  rewrite <- (app_nil_r (u8_encode_all cps)).
  rewrite u8_is_japanese_text_loop_encoded by assumption.
  cbn [u8_is_japanese_text_loop is_empty].
  rewrite (fold_rank _ _ _ japanese_rank_max) by lia.
  do 2 f_equal. unfold rank_of.
  destruct (existsb japanese_kana cps), (existsb japanese_other cps); lia.
Qed.

(** For a text that is UTF-8 [u8_is_korean_text] returns 2 when the text
    has a hangul, 1 when it has none but has a Chinese character or a CJK
    symbol, and 0 otherwise. *)
Lemma u8_is_korean_text_encoded (cps : list Z) :
  Forall code_point cps ->
  u8_is_korean_text NDEBUG beyond (u8_encode_all cps)
  = Returns (Some (rank_of korean_hangul korean_other cps)).
Proof.
  intros Hcps. unfold u8_is_korean_text.
  rewrite (c_str_id _ (u8_encode_all_no_nul cps Hcps)).
  destruct (u8_encode_all_length cps []) as [k Hk].
  rewrite app_nil_r in Hk. rewrite Hk.
  rewrite <- (app_nil_r (u8_encode_all cps)).
  rewrite u8_is_korean_text_loop_encoded by assumption.
  cbn [u8_is_korean_text_loop is_empty].
  rewrite (fold_rank _ _ _ korean_rank_max) by lia.
  do 2 f_equal. unfold rank_of.
  destruct (existsb korean_hangul cps), (existsb korean_other cps); lia.
Qed.

(** For a text that is UTF-8 [u8_is_chinese_text] returns 1 when the text
    has a code point of one of its ranges and 0 otherwise. *)
Lemma u8_is_chinese_text_encoded (cps : list Z) :
  Forall code_point cps ->
  u8_is_chinese_text NDEBUG beyond (u8_encode_all cps)
  = Returns (Some (if existsb chinese_range cps then 1 else 0)%Z).
Proof.
  intros Hcps. unfold u8_is_chinese_text.
  rewrite (c_str_id _ (u8_encode_all_no_nul cps Hcps)).
  destruct (u8_encode_all_length cps []) as [k Hk].
  rewrite app_nil_r in Hk. rewrite Hk.
  rewrite <- (app_nil_r (u8_encode_all cps)).
  rewrite u8_is_chinese_text_loop_encoded by assumption.
  destruct (existsb chinese_range cps); reflexivity.
Qed.


(** For a text that is UTF-8 the three tests of the script answer by the
    code points of the text alone, in a build with assertions as in one
    without, and whatever lies behind the text in memory:
    [u8_is_japanese_text] returns 2 when the text has a kana, 1 when it
    has none but has a kanji, a full-width form or a CJK symbol, and 0
    otherwise; [u8_is_korean_text] returns 2 when the text has a hangul,
    1 when it has none but has a Chinese character or a CJK symbol, and 0
    otherwise; [u8_is_chinese_text] returns 1 when the text has a code
    point of one of its ranges, and 0 otherwise. *)
Theorem u8_is_cjk_text_encoded (cps : list Z) :
  Forall code_point cps ->
  u8_is_japanese_text NDEBUG beyond (u8_encode_all cps)
  = Returns (Some (rank_of japanese_kana japanese_other cps)) /\
  u8_is_korean_text NDEBUG beyond (u8_encode_all cps)
  = Returns (Some (rank_of korean_hangul korean_other cps)) /\
  u8_is_chinese_text NDEBUG beyond (u8_encode_all cps)
  = Returns (Some (if existsb chinese_range cps then 1 else 0)%Z).
Proof.
  intros Hcps. split; [|split].
  - now apply u8_is_japanese_text_encoded.
  - now apply u8_is_korean_text_encoded.
  - now apply u8_is_chinese_text_encoded.
Qed.

Lemma u8_is_lead_false_skip (b : byte) :
  u8_is_lead b = false ->
  u8_get_skip_chars NDEBUG b = if NDEBUG then Some (-1)%Z else None.
Proof.
  destruct b; intros H; try discriminate H; reflexivity.
Qed.

Lemma u32_from_u8_stray (b : byte) (rest : list byte) :
  u8_is_lead b = false ->
  u32_from_u8 NDEBUG beyond (b :: rest)
  = if NDEBUG then Some (0, -1)%Z else None.
Proof.
  intros Hb. unfold u32_from_u8. cbn [peek nth_error].
  rewrite (u8_is_lead_false_skip b Hb). destruct NDEBUG; reflexivity.
Qed.

Lemma stray_not_nul (b : byte) : u8_is_lead b = false -> b <> x00.
Proof.
  intros H ->. discriminate H.
Qed.

(** A byte that cannot begin a character, met where a character should
    begin, stops a build with assertions; without assertions the text is
    then no Japanese and no Korean text, whatever it holds, and it is a
    Chinese text only when a Chinese character comes before that byte. *)
Theorem u8_is_text_stray_byte (cps : list Z) (b : byte) (rest : list byte) :
  Forall code_point cps ->
  u8_is_lead b = false ->
  let text := u8_encode_all cps ++ b :: rest in
  u8_is_japanese_text NDEBUG beyond text
  = Returns (if NDEBUG then Some 0%Z else None) /\
  u8_is_korean_text NDEBUG beyond text
  = Returns (if NDEBUG then Some 0%Z else None) /\
  u8_is_chinese_text NDEBUG beyond text
  = Returns (if existsb chinese_range cps then Some 1%Z
             else if NDEBUG then Some 0%Z else None).
Proof.
  intros Hcps Hb text.
  assert (Hc : c_str text = u8_encode_all cps ++ b :: c_str rest).
  { unfold text. rewrite (c_str_app _ _ (u8_encode_all_no_nul cps Hcps)).
    cbn [c_str]. destruct (Byte.eqb b x00) eqn:E; [|reflexivity].
    apply Byte.byte_dec_bl in E. now apply stray_not_nul in E. }
  unfold u8_is_japanese_text, u8_is_korean_text, u8_is_chinese_text.
  rewrite Hc.
  destruct (u8_encode_all_length cps (b :: c_str rest)) as [k Hk].
  rewrite Hk. repeat split.
  - rewrite u8_is_japanese_text_loop_encoded by assumption.
    cbn [u8_is_japanese_text_loop is_empty].
    rewrite (u32_from_u8_stray b _ Hb). destruct NDEBUG; reflexivity.
  - rewrite u8_is_korean_text_loop_encoded by assumption.
    cbn [u8_is_korean_text_loop is_empty].
    rewrite (u32_from_u8_stray b _ Hb). destruct NDEBUG; reflexivity.
  - rewrite u8_is_chinese_text_loop_encoded by assumption.
    destruct (existsb chinese_range cps); [reflexivity|].
    cbn [u8_is_chinese_text_loop is_empty].
    rewrite (u32_from_u8_stray b _ Hb). destruct NDEBUG; reflexivity.
Qed.

(** [u8_get_skip_chars] knows a length for every byte but the
    continuation bytes [0x80] to [0xBF] and the bytes [0xFE] and [0xFF];
    for these a build with assertions stops and one without returns -1.
    The bytes below [0x80] are the only ones of length 1. *)
Theorem u8_get_skip_chars_classes (ch : byte) :
  let refused :=
    negb (u8_is_lead ch) || Byte.eqb ch xfe || Byte.eqb ch xff in
  (refused = true ->
   u8_get_skip_chars NDEBUG ch = if NDEBUG then Some (-1)%Z else None) /\
  (refused = false ->
   exists len : Z,
     u8_get_skip_chars NDEBUG ch = Some len /\ (1 <= len <= 6)%Z /\
     (len = 1%Z <-> (Z_of_byte ch < 0x80)%Z)).
Proof.
  destruct ch; cbv zeta; (split; intros H; [try discriminate H; reflexivity|]);
    try discriminate H;
    (eexists; split; [reflexivity|]; split; [lia|]);
    (split; intros H'; [try discriminate H'; reflexivity | try reflexivity;
       exfalso; revert H'; cbv; discriminate]).
Qed.

End DecodingFacts.

(** ** Characters of a text that is UTF-8 *)

Lemma u8_is_lead_value (b : byte) :
  u8_is_lead b
  = negb ((0x80 <=? Z_of_byte b)%Z && (Z_of_byte b <? 0xC0)%Z).
Proof.
  destruct b; reflexivity.
Qed.

Lemma u8_is_lead_byte_of_Z (z : Z) :
  (0 <= z < 256)%Z ->
  u8_is_lead (byte_of_Z z) = negb ((0x80 <=? z)%Z && (z <? 0xC0)%Z).
Proof.
  intros Hz. now rewrite u8_is_lead_value, Z_of_byte_of_Z.
Qed.

(** The sequence of a code point is a lead byte and bytes that are none. *)
Lemma u8_encode_unit (cp : Z) :
  code_point cp ->
  exists (b : byte) (tail : list byte),
    u8_encode cp = b :: tail /\ u8_is_lead b = true /\
    forallb (fun x => negb (u8_is_lead x)) tail = true.
Proof.
  unfold code_point, u8_encode. intros Hcp.
  pose proof (Z.mod_pos_bound cp 64).
  pose proof (Z.mod_pos_bound (cp / 64) 64).
  pose proof (Z.mod_pos_bound (cp / 4096) 64).
  destruct (cp <? 0x80)%Z eqn:E1; [|destruct (cp <? 0x800)%Z eqn:E2;
    [|destruct (cp <? 0x10000)%Z eqn:E3]];
    (eexists; eexists; split; [reflexivity|]);
    cbn [forallb];
    rewrite !u8_is_lead_byte_of_Z by (Z.div_mod_to_equations; lia);
    (split;
     [ apply negb_true_iff, andb_false_iff;
       rewrite Z.leb_gt, Z.ltb_ge; Z.div_mod_to_equations; lia
     | rewrite ?negb_involutive, ?andb_true_r, ?andb_true_iff,
         ?Z.leb_le, ?Z.ltb_lt;
       try reflexivity; repeat split; Z.div_mod_to_equations; lia ]).
Qed.

Lemma u8_split_chars_loop_tail (tail rest : list byte) :
  forallb (fun x => negb (u8_is_lead x)) tail = true ->
  forall (s : list byte) (chars : list (list byte)),
    u8_split_chars_loop (tail ++ rest) s chars
    = u8_split_chars_loop rest (s ++ tail) chars.
Proof.
  induction tail as [|x tail IH]; intros Ht s chars.
  - now rewrite app_nil_r.
  - cbn [forallb] in Ht. apply andb_true_iff in Ht. destruct Ht as [Hx Ht].
    apply negb_true_iff in Hx.
    cbn [app u8_split_chars_loop]. rewrite Hx. cbn [andb].
    rewrite IH by assumption. now rewrite <- app_assoc.
Qed.

Lemma u8_split_chars_loop_encoded (cps : list Z) :
  Forall code_point cps ->
  forall (s : list byte) (chars : list (list byte)),
    u8_split_chars_loop (u8_encode_all cps) s chars
    = (if is_empty s then chars else chars ++ [s]) ++ map u8_encode cps.
Proof.
  induction 1 as [|cp cps Hcp _ IH]; intros s chars.
  - cbn. now rewrite app_nil_r.
  - cbn [u8_encode_all flat_map map]. fold (u8_encode_all cps).
    destruct (u8_encode_unit cp Hcp) as [b [tail [-> [Hb Ht]]]].
    cbn [app u8_split_chars_loop]. rewrite Hb. cbn [andb].
    destruct s as [|c s]; cbn [is_empty negb].
    + rewrite u8_split_chars_loop_tail by assumption.
      rewrite IH. cbn [is_empty app]. now rewrite <- app_assoc.
    + rewrite u8_split_chars_loop_tail by assumption.
      rewrite IH. cbn [is_empty app]. now rewrite <- !app_assoc.
Qed.

Lemma u8_len_app (a b : list byte) : u8_len (a ++ b) = u8_len a + u8_len b.
Proof.
  induction a as [|x a IH]; [reflexivity|].
  cbn [app u8_len]. rewrite IH. destruct (u8_is_lead x); reflexivity.
Qed.

Lemma u8_len_tail (tail : list byte) :
  forallb (fun x => negb (u8_is_lead x)) tail = true -> u8_len tail = 0.
Proof.
  induction tail as [|x tail IH]; intros Ht; [reflexivity|].
  cbn [forallb] in Ht. apply andb_true_iff in Ht. destruct Ht as [Hx Ht].
  apply negb_true_iff in Hx. cbn [u8_len]. rewrite Hx. now apply IH.
Qed.

(** The characters that [u8_split_chars] cuts from a text that is UTF-8
    are the sequences of its code points, and [u8_len] counts the code
    points. *)
Theorem u8_split_chars_encoded (cps : list Z) :
  Forall code_point cps ->
  u8_split_chars [] (u8_encode_all cps) = map u8_encode cps /\
  u8_len (u8_encode_all cps) = length cps.
Proof.
  intros Hcps. split.
  - unfold u8_split_chars. now rewrite u8_split_chars_loop_encoded.
  - induction Hcps as [|cp cps Hcp _ IH]; [reflexivity|].
    cbn [u8_encode_all flat_map length]. fold (u8_encode_all cps).
    rewrite u8_len_app, IH.
    destruct (u8_encode_unit cp Hcp) as [b [tail [-> [Hb Ht]]]].
    cbn [u8_len]. rewrite Hb, (u8_len_tail tail Ht). reflexivity.
Qed.

(** ** Pages of a text that is UTF-8 *)

















(** ** The theorems at work *)

Lemma u32_from_u8_round_trip_witness :
  exists skip : Z,
    u32_from_u8 false (fun _ => xff) (u8_encode 0x1F603 ++ bytes_of "!")
    = Some (0x1F603%Z, skip) /\
    (1 <= skip <= 4)%Z /\
    advance skip (u8_encode 0x1F603 ++ bytes_of "!") = bytes_of "!".
Proof.
  apply (u32_from_u8_round_trip false (fun _ => xff) 0x1F603 (bytes_of "!")).
  unfold code_point. lia.
Defined.

Lemma u8_is_cjk_text_encoded_witness :
  u8_is_japanese_text false (fun _ => xff)
    (u8_encode_all [0x6F22; 0x3042; 0xC791; 0x41]%Z)
  = Returns (Some (rank_of japanese_kana japanese_other
                     [0x6F22; 0x3042; 0xC791; 0x41]%Z)) /\
  u8_is_korean_text false (fun _ => xff)
    (u8_encode_all [0x6F22; 0x3042; 0xC791; 0x41]%Z)
  = Returns (Some (rank_of korean_hangul korean_other
                     [0x6F22; 0x3042; 0xC791; 0x41]%Z)) /\
  u8_is_chinese_text false (fun _ => xff)
    (u8_encode_all [0x6F22; 0x3042; 0xC791; 0x41]%Z)
  = Returns (Some (if existsb chinese_range [0x6F22; 0x3042; 0xC791; 0x41]%Z
                   then 1 else 0)%Z).
Proof.
  apply (u8_is_cjk_text_encoded false (fun _ => xff)).
  repeat constructor.
Defined.

Lemma u8_is_text_stray_byte_witness :
  u8_is_japanese_text true (fun _ => xff) (u8_encode_all [0x3042%Z] ++ [x80])
  = Returns (Some 0%Z) /\
  u8_is_korean_text true (fun _ => xff) (u8_encode_all [0x3042%Z] ++ [x80])
  = Returns (Some 0%Z) /\
  u8_is_chinese_text true (fun _ => xff) (u8_encode_all [0x3042%Z] ++ [x80])
  = Returns (Some 0%Z).
Proof.
  apply (u8_is_text_stray_byte true (fun _ => xff) [0x3042%Z] x80 []).
  - repeat constructor.
  - reflexivity.
Defined.

Lemma u8_split_chars_encoded_witness :
  u8_split_chars [] (u8_encode_all [0x61; 0x3042; 0x1F603]%Z)
  = map u8_encode [0x61; 0x3042; 0x1F603]%Z /\
  u8_len (u8_encode_all [0x61; 0x3042; 0x1F603]%Z) = 3.
Proof.
  apply (u8_split_chars_encoded [0x61; 0x3042; 0x1F603]%Z).
  repeat constructor.
Defined.

(** The assertions of [u8_is_japanese_text_unittest] and the
    [static_assert]s behind [u8_len]. *)
Example u8_is_japanese_text_unittest :
  forall (NDEBUG : bool) (beyond : nat -> byte),
    u8_is_japanese_text NDEBUG beyond (bytes_of "") = Returns (Some 0%Z) /\
    u8_is_japanese_text NDEBUG beyond (bytes_of "ABCabc123")
    = Returns (Some 0%Z) /\
    u8_is_japanese_text NDEBUG beyond (bytes_of "あ") = Returns (Some 2%Z) /\
    u8_is_japanese_text NDEBUG beyond (bytes_of "ア") = Returns (Some 2%Z) /\
    u8_is_japanese_text NDEBUG beyond (bytes_of "ｱ") = Returns (Some 1%Z) /\
    u8_is_japanese_text NDEBUG beyond (bytes_of "漢字") = Returns (Some 1%Z) /\
    u8_is_japanese_text NDEBUG beyond (bytes_of "ＡＢＣ") = Returns (Some 1%Z).
Proof.
  intros NDEBUG beyond. repeat split; reflexivity.
Qed.

Example u8_len_static_assert :
  u8_len (bytes_of "abあいう漢字") = 7 /\
  u8_len (bytes_of "𠮷") = 1 /\
  u8_len (bytes_of "😃😃") = 2.
Proof.
  repeat split; reflexivity.
Qed.

(** ** Rows and columns of a page *)

Local Open Scope Q_scope.

Lemma Q_of_size_0 : Q_of_size 0 == 0.
Proof.
  reflexivity.
Qed.

Lemma pdfplaca_draw_h_page_loop_spec
  (row_height printable_width margin : Q) (rows : list (list byte)) :
  forall y : Q,
    length (fst (pdfplaca_draw_h_page_loop rows y row_height printable_width
                   margin)) = length rows /\
    snd (pdfplaca_draw_h_page_loop rows y row_height printable_width margin)
    == y + Q_of_size (length rows) * (row_height + margin) /\
    forall (k : nat) (band : rectangle) (text : list byte),
      nth_error
        (fst (pdfplaca_draw_h_page_loop rows y row_height printable_width
                margin)) k = Some (band, text) ->
      rect_x band = margin /\
      rect_y band == y + Q_of_size k * (row_height + margin) /\
      rect_width band = printable_width /\
      rect_height band = row_height.
Proof.
  induction rows as [|row rows IH]; intros y.
  - cbn [pdfplaca_draw_h_page_loop fst snd length].
    split; [reflexivity|]. split; [rewrite Q_of_size_0; lra|].
    intros [|k] band text H; discriminate H.
  - cbn [pdfplaca_draw_h_page_loop].
    destruct (IH (y + row_height + margin)) as [Hlen [Hend Hnth]].
    destruct (pdfplaca_draw_h_page_loop rows (y + row_height + margin)
                row_height printable_width margin) as [more y_end].
    cbn [fst snd length] in *. split; [now rewrite Hlen|]. split.
    + rewrite Hend, Q_of_size_S. lra.
    + intros [|k] band text H; cbn [nth_error] in H.
      * injection H as <- <-. cbn [rect_x rect_y rect_width rect_height].
        repeat split. rewrite ?Q_of_size_S, Q_of_size_0. lra.
      * destruct (Hnth k band text H) as [Hx [Hy [Hw Hh]]].
        repeat split; try assumption.
        rewrite Hy, Q_of_size_S. lra.
Qed.


Lemma row_extent_fills (page_extent margin : Q) (n : nat) :
  (0 < n)%nat ->
  margin + Q_of_size n * (row_extent page_extent margin n + margin)
  == page_extent.
Proof.
  intros Hn. pose proof (Q_of_size_pos n Hn) as Hpos.
  unfold row_extent. field. lra.
Qed.

Lemma u8_split_by_newlines_some (str : list byte) :
  exists rows : list (list byte),
    u8_split_by_newlines str = Some rows /\ (0 < length rows)%nat.
Proof.
  unfold u8_split_by_newlines.
  rewrite mstr_replace_all_subst by discriminate.
  rewrite mstr_replace_all_byte, mstr_split_split_at.
  eexists. split; [reflexivity|]. rewrite split_at_length. lia.
Qed.

(** A page written in rows is drawn for every text, and its rows lie one
    below the other: the first begins a margin below the top of the page,
    all have the height [(page_height - margin * (n + 1)) / n], where [n],
    the number of the rows, is not 0, every row begins a margin below the
    row before it, and a margin below the last row the page ends.  Every
    row begins at the left margin and has the printable width. *)
Theorem pdfplaca_draw_page_rows (utf8_text : list byte)
  (page_width page_height printable_width printable_height margin : Q) :
  exists (rows : list (list byte)) (drawn : list (rectangle * list byte)),
    u8_split_by_newlines utf8_text = Some rows /\
    pdfplaca_draw_page false utf8_text page_width page_height
      printable_width printable_height margin = Some drawn /\
    (0 < length rows)%nat /\ length drawn = length rows /\
    let row_height := row_extent page_height margin (length rows) in
    (forall (k : nat) (band : rectangle) (text : list byte),
       nth_error drawn k = Some (band, text) ->
       rect_x band = margin /\
       rect_y band == margin + Q_of_size k * (row_height + margin) /\
       rect_width band = printable_width /\
       rect_height band = row_height) /\
    margin + Q_of_size (length rows) * (row_height + margin) == page_height.
Proof.
  destruct (u8_split_by_newlines_some utf8_text) as [rows [Hrows Hn]].
  exists rows. unfold pdfplaca_draw_page. rewrite Hrows.
  eexists. split; [reflexivity|]. split; [reflexivity|].
  split; [exact Hn|].
  unfold pdfplaca_draw_h_page. cbv zeta.
  destruct (pdfplaca_draw_h_page_loop_spec
              (row_extent page_height margin (length rows))
              printable_width margin rows margin) as [Hlen [_ Hnth]].
  split; [exact Hlen|]. split; [exact Hnth|].
  now apply row_extent_fills.
Qed.


(** ** Colours *)

Local Close Scope Q_scope.

(** The three components of a colour are bytes, and together they are the
    low 24 bits of the colour: what lies above them is not looked at. *)
Theorem get_rgb_value_components (color : Z) :
  (0 <= get_r_value color < 256 /\
   0 <= get_g_value color < 256 /\
   0 <= get_b_value color < 256 /\
   get_r_value color * 65536 + get_g_value color * 256 + get_b_value color
   = color mod 2 ^ 24)%Z.
Proof.
  unfold get_r_value, get_g_value, get_b_value.
  change 0xFF%Z with (Z.ones 8).
  rewrite !Z.land_ones, !Z.shiftr_div_pow2 by lia.
  change (2 ^ 0)%Z with 1%Z. change (2 ^ 8)%Z with 256%Z.
  change (2 ^ 16)%Z with 65536%Z. change (2 ^ 24)%Z with 16777216%Z.
  Z.div_mod_to_equations. lia.
Qed.

(** ** The page of [pdfplaca_do_it] *)

Lemma bytes_eqb_eq (a b : list byte) : bytes_eqb a b = true -> a = b.
Proof.
  revert b. induction a as [|x a IH]; intros [|y b] H; try discriminate H.
  - reflexivity.
  - cbn [bytes_eqb] in H. apply andb_true_iff in H. destruct H as [E H].
    apply Byte.byte_dec_bl in E. subst y. f_equal. now apply IH.
Qed.

Lemma tcsicmp_portrait_landscape (g_orientation : list byte) :
  tcsicmp g_orientation (bytes_of "portrait") = true ->
  tcsicmp g_orientation (bytes_of "landscape") = false.
Proof.
  unfold tcsicmp. intros H. apply bytes_eqb_eq in H. rewrite H. reflexivity.
Qed.

Local Open Scope Q_scope.

(** The page that [pdfplaca_do_it] works with has the two sides of the
    page size, in points; in portrait orientation it is not wider than
    high and in landscape orientation not higher than wide, in whatever
    case the orientation is written; for every other orientation
    [pdfplaca_do_it] gives up. *)
Lemma pdfplaca_do_it_page_sides (g_orientation : list byte)
  (g_page_width g_page_height : Q) :
  match pdfplaca_do_it_page g_orientation g_page_width g_page_height with
  | Some (page_width, page_height) =>
      ((page_width = pt_from_mm g_page_width /\
        page_height = pt_from_mm g_page_height) \/
       (page_width = pt_from_mm g_page_height /\
        page_height = pt_from_mm g_page_width)) /\
      (tcsicmp g_orientation (bytes_of "portrait") = true ->
       page_width <= page_height) /\
      (tcsicmp g_orientation (bytes_of "landscape") = true ->
       page_height <= page_width)
  | None =>
      tcsicmp g_orientation (bytes_of "portrait") = false /\
      tcsicmp g_orientation (bytes_of "landscape") = false
  end.
Proof.
  unfold pdfplaca_do_it_page. cbv zeta.
  destruct (tcsicmp g_orientation (bytes_of "portrait")) eqn:Ep.
  - rewrite (tcsicmp_portrait_landscape _ Ep).
    destruct (Qltb (pt_from_mm g_page_height) (pt_from_mm g_page_width))
      eqn:E; [apply Qltb_lt in E | apply Qltb_ge in E];
      (split; [tauto|]); (split; [intros _; lra | discriminate]).
  - destruct (tcsicmp g_orientation (bytes_of "landscape")) eqn:El;
      [|split; reflexivity].
    destruct (Qltb (pt_from_mm g_page_width) (pt_from_mm g_page_height))
      eqn:E; [apply Qltb_lt in E | apply Qltb_ge in E];
      (split; [tauto|]); (split; [discriminate | intros _; lra]).
Qed.

(** ** The gaps of a row and of a column *)

Local Open Scope Q_scope.

Section DrawingFacts.

Variable cairo_text_extents : Q -> list byte -> cairo_text_extents_t.
Variable cairo_font_extents : Q -> cairo_font_extents_t.

Lemma fold_left_x_advance (font_size : Q) (chars : list (list byte)) :
  forall a : Q,
    fold_left
      (fun (text_width : Q) (text_char : list byte) =>
         text_width + te_x_advance (cairo_text_extents font_size text_char))
      chars a
    == a + fold_left
             (fun (text_width : Q) (text_char : list byte) =>
                text_width
                + te_x_advance (cairo_text_extents font_size text_char))
             chars 0.
Proof.
  induction chars as [|c chars IH]; intros a; cbn [fold_left]; [lra|].
  rewrite IH, (IH (0 + _)). lra.
Qed.

(** The width that the solver measures is the sum of the advances, which
    is what [pdf_get_total_text_width] returns. *)
Lemma pdf_get_h_text_width_is_total (font_size : Q) (utf8_text : list byte) :
  fst (pdf_get_h_text_width_and_height cairo_text_extents cairo_font_extents
         font_size (u8_split_chars [] utf8_text))
  == pdf_get_total_text_width cairo_text_extents font_size utf8_text.
Proof.
  unfold pdf_get_h_text_width_and_height, pdf_get_total_text_width.
  cbv zeta. generalize (u8_split_chars [] utf8_text). intros chars.
  assert (H : forall (w w' h : Q), w == w' ->
    fst (fold_left
      (fun (acc : Q * Q) (text_char : list byte) =>
         let (text_width, text_height) := acc in
         (text_width + te_x_advance (cairo_text_extents font_size text_char),
          if Qltb
               (if Qltb text_height
                     (te_height (cairo_text_extents font_size text_char))
                then te_height (cairo_text_extents font_size text_char)
                else text_height)
               (fe_height (cairo_font_extents font_size))
          then fe_height (cairo_font_extents font_size)
          else
            if Qltb text_height
                 (te_height (cairo_text_extents font_size text_char))
            then te_height (cairo_text_extents font_size text_char)
            else text_height))
      chars (w, h))
    == fold_left
         (fun (text_width : Q) (text_char : list byte) =>
            text_width
            + te_x_advance (cairo_text_extents font_size text_char))
         chars w').
  { induction chars as [|c chars IH]; intros w w' h Hw; cbn [fold_left fst].
    - exact Hw.
    - apply IH. now rewrite Hw. }
  apply H. reflexivity.
Qed.

Lemma pdf_draw_h_text_loop_end (g_y_adjust : Q) (chars : list (list byte))
  (y0 height each_blank_width font_size scale_x scale_y : Q) :
  forall x : Q,
    snd (pdf_draw_h_text_loop cairo_text_extents cairo_font_extents
           g_y_adjust chars x y0 height each_blank_width font_size
           scale_x scale_y)
    == x + Q_of_size (length chars) * each_blank_width
       + fold_left
           (fun (text_width : Q) (text_char : list byte) =>
              text_width
              + te_x_advance (cairo_text_extents font_size text_char))
           chars 0 * scale_x.
Proof.
  induction chars as [|c chars IH]; intros x.
  - cbn [pdf_draw_h_text_loop snd length fold_left].
    rewrite Q_of_size_0. lra.
  - cbn [pdf_draw_h_text_loop length fold_left].
    specialize (IH (x + each_blank_width
                    + te_x_advance (cairo_text_extents font_size c)
                      * scale_x)).
    destruct (pdf_draw_h_text_loop _ _ _ chars _ _ _ _ _ _ _)
      as [more x_end].
    cbn [snd] in *. rewrite IH, Q_of_size_S, (fold_left_x_advance _ _ (0 + _)).
    lra.
Qed.


Lemma pdf_draw_h_text_loop_length (g_y_adjust : Q) (chars : list (list byte))
  (y0 height each_blank_width font_size scale_x scale_y : Q) :
  forall x : Q,
    length (fst (pdf_draw_h_text_loop cairo_text_extents cairo_font_extents
                   g_y_adjust chars x y0 height each_blank_width font_size
                   scale_x scale_y))
    = length chars.
Proof.
  induction chars as [|c chars IH]; intros x; [reflexivity|].
  cbn [pdf_draw_h_text_loop].
  specialize (IH (x + each_blank_width
                  + te_x_advance (cairo_text_extents font_size c) * scale_x)).
  destruct (pdf_draw_h_text_loop _ _ _ chars _ _ _ _ _ _ _) as [more x_end].
  cbn [fst length] in *. now rewrite IH.
Qed.

(** When [pdf_draw_h_text] draws a row, it draws every character of the
    text, and the characters are spread over the row with equal gaps: a
    gap in front of every character and, behind the last character, one
    gap more up to the right end of the box.  The gaps and the width that
    the solver has measured, scaled, are the width of the box. *)
Theorem pdf_draw_h_text_fills_row
  (extents : cairo_text_extents_t) (g_y_adjust : Q) (fuel : nat)
  (text : list byte) (x0 y0 width height threshold : Q)
  (drawn : list glyph_placement) :
  pdf_draw_h_text cairo_text_extents cairo_font_extents extents g_y_adjust
    fuel text x0 y0 width height threshold = Returns (Some drawn) ->
  exists r : FitResult,
    pdf_scaling_h_text cairo_text_extents cairo_font_extents extents fuel
      text width height threshold = Returns (Some r) /\
    let chars := u8_split_chars [] text in
    let each_blank_width :=
      h_each_blank_width cairo_text_extents text width r in
    let run :=
      pdf_draw_h_text_loop cairo_text_extents cairo_font_extents g_y_adjust
        chars x0 y0 height each_blank_width
        (fit_font_size r) (fit_scale_x r) (fit_scale_y r) in
    drawn = fst run /\
    length drawn = length chars /\
    snd run + each_blank_width == x0 + width /\
    (Q_of_size (length chars) + 1) * each_blank_width
    + fst (pdf_get_h_text_width_and_height cairo_text_extents
             cairo_font_extents (fit_font_size r) chars) * fit_scale_x r
    == width.
Proof.
  unfold pdf_draw_h_text. destruct (is_empty text); [discriminate|].
  destruct (pdf_scaling_h_text _ _ _ _ _ _ _ _) as [[r|]|];
    try discriminate.
  cbv zeta. intros [= <-]. exists r. split; [reflexivity|].
  split; [reflexivity|]. split; [apply pdf_draw_h_text_loop_length|].
  pose proof (Q_of_size_nonneg (length (u8_split_chars [] text))) as Hn.
  assert (Hgap : (Q_of_size (length (u8_split_chars [] text)) + 1)
                 * h_each_blank_width cairo_text_extents text width r
                 + pdf_get_total_text_width cairo_text_extents
                     (fit_font_size r) text * fit_scale_x r
                 == width).
  { unfold h_each_blank_width. cbv zeta. field. lra. }
  split.
  - rewrite pdf_draw_h_text_loop_end.
    fold (pdf_get_total_text_width cairo_text_extents (fit_font_size r) text).
    lra.
  - rewrite pdf_get_h_text_width_is_total. exact Hgap.
Qed.

(** *** Columns *)

(** What the loop of [pdf_draw_v_text] adds to [y] for a character is
    what [pdf_get_v_text_width_and_height] adds to the height of the
    column for it. *)
Lemma pdf_draw_v_text_chars_end (chars : list (list byte))
  (x0 width font_size : Q) (l : v_layout) :
  forall y w h : Q,
    snd (pdf_draw_v_text_chars cairo_text_extents chars x0 y width
           font_size l)
    + h * v_scale_y l
    == y + Q_of_size (length chars) * v_each_blank_height l
       + snd (fold_left
                (fun (acc : Q * Q) (text_char : list byte) =>
                   let (text_width, text_height) := acc in
                   let extents := cairo_text_extents font_size text_char in
                   if u8_is_space text_char then
                     ((if Qltb text_width (te_width extents)
                       then te_width extents else text_width),
                      text_height + te_x_advance extents)
                   else if u8_is_small_kana text_char then
                     ((if Qltb text_width
                            (te_width extents * SMALL_KANA_RATIO)
                       then te_width extents * SMALL_KANA_RATIO
                       else text_width),
                      text_height + te_height extents * SMALL_KANA_RATIO)
                   else if u8_is_hyphen_dash text_char then
                     ((if Qltb text_width (te_height extents)
                       then te_height extents else text_width),
                      text_height + te_width extents)
                   else if u8_is_paren_type_1 text_char
                           || u8_is_paren_type_2 text_char
                           || u8_is_paren_type_3 text_char then
                     ((if Qltb text_width (te_height extents)
                       then te_height extents else text_width),
                      text_height + te_width extents)
                   else
                     ((if Qltb text_width (te_width extents)
                       then te_width extents else text_width),
                      text_height + te_height extents))
                chars (w, h)) * v_scale_y l.
Proof.
  induction chars as [|c chars IH]; intros y w h.
  - cbn [pdf_draw_v_text_chars snd length fold_left].
    rewrite Q_of_size_0. lra.
  - cbn [pdf_draw_v_text_chars length fold_left]. cbv zeta.
    rewrite Q_of_size_S.
    destruct (u8_is_space c);
      [|destruct (u8_is_small_kana c);
        [|destruct (u8_is_hyphen_dash c);
          [|destruct (u8_is_paren_type_1 c || u8_is_paren_type_2 c
                      || u8_is_paren_type_3 c)]]];
      match goal with
      | |- context [pdf_draw_v_text_chars _ chars _ ?y' _ _ _] =>
          match goal with
          | |- context [fold_left _ chars (?w', ?h')] =>
              specialize (IH y' w' h')
          end
      end;
      destruct (pdf_draw_v_text_chars _ chars _ _ _ _ _) as [more y_end];
      cbn [snd] in *; lra.
Qed.

(** The loop that narrows the gaps keeps the gap at what is left of the
    height, shared among the characters and one. *)
Lemma pdf_draw_v_text_loop_gap (chars : list (list byte))
  (height font_size : Q) (fuel : nat) :
  forall (scale_x scale_y each_blank_height : Q) (l : v_layout),
    each_blank_height
    == (height
        - snd (pdf_get_v_text_width_and_height cairo_text_extents font_size
                 chars) * scale_y)
       / (Q_of_size (length chars) + 1) ->
    pdf_draw_v_text_loop cairo_text_extents fuel chars height font_size
      scale_x scale_y each_blank_height = Returns l ->
    v_each_blank_height l
    == (height
        - snd (pdf_get_v_text_width_and_height cairo_text_extents font_size
                 chars) * v_scale_y l)
       / (Q_of_size (length chars) + 1) /\
    font_size / 5 <= v_each_blank_height l.
Proof.
  induction fuel as [|fuel IH];
    intros scale_x scale_y each_blank_height l Hgap; [discriminate|].
  cbn [pdf_draw_v_text_loop].
  destruct (Qltb each_blank_height (font_size / 5)) eqn:E.
  - cbv zeta.
    destruct (pdf_get_v_text_width_and_height cairo_text_extents font_size
                chars) as [text_width text_height] eqn:Em.
    apply IH. cbn [snd]. reflexivity.
  - intros [= <-]. cbn [v_each_blank_height v_scale_y].
    split; [exact Hgap|]. now apply Qltb_ge.
Qed.

Lemma pdf_draw_v_text_gaps_fill (fuel : nat) (chars : list (list byte))
  (x0 y0 width height : Q) (r : FitResult) (l : v_layout) :
  pdf_draw_v_text_gaps cairo_text_extents fuel chars height r = Returns l ->
  snd (pdf_draw_v_text_chars cairo_text_extents chars x0 y0 width
         (fit_font_size r) l)
  + v_each_blank_height l == y0 + height /\
  fit_font_size r / 5 <= v_each_blank_height l.
Proof.
  unfold pdf_draw_v_text_gaps. cbv zeta.
  destruct (pdf_get_v_text_width_and_height cairo_text_extents
              (fit_font_size r) chars) as [text_width text_height] eqn:Em.
  intros H. apply pdf_draw_v_text_loop_gap in H;
    [|rewrite Em; cbn [snd]; reflexivity].
  destruct H as [Hgap Hfifth]. split; [|exact Hfifth].
  assert (Hend : snd (pdf_draw_v_text_chars cairo_text_extents chars x0 y0
                        width (fit_font_size r) l)
                 + 0 * v_scale_y l
                 == y0 + Q_of_size (length chars) * v_each_blank_height l
                    + snd (pdf_get_v_text_width_and_height cairo_text_extents
                             (fit_font_size r) chars) * v_scale_y l)
    by exact (pdf_draw_v_text_chars_end chars x0 width (fit_font_size r) l
                y0 0 0).
  pose proof (Q_of_size_nonneg (length chars)) as Hn.
  assert (Hall : (Q_of_size (length chars) + 1) * v_each_blank_height l
                 + snd (pdf_get_v_text_width_and_height cairo_text_extents
                          (fit_font_size r) chars) * v_scale_y l
                 == height).
  { rewrite Hgap. field. lra. }
  lra.
Qed.


(** When [pdf_draw_v_text] has fixed the gap for a column, a fifth of the
    font size or more, the characters are spread over the column with
    that gap: a gap above every character and, below the last character,
    one gap more down to the lower end of the box.  What the drawing
    moves down by for a character is what the solver has measured for
    it. *)
Theorem pdf_draw_v_text_fills_column (font_is_cjk : bool)
  (u8_locale_map_text : list byte -> list byte) (fuel : nat)
  (text : list byte) (x0 y0 width height threshold : Q) (l : v_layout) :
  pdf_draw_v_text cairo_text_extents font_is_cjk u8_locale_map_text fuel
    text width height threshold = Returns (Some l) ->
  let mapped_text := if font_is_cjk then u8_locale_map_text text else text in
  let chars := u8_split_chars [] (c_str mapped_text) in
  exists r : FitResult,
    pdf_scaling_v_text cairo_text_extents fuel (c_str mapped_text) width
      height threshold = Returns (Some r) /\
    snd (pdf_draw_v_text_chars cairo_text_extents chars x0 y0 width
           (fit_font_size r) l)
    + v_each_blank_height l == y0 + height /\
    fit_font_size r / 5 <= v_each_blank_height l.
Proof.
  unfold pdf_draw_v_text. destruct (is_empty text); [discriminate|].
  cbv zeta.
  destruct (pdf_scaling_v_text _ _ _ _ _ _) as [[r|]|]; try discriminate.
  destruct (pdf_draw_v_text_gaps _ _ _ _ _) as [l'|] eqn:Eg;
    [|discriminate].
  intros [= <-]. exists r. split; [reflexivity|].
  now apply (pdf_draw_v_text_gaps_fill fuel).
Qed.

End DrawingFacts.

Lemma pdf_draw_h_text_fills_row_witness :
  exists (drawn : list glyph_placement) (r : FitResult),
    pdf_draw_h_text sample_text_extents sample_font_extents extents_nonzero 0
      200 (bytes_of "This is") 8 8 796 250 1.5 = Returns (Some drawn) /\
    pdf_scaling_h_text sample_text_extents sample_font_extents
      extents_nonzero 200 (bytes_of "This is") 796 250 1.5
    = Returns (Some r) /\
    let chars := u8_split_chars [] (bytes_of "This is") in
    let each_blank_width :=
      h_each_blank_width sample_text_extents (bytes_of "This is") 796 r in
    let run :=
      pdf_draw_h_text_loop sample_text_extents sample_font_extents 0
        chars 8 8 250 each_blank_width
        (fit_font_size r) (fit_scale_x r) (fit_scale_y r) in
    drawn = fst run /\
    length drawn = length chars /\
    snd run + each_blank_width == 8 + 796 /\
    (Q_of_size (length chars) + 1) * each_blank_width
    + fst (pdf_get_h_text_width_and_height sample_text_extents
             sample_font_extents (fit_font_size r) chars) * fit_scale_x r
    == 796.
Proof.
  eexists.
  assert (H : pdf_draw_h_text sample_text_extents sample_font_extents
                extents_nonzero 0 200 (bytes_of "This is") 8 8 796 250 1.5
              = Returns (Some _)) by (vm_compute; reflexivity).
  destruct (pdf_draw_h_text_fills_row sample_text_extents sample_font_extents
              extents_nonzero 0 200 (bytes_of "This is") 8 8 796 250 1.5 _ H)
    as [r Hr].
  exists r. split; [exact H | exact Hr].
Defined.

Lemma pdf_draw_v_text_fills_column_witness :
  exists (l : v_layout) (r : FitResult),
    pdf_draw_v_text sample_text_extents false (fun text => text) 200
      (bytes_of "AB") 100 100 1.5 = Returns (Some l) /\
    pdf_scaling_v_text sample_text_extents 200 (c_str (bytes_of "AB")) 100
      100 1.5 = Returns (Some r) /\
    snd (pdf_draw_v_text_chars sample_text_extents
           (u8_split_chars [] (c_str (bytes_of "AB"))) 8 8 100
           (fit_font_size r) l)
    + v_each_blank_height l == 8 + 100 /\
    fit_font_size r / 5 <= v_each_blank_height l.
Proof.
  eexists.
  assert (H : pdf_draw_v_text sample_text_extents false (fun text => text)
                200 (bytes_of "AB") 100 100 1.5 = Returns (Some _))
    by (vm_compute; reflexivity).
  destruct (pdf_draw_v_text_fills_column sample_text_extents false
              (fun text => text) 200 (bytes_of "AB") 8 8 100 100 1.5 _ H)
    as [r Hr].
  exists r. split; [exact H | exact Hr].
Defined.

(** ** A fitted row stays in its box *)

Local Open Scope Q_scope.

Lemma Qmult_lt_r_pos (t r k : Q) : 0 < k -> t < r -> t * k < r * k.
Proof.
  intros Hk Htr. apply Qmult_lt_compat_r; assumption.
Qed.

(** With positive measures and factors the correction of the horizontal
    solver leaves positive factors and enlarges none. *)
Lemma h_aspect_correction_shrinks
  (text_width text_height len scale_x scale_y threshold : Q) :
  0 < text_width -> 0 < text_height -> 0 < len ->
  0 < scale_x -> 0 < scale_y -> 0 < threshold ->
  let p := h_aspect_correction text_width text_height len scale_x scale_y
             threshold in
  0 < fst p /\ fst p <= scale_x /\ 0 < snd p /\ snd p <= scale_y.
Proof.
  intros HW HH HN Hsx Hsy HT. cbv zeta.
  assert (Hx : let sx := fst (h_aspect_correction text_width text_height len
                               scale_x scale_y threshold) in
               0 < sx /\ sx <= scale_x).
  { unfold h_aspect_correction. cbv zeta.
    destruct (h_width_over text_width text_height len scale_x scale_y
                threshold) eqn:E1;
      (destruct (h_height_over _ _ _ _ _ _); cbn [fst]); try lra.
    - split; [Qpos|]. unfold h_width_over in E1. apply Qltb_lt in E1.
      assert (Hk : 0 < text_height * scale_y * len / text_width) by Qpos.
      pose proof (Qmult_lt_r_pos _ _ _ Hk E1) as H.
      assert (E : text_width * scale_x / len / (text_height * scale_y)
                  * (text_height * scale_y * len / text_width) == scale_x)
        by (field; repeat split; lra).
      assert (E' : threshold * (text_height * scale_y) * len / text_width
                   == threshold * (text_height * scale_y * len / text_width))
        by (field; lra).
      rewrite E in H. rewrite E'. lra.
    - split; [Qpos|]. unfold h_width_over in E1. apply Qltb_lt in E1.
      assert (Hk : 0 < text_height * scale_y * len / text_width) by Qpos.
      pose proof (Qmult_lt_r_pos _ _ _ Hk E1) as H.
      assert (E : text_width * scale_x / len / (text_height * scale_y)
                  * (text_height * scale_y * len / text_width) == scale_x)
        by (field; repeat split; lra).
      assert (E' : threshold * (text_height * scale_y) * len / text_width
                   == threshold * (text_height * scale_y * len / text_width))
        by (field; lra).
      rewrite E in H. rewrite E'. lra. }
  cbv zeta in Hx. destruct Hx as [Hx0 Hx1]. split; [exact Hx0|].
  split; [exact Hx1|].
  unfold h_aspect_correction in *. cbv zeta in *.
  set (sx := if h_width_over text_width text_height len scale_x scale_y
                  threshold
             then threshold * (text_height * scale_y) * len / text_width
             else scale_x) in *.
  cbn [fst] in Hx0, Hx1.
  destruct (h_height_over text_width text_height len sx scale_y threshold)
    eqn:E2; cbn [snd]; [|lra].
  split; [Qpos|]. unfold h_height_over in E2. apply Qltb_lt in E2.
  assert (Hk : 0 < text_width * sx / len / text_height) by Qpos.
  pose proof (Qmult_lt_r_pos _ _ _ Hk E2) as H.
  assert (E : text_height * scale_y / (text_width * sx / len)
              * (text_width * sx / len / text_height) == scale_y)
    by (field; repeat split; lra).
  assert (E' : threshold * (text_width * sx / len) / text_height
               == threshold * (text_width * sx / len / text_height))
    by (field; lra).
  rewrite E in H. rewrite E'. lra.
Qed.

Section HorizontalFit.

Variable cairo_text_extents : Q -> list byte -> cairo_text_extents_t.
Variable cairo_font_extents : Q -> cairo_font_extents_t.
Variable extents : cairo_text_extents_t.
Variable chars : list (list byte).
Variables width height threshold : Q.

(** The measures of the row grow in proportion when the font size grows
    by a tenth, and they are positive from the size 10 on. *)
Hypothesis measures_scale :
  forall font_size : Q,
    10 <= font_size ->
    fst (pdf_get_h_text_width_and_height cairo_text_extents
           cairo_font_extents (font_size * 1.1) chars)
    == fst (pdf_get_h_text_width_and_height cairo_text_extents
              cairo_font_extents font_size chars) * 1.1 /\
    snd (pdf_get_h_text_width_and_height cairo_text_extents
           cairo_font_extents (font_size * 1.1) chars)
    == snd (pdf_get_h_text_width_and_height cairo_text_extents
              cairo_font_extents font_size chars) * 1.1.

Hypothesis measures_positive :
  forall font_size : Q,
    10 <= font_size ->
    0 < fst (pdf_get_h_text_width_and_height cairo_text_extents
               cairo_font_extents font_size chars) /\
    0 < snd (pdf_get_h_text_width_and_height cairo_text_extents
               cairo_font_extents font_size chars).

(** A row that is in the box stays in the box through the loop. *)
Lemma pdf_scaling_h_text_loop_fits (fuel : nat) :
  forall (font_size scale_x scale_y : Q) (r : FitResult),
    10 <= font_size -> 0 < scale_x -> 0 < scale_y ->
    fst (pdf_get_h_text_width_and_height cairo_text_extents
           cairo_font_extents font_size chars) * scale_x <= width ->
    snd (pdf_get_h_text_width_and_height cairo_text_extents
           cairo_font_extents font_size chars) * scale_y <= height ->
    pdf_scaling_h_text_loop cairo_text_extents cairo_font_extents
      extents fuel chars width height threshold font_size scale_x scale_y
    = Returns (Some r) ->
    10 <= fit_font_size r /\ 0 < fit_scale_x r /\ 0 < fit_scale_y r /\
    fst (pdf_get_h_text_width_and_height cairo_text_extents
           cairo_font_extents (fit_font_size r) chars) * fit_scale_x r
    <= width /\
    snd (pdf_get_h_text_width_and_height cairo_text_extents
           cairo_font_extents (fit_font_size r) chars) * fit_scale_y r
    <= height.
Proof.
  induction fuel as [|fuel IH];
    intros font_size scale_x scale_y r Hf Hx Hy HW HH;
    cbn [pdf_scaling_h_text_loop]; [discriminate|].
  destruct (measures_scale font_size Hf) as [Lw Lh].
  destruct (measures_positive font_size Hf) as [Pw Ph].
  destruct (pdf_get_h_text_width_and_height cairo_text_extents
              cairo_font_extents font_size chars)
    as [text_width text_height] eqn:Em.
  cbn [fst snd] in *.
  assert (Pwx : 0 < text_width * scale_x) by Qpos.
  assert (Phy : 0 < text_height * scale_y) by Qpos.
  destruct (_ || _ || _); [discriminate|].
  destruct (Qltb (text_width * scale_x) (width * 0.9)
            && Qltb (text_height * scale_y) (height * 0.9)) eqn:Eg.
  { apply andb_prop in Eg. destruct Eg as [E1 E2].
    apply Qltb_lt in E1, E2.
    apply IH; try lra.
    - rewrite Lw. lra.
    - rewrite Lh. lra. }
  destruct (Qltb threshold 1.1).
  { intros [= <-]. cbn [fit_font_size fit_scale_x fit_scale_y].
    rewrite Em. cbn [fst snd]. repeat split; assumption. }
  destruct (Qltb (text_width * scale_x) (width * 0.9)) eqn:Ex.
  { apply Qltb_lt in Ex. apply IH; try lra;
      rewrite Em; cbn [fst snd]; lra. }
  destruct (Qltb (text_height * scale_y) (height * 0.9)) eqn:Ey.
  { apply Qltb_lt in Ey. apply IH; try lra;
      rewrite Em; cbn [fst snd]; lra. }
  intros [= <-]. cbn [fit_font_size fit_scale_x fit_scale_y].
  rewrite Em. cbn [fst snd]. repeat split; assumption.
Qed.

End HorizontalFit.

(** A row that is in its box at the font size 10, and whose measures are
    positive and grow in proportion with the font size, is in its box
    when [pdf_scaling_h_text] has fitted it: its width and its height,
    scaled, are not above those of the box, and the gaps that
    [pdf_draw_h_text] then leaves between the characters are not
    negative. *)
Theorem pdf_scaling_h_text_fits
  (cairo_text_extents : Q -> list byte -> cairo_text_extents_t)
  (cairo_font_extents : Q -> cairo_font_extents_t)
  (extents : cairo_text_extents_t) (fuel : nat) (utf8_text : list byte)
  (width height threshold : Q) (r : FitResult) :
  let text_width := fun font_size : Q =>
    fst (pdf_get_h_text_width_and_height cairo_text_extents
           cairo_font_extents font_size (u8_split_chars [] utf8_text)) in
  let text_height := fun font_size : Q =>
    snd (pdf_get_h_text_width_and_height cairo_text_extents
           cairo_font_extents font_size (u8_split_chars [] utf8_text)) in
  (forall font_size : Q,
     10 <= font_size ->
     text_width (font_size * 1.1) == text_width font_size * 1.1 /\
     text_height (font_size * 1.1) == text_height font_size * 1.1) ->
  (forall font_size : Q,
     10 <= font_size ->
     0 < text_width font_size /\ 0 < text_height font_size) ->
  (0 < u8_len utf8_text)%nat ->
  0 < threshold ->
  text_width 10 <= width -> text_height 10 <= height ->
  pdf_scaling_h_text cairo_text_extents cairo_font_extents extents fuel
    utf8_text width height threshold = Returns (Some r) ->
  text_width (fit_font_size r) * fit_scale_x r <= width /\
  text_height (fit_font_size r) * fit_scale_y r <= height /\
  0 <= h_each_blank_width cairo_text_extents utf8_text width r.
Proof.
  cbv beta zeta. intros Hscale Hpos Hlen HT HW HH Hret.
  destruct (pdf_scaling_h_text_returns _ _ _ _ _ _ _ _ _ Hret)
    as [r0 [Hloop [Hfs Hcorr]]].
  apply (pdf_scaling_h_text_loop_fits cairo_text_extents cairo_font_extents
           extents (u8_split_chars [] utf8_text) width height threshold
           Hscale Hpos) in Hloop; try lra.
  destruct Hloop as [H10 [Hx [Hy [Hw Hh]]]].
  destruct (Hpos (fit_font_size r0) H10) as [Pw Ph].
  pose proof (h_aspect_correction_shrinks _ _ _ _ _ threshold Pw Ph
                (Q_of_size_pos _ Hlen) Hx Hy HT) as Hs.
  cbv zeta in Hs. rewrite <- Hcorr in Hs. cbn [fst snd] in Hs.
  destruct Hs as [Hx0 [Hx1 [Hy0 Hy1]]].
  rewrite Hfs.
  assert (Hw' : fst (pdf_get_h_text_width_and_height cairo_text_extents
                       cairo_font_extents (fit_font_size r0)
                       (u8_split_chars [] utf8_text)) * fit_scale_x r
                <= width).
  { apply Qle_trans with (2 := Hw). apply Qmult_le_l; assumption. }
  split; [exact Hw'|]. split.
  - apply Qle_trans with (2 := Hh). apply Qmult_le_l; assumption.
  - unfold h_each_blank_width. cbv zeta.
    rewrite <- pdf_get_h_text_width_is_total with
      (cairo_font_extents := cairo_font_extents).
    rewrite Hfs.
    pose proof (Q_of_size_nonneg (length (u8_split_chars [] utf8_text))).
    apply Qle_shift_div_l; lra.
Qed.

(** The measures of a row of one letter in the font of letters. *)
Lemma letter_row_measures (font_size : Q) (ch : list byte) :
  0 < font_size ->
  pdf_get_h_text_width_and_height letter_text_extents sample_font_extents
    font_size [ch]
  = (0 + 0.6 * font_size, 1.15 * font_size).
Proof.
  intros Hf. unfold pdf_get_h_text_width_and_height. cbn [fold_left].
  cbv zeta. unfold letter_text_extents, sample_font_extents, scaled_glyph.
  cbn [te_height te_x_advance fe_height].
  assert (E1 : Qltb 0 (0.7 * font_size) = true) by (apply Qltb_lt; lra).
  rewrite E1.
  assert (E2 : Qltb (0.7 * font_size) (1.15 * font_size) = true)
    by (apply Qltb_lt; lra).
  rewrite E2. reflexivity.
Qed.

Lemma pdf_scaling_h_text_fits_witness :
  exists r : FitResult,
    pdf_scaling_h_text letter_text_extents sample_font_extents
      extents_nonzero 200 (bytes_of "A") 796 250 1.5 = Returns (Some r) /\
    fst (pdf_get_h_text_width_and_height letter_text_extents
           sample_font_extents (fit_font_size r)
           (u8_split_chars [] (bytes_of "A"))) * fit_scale_x r <= 796 /\
    snd (pdf_get_h_text_width_and_height letter_text_extents
           sample_font_extents (fit_font_size r)
           (u8_split_chars [] (bytes_of "A"))) * fit_scale_y r <= 250 /\
    0 <= h_each_blank_width letter_text_extents (bytes_of "A") 796 r.
Proof.
  eexists.
  assert (H : pdf_scaling_h_text letter_text_extents sample_font_extents
                extents_nonzero 200 (bytes_of "A") 796 250 1.5
              = Returns (Some _)) by (vm_compute; reflexivity).
  split; [exact H|].
  apply (pdf_scaling_h_text_fits letter_text_extents sample_font_extents
           extents_nonzero 200 (bytes_of "A") 796 250 1.5 _).
  - intros font_size Hf.
    change (u8_split_chars [] (bytes_of "A")) with [bytes_of "A"].
    rewrite !letter_row_measures by lra. cbn [fst snd]. split; ring.
  - intros font_size Hf.
    change (u8_split_chars [] (bytes_of "A")) with [bytes_of "A"].
    rewrite !letter_row_measures by lra. cbn [fst snd]. split; lra.
  - vm_compute. lia.
  - reflexivity.
  - vm_compute. discriminate.
  - vm_compute. discriminate.
  - exact H.
Defined.

Lemma pdf_scaling_h_text_ends_witness :
  exists (fuel : nat) (x : option FitResult),
    pdf_scaling_h_text letter_text_extents sample_font_extents
      extents_nonzero fuel (bytes_of "A") 796 250 1.5 = Returns x.
Proof.
  apply (pdf_scaling_h_text_ends letter_text_extents sample_font_extents
           extents_nonzero (bytes_of "A") 796 250 1.5).
  intros font_size Hf.
  change (u8_split_chars [] (bytes_of "A")) with [bytes_of "A"].
  rewrite !letter_row_measures by lra. cbn [fst snd]. split; lra.
Defined.

(** ** The correction of the vertical solver *)

Local Open Scope Q_scope.

(** With positive measures and factors and a threshold of 1 or more, the
    correction of the vertical solver leaves positive factors and both
    quotients within the threshold. *)
Lemma v_aspect_correction_cap
  (text_width text_height len scale_x scale_y threshold : Q) :
  0 < text_width -> 0 < text_height -> 0 < len ->
  0 < scale_x -> 0 < scale_y -> 1 <= threshold ->
  let p := v_aspect_correction text_width text_height len scale_x scale_y
             threshold in
  0 < fst p /\ 0 < snd p /\
  (text_width * fst p) / (text_height * snd p / len) <= threshold /\
  (text_height * snd p / len) / (text_width * fst p) <= threshold.
Proof.
  intros HW HH HN Hsx Hsy HT.
  assert (Ha : 0 < text_width * scale_x) by Qpos.
  assert (Hb : 0 < text_height * scale_y / len) by Qpos.
  unfold v_aspect_correction.
  destruct (Qltb threshold (text_width * scale_x
                            / (text_height * scale_y / len))) eqn:E1.
  - cbn [fst snd].
    assert (Hx : 0 < threshold * (text_height * scale_y / len) / text_width)
      by Qpos.
    assert (Ea : text_width
                 * (threshold * (text_height * scale_y / len) / text_width)
                 == threshold * (text_height * scale_y / len))
      by (field; split; lra).
    repeat split; try assumption.
    + rewrite Ea. apply Qle_shift_div_r; [assumption | lra].
    + rewrite Ea.
      assert (E : text_height * scale_y / len
                  / (threshold * (text_height * scale_y / len))
                  == 1 / threshold) by (field; repeat split; lra).
      rewrite E. apply Qinv_le_self. exact HT.
  - apply Qltb_ge in E1.
    destruct (Qltb threshold (text_height * scale_y / len
                              / (text_width * scale_x))) eqn:E2;
      cbn [fst snd].
    + assert (Hy : 0 < threshold * (text_width * scale_x) * len / text_height)
        by Qpos.
      assert (Eb : text_height
                   * (threshold * (text_width * scale_x) * len / text_height)
                   / len
                   == threshold * (text_width * scale_x))
        by (field; split; lra).
      repeat split; try assumption.
      * rewrite Eb.
        assert (E : text_width * scale_x / (threshold * (text_width * scale_x))
                    == 1 / threshold) by (field; repeat split; lra).
        rewrite E. apply Qinv_le_self. exact HT.
      * rewrite Eb. apply Qle_shift_div_r; [assumption | lra].
    + apply Qltb_ge in E2. repeat split; assumption.
Qed.

Section VerticalLoop.

Variable cairo_text_extents : Q -> list byte -> cairo_text_extents_t.
Variable chars : list (list byte).
Variables width height threshold : Q.

(** The loop of the vertical solver keeps the factors positive, and it
    ends with a font size at which neither measure of the column is 0. *)
Lemma pdf_scaling_v_text_loop_inv (fuel : nat) :
  forall (font_size scale_x scale_y : Q) (r : FitResult),
    0 < font_size -> 0 < scale_x -> 0 < scale_y ->
    pdf_scaling_v_text_loop cairo_text_extents fuel chars width height
      threshold font_size scale_x scale_y = Returns (Some r) ->
    font_size <= fit_font_size r /\ 0 < fit_scale_x r /\ 0 < fit_scale_y r /\
    ~ fst (pdf_get_v_text_width_and_height cairo_text_extents
             (fit_font_size r) chars) == 0 /\
    ~ snd (pdf_get_v_text_width_and_height cairo_text_extents
             (fit_font_size r) chars) == 0.
Proof.
  induction fuel as [|fuel IH]; intros font_size scale_x scale_y r Hf Hx Hy;
    cbn [pdf_scaling_v_text_loop]; [discriminate|].
  destruct (pdf_get_v_text_width_and_height cairo_text_extents font_size chars)
    as [text_width text_height] eqn:Em.
  destruct (Qle_bool 10000 font_size || Qzero text_width || Qzero text_height)
    eqn:Eg; [discriminate|].
  apply orb_false_elim in Eg. destruct Eg as [Eg Eh].
  apply orb_false_elim in Eg. destruct Eg as [_ Ew].
  assert (Hnz : ~ text_width == 0 /\ ~ text_height == 0).
  { unfold Qzero in Ew, Eh. split; intros E; apply Qeq_bool_iff in E;
      congruence. }
  destruct (_ && _).
  { intros H. apply IH in H; lra. }
  destruct (Qltb threshold 1.1).
  { intros [= <-]. cbn [fit_font_size fit_scale_x fit_scale_y].
    rewrite Em. cbn [fst snd]. repeat split; try tauto; lra. }
  destruct (Qltb (text_width * scale_x) _).
  { intros H. apply IH in H; lra. }
  destruct (Qltb (text_height * scale_y) _).
  { intros H. apply IH in H; lra. }
  intros [= <-]. cbn [fit_font_size fit_scale_x fit_scale_y].
  rewrite Em. cbn [fst snd]. repeat split; try tauto; lra.
Qed.

(** The width of a column is the largest of the widths met, from 0 on. *)
Lemma pdf_get_v_text_width_nonneg (font_size : Q) :
  0 <= fst (pdf_get_v_text_width_and_height cairo_text_extents font_size
              chars).
Proof.
  unfold pdf_get_v_text_width_and_height.
  assert (H : forall acc : Q * Q, 0 <= fst acc ->
    0 <= fst (fold_left
      (fun (acc : Q * Q) (text_char : list byte) =>
         let (text_width, text_height) := acc in
         let extents := cairo_text_extents font_size text_char in
         if u8_is_space text_char then
           ((if Qltb text_width (te_width extents)
             then te_width extents else text_width),
            text_height + te_x_advance extents)
         else if u8_is_small_kana text_char then
           ((if Qltb text_width (te_width extents * SMALL_KANA_RATIO)
             then te_width extents * SMALL_KANA_RATIO else text_width),
            text_height + te_height extents * SMALL_KANA_RATIO)
         else if u8_is_hyphen_dash text_char then
           ((if Qltb text_width (te_height extents)
             then te_height extents else text_width),
            text_height + te_width extents)
         else if u8_is_paren_type_1 text_char
                 || u8_is_paren_type_2 text_char
                 || u8_is_paren_type_3 text_char then
           ((if Qltb text_width (te_height extents)
             then te_height extents else text_width),
            text_height + te_width extents)
         else
           ((if Qltb text_width (te_width extents)
             then te_width extents else text_width),
            text_height + te_height extents))
      chars acc)).
  { induction chars as [|c cs IH]; intros [w h] Hw; [exact Hw|].
    cbn [fold_left]. apply IH. cbn [fst] in Hw. cbv zeta.
    destruct (u8_is_space c);
      [|destruct (u8_is_small_kana c);
        [|destruct (u8_is_hyphen_dash c);
          [|destruct (u8_is_paren_type_1 c || u8_is_paren_type_2 c
                      || u8_is_paren_type_3 c)]]];
      cbn [fst];
      match goal with
      | |- 0 <= (if Qltb ?a ?b then _ else _) =>
          destruct (Qltb a b) eqn:E; [apply Qltb_lt in E; lra | exact Hw]
      end. }
  apply H. cbn. lra.
Qed.

End VerticalLoop.

(** When [pdf_scaling_v_text] returns [true] for a threshold of 1 or
    more, the column having a positive height at the font size handed
    back, the width of the column over the height of a character cell,
    both scaled, is within the threshold, and so is the inverse
    quotient. *)
Theorem pdf_scaling_v_text_aspect_cap
  (cairo_text_extents : Q -> list byte -> cairo_text_extents_t)
  (fuel : nat) (utf8_text : list byte) (width height threshold : Q)
  (r : FitResult) :
  let N := Q_of_size (length (u8_split_chars [] utf8_text)) in
  let text_width :=
    fst (pdf_get_v_text_width_and_height cairo_text_extents
           (fit_font_size r) (u8_split_chars [] utf8_text)) in
  let text_height :=
    snd (pdf_get_v_text_width_and_height cairo_text_extents
           (fit_font_size r) (u8_split_chars [] utf8_text)) in
  1 <= threshold ->
  pdf_scaling_v_text cairo_text_extents fuel utf8_text width height threshold
  = Returns (Some r) ->
  0 < text_height ->
  0 < fit_scale_x r /\ 0 < fit_scale_y r /\
  (text_width * fit_scale_x r) / (text_height * fit_scale_y r / N)
  <= threshold /\
  (text_height * fit_scale_y r / N) / (text_width * fit_scale_x r)
  <= threshold.
Proof.
  cbv zeta. unfold pdf_scaling_v_text. intros HT.
  destruct (is_empty utf8_text) eqn:Ee; [discriminate|].
  destruct (pdf_scaling_v_text_loop _ _ _ _ _ _ _ _ _) as [[r0|]|] eqn:El;
    try discriminate.
  cbv zeta.
  apply pdf_scaling_v_text_loop_inv in El; try lra.
  destruct El as [_ [Hx [Hy [Hw0 _]]]].
  pose proof (pdf_get_v_text_width_nonneg cairo_text_extents
                (u8_split_chars [] utf8_text) (fit_font_size r0)) as Hw1.
  assert (HN : 0 < Q_of_size (length (u8_split_chars [] utf8_text))).
  { apply Q_of_size_pos.
    destruct (u8_split_chars [] utf8_text) as [|c cs] eqn:Ec;
      [|simpl; lia].
    assert (Hc : concat (u8_split_chars [] utf8_text) = utf8_text)
      by (unfold u8_split_chars; now rewrite u8_split_chars_loop_concat).
    rewrite Ec in Hc. simpl in Hc. subst utf8_text. discriminate Ee. }
  destruct (pdf_get_v_text_width_and_height cairo_text_extents
              (fit_font_size r0) (u8_split_chars [] utf8_text))
    as [text_width text_height] eqn:Em.
  cbn [fst snd] in *.
  destruct (v_aspect_correction text_width text_height _ _ _ _)
    as [sx sy] eqn:Ec.
  intros [= <-]. cbn [fit_font_size fit_scale_x fit_scale_y].
  rewrite Em. cbn [fst snd]. intros HH.
  assert (HW : 0 < text_width).
  { destruct (Qlt_le_dec 0 text_width) as [H|H]; [exact H|].
    exfalso. apply Hw0. lra. }
  pose proof (v_aspect_correction_cap _ _ _ _ _ _ HW HH HN Hx Hy HT) as Hcap.
  cbv zeta in Hcap. rewrite Ec in Hcap. exact Hcap.
Qed.

Lemma pdf_scaling_v_text_aspect_cap_witness :
  exists r : FitResult,
    pdf_scaling_v_text sample_text_extents 200 (bytes_of "AB") 100 100 1.5
    = Returns (Some r) /\
    let N := Q_of_size (length (u8_split_chars [] (bytes_of "AB"))) in
    let text_width :=
      fst (pdf_get_v_text_width_and_height sample_text_extents
             (fit_font_size r) (u8_split_chars [] (bytes_of "AB"))) in
    let text_height :=
      snd (pdf_get_v_text_width_and_height sample_text_extents
             (fit_font_size r) (u8_split_chars [] (bytes_of "AB"))) in
    0 < fit_scale_x r /\ 0 < fit_scale_y r /\
    (text_width * fit_scale_x r) / (text_height * fit_scale_y r / N) <= 1.5 /\
    (text_height * fit_scale_y r / N) / (text_width * fit_scale_x r) <= 1.5.
Proof.
  eexists.
  assert (H : pdf_scaling_v_text sample_text_extents 200 (bytes_of "AB")
                100 100 1.5 = Returns (Some _)) by (vm_compute; reflexivity).
  split; [exact H|].
  apply (pdf_scaling_v_text_aspect_cap sample_text_extents 200
           (bytes_of "AB") 100 100 1.5 _).
  - vm_compute. discriminate.
  - exact H.
  - vm_compute. reflexivity.
Defined.

(** ** Page sizes *)

Local Open Scope Q_scope.

Section CommandLineFacts.

Variable stscanf_lfxlf : list byte -> option (parsed_double * parsed_double).
Variable tcstod : list byte -> parsed_double * list byte.
Variable ttoi : list byte -> Z.
Variable color_value_parse : list byte -> Z.
Variable default_font : list byte.

Lemma page_size_lookup_positive (arg : list byte)
  (entries : list (list byte * Q * Q)) (width height : Q) :
  Forall (fun entry => 0 < snd (fst entry) /\ 0 < snd entry) entries ->
  page_size_lookup arg entries = Some (width, height) ->
  0 < width /\ 0 < height.
Proof.
  induction 1 as [|[[name w] h] entries Hpos _ IH]; [discriminate|].
  cbn [page_size_lookup]. destruct (tcsicmp arg name).
  - intros [= <- <-]. exact Hpos.
  - exact IH.
Qed.

Lemma s_page_size_info_positive :
  Forall (fun entry : list byte * Q * Q =>
            0 < snd (fst entry) /\ 0 < snd entry) s_page_size_info.
Proof.
  unfold s_page_size_info.
  repeat (constructor; [cbn [fst snd]; split; reflexivity|]).
  constructor.
Qed.

Lemma page_size_parse_positive (arg : list byte) (width height : Q) :
  page_size_parse stscanf_lfxlf arg = Some (width, height) ->
  0 < width /\ 0 < height.
Proof.
  unfold page_size_parse.
  destruct (page_size_lookup arg s_page_size_info) as [[w h]|] eqn:El.
  - intros [= <- <-].
    exact (page_size_lookup_positive _ _ _ _ s_page_size_info_positive El).
  - destruct (stscanf_lfxlf arg) as [[[w|] [h|]]|]; try discriminate.
    destruct (Qltb 0 w) eqn:Ew; [|discriminate].
    destruct (isnormal w); [|discriminate].
    destruct (Qltb 0 h) eqn:Eh; [|discriminate].
    destruct (isnormal h); [|discriminate].
    cbn [andb]. intros [= <- <-].
    apply Qltb_lt in Ew, Eh. split; assumption.
Qed.

(** Every page size of the table is found under its name, in whatever
    case the name is written, and the sides of a page size that
    [page_size_parse] accepts are positive, also when they come from
    [_stscanf]. *)
Theorem page_size_parse_presets :
  (forall (name : list byte) (width height : Q) (arg : list byte),
     In (name, width, height) s_page_size_info ->
     tcsicmp arg name = true ->
     page_size_parse stscanf_lfxlf arg = Some (width, height)) /\
  (forall (arg : list byte) (width height : Q),
     page_size_parse stscanf_lfxlf arg = Some (width, height) ->
     0 < width /\ 0 < height).
Proof.
  split.
  - intros name width height arg Hin Harg.
    unfold tcsicmp in Harg. apply bytes_eqb_eq in Harg.
    unfold page_size_parse, s_page_size_info in *.
    cbn [page_size_lookup]. unfold tcsicmp. rewrite Harg.
    cbn [In] in Hin.
    repeat (destruct Hin as [Hin|Hin];
            [injection Hin as <- <- <-; reflexivity|]).
    destruct Hin.
  - exact page_size_parse_positive.
Qed.

Lemma isnormal_8 : isnormal 8 = true.
Proof.
  vm_compute. reflexivity.
Qed.

(** ** The command line *)

(** [--threshold] is checked against the margin and not against the
    threshold.  With the margin of 8 that the program starts with, every
    threshold that [_tcstod] reads to the end of the argument is taken,
    be it 0, negative, infinite or no number.  And behind a [--margin]
    below 1, [--threshold] is refused whatever its value is, while in
    front of that [--margin] it is taken. *)
Theorem pdfplaca_parse_cmdline_threshold
  (program value : list byte) (threshold : parsed_double) :
  tcstod value = (threshold, []) ->
  (exists g : globals,
     pdfplaca_parse_cmdline stscanf_lfxlf tcstod ttoi color_value_parse
       default_font [program; bytes_of "--threshold"; value] = Some g /\
     g_threshold g = threshold /\ g_margin g = 8) /\
  (forall (margin_value : list byte) (margin : Q),
     tcstod margin_value = (Finite margin, []) ->
     isnormal margin = true -> 0 < margin -> margin < 1 ->
     pdfplaca_parse_cmdline stscanf_lfxlf tcstod ttoi color_value_parse
       default_font
       [program; bytes_of "--margin"; margin_value;
        bytes_of "--threshold"; value] = None /\
     exists g : globals,
       pdfplaca_parse_cmdline stscanf_lfxlf tcstod ttoi color_value_parse
         default_font
         [program; bytes_of "--threshold"; value;
          bytes_of "--margin"; margin_value] = Some g /\
       g_threshold g = threshold /\ g_margin g = margin).
Proof.
  intros Hv. unfold pdfplaca_parse_cmdline. cbn [tl]. split.
  - eexists. split; [|split].
    + cbn -[globals_default isnormal]. rewrite Hv.
      cbn -[globals_default isnormal].
      change (g_margin (globals_default stscanf_lfxlf default_font)) with 8.
      rewrite isnormal_8. cbn -[globals_default]. reflexivity.
    + reflexivity.
    + reflexivity.
  - intros margin_value margin Hm Hn H0 H1.
    assert (E0 : Qle_bool margin 0 = false) by (apply Qle_bool_false; lra).
    assert (E1 : Qltb margin 1 = true) by (apply Qltb_lt; lra).
    split.
    + cbn -[globals_default isnormal]. rewrite Hm.
      cbn -[globals_default isnormal]. rewrite Hn, E0.
      cbn -[globals_default isnormal]. rewrite Hv.
      cbn -[globals_default isnormal]. rewrite ?Hn, E1. reflexivity.
    + eexists. split; [|split].
      * cbn -[globals_default isnormal]. rewrite Hv.
        cbn -[globals_default isnormal].
        change (g_margin (globals_default stscanf_lfxlf default_font))
          with 8.
        rewrite isnormal_8. cbn -[globals_default isnormal]. rewrite Hm.
        cbn -[globals_default isnormal]. rewrite Hn, E0.
        cbn -[globals_default]. reflexivity.
      * reflexivity.
      * reflexivity.
Qed.

End CommandLineFacts.

Lemma pdfplaca_parse_cmdline_threshold_witness :
  (exists g : globals,
     pdfplaca_parse_cmdline sample_stscanf sample_tcstod (fun _ => 0%Z)
       (fun _ => 0%Z) (bytes_of "Tahoma")
       [bytes_of "pdfplaca"; bytes_of "--threshold"; bytes_of "0"] = Some g /\
     g_threshold g = Finite 0 /\ g_margin g = 8) /\
  (forall (margin_value : list byte) (margin : Q),
     sample_tcstod margin_value = (Finite margin, []) ->
     isnormal margin = true -> 0 < margin -> margin < 1 ->
     pdfplaca_parse_cmdline sample_stscanf sample_tcstod (fun _ => 0%Z)
       (fun _ => 0%Z) (bytes_of "Tahoma")
       [bytes_of "pdfplaca"; bytes_of "--margin"; margin_value;
        bytes_of "--threshold"; bytes_of "0"] = None /\
     exists g : globals,
       pdfplaca_parse_cmdline sample_stscanf sample_tcstod (fun _ => 0%Z)
         (fun _ => 0%Z) (bytes_of "Tahoma")
         [bytes_of "pdfplaca"; bytes_of "--threshold"; bytes_of "0";
          bytes_of "--margin"; margin_value] = Some g /\
       g_threshold g = Finite 0 /\ g_margin g = margin).
Proof.
  apply (pdfplaca_parse_cmdline_threshold sample_stscanf sample_tcstod
           (fun _ => 0%Z) (fun _ => 0%Z) (bytes_of "Tahoma")
           (bytes_of "pdfplaca") (bytes_of "0") (Finite 0)).
  reflexivity.
Defined.

(** ** The text of [pdfplaca_do_it] *)

Lemma rank_of_zero (two one : Z -> bool) (cps : list Z) :
  (rank_of two one cps =? 0)%Z = negb (existsb two cps || existsb one cps).
Proof.
  unfold rank_of. destruct (existsb two cps), (existsb one cps); reflexivity.
Qed.

(** What makes [u8_is_korean_text] answer 1 makes [u8_is_chinese_text]
    answer 1. *)
Lemma korean_other_chinese_range (u32 : Z) :
  korean_other u32 = true -> chinese_range u32 = true.
Proof.
  unfold korean_other, chinese_range.
  destruct (in_range 0x4E00 0x9FFF u32); [reflexivity|].
  destruct (in_range 0xF900 0xFAFF u32); [reflexivity|].
  destruct (in_range 0x2F00 0x2FDF u32); [reflexivity|].
  destruct (in_range 0x2E80 0x2EFF u32); [reflexivity|].
  destruct (in_range 0x3000 0x303F u32); [|discriminate].
  intros _. now rewrite !orb_true_r.
Qed.

Lemma existsb_korean_other (cps : list Z) :
  existsb chinese_range cps = false -> existsb korean_other cps = false.
Proof.
  induction cps as [|cp cps IH]; [reflexivity|].
  cbn [existsb]. intros H. apply orb_false_elim in H. destruct H as [H1 H2].
  rewrite (IH H2), orb_false_r.
  destruct (korean_other cp) eqn:E; [|reflexivity].
  apply korean_other_chinese_range in E. congruence.
Qed.

(** For a text that is UTF-8 the first of three tests that the text
    answers to decides which font test is made: the Japanese one when the
    text has a kana, a kanji, a full-width form or a CJK symbol, so for
    every text with a Chinese character from U+4E00 to U+9FCB; the Chinese
    one when it has none of these but another code point of the Chinese
    ranges; the Korean one when it has none of all these but a hangul.
    When the font fails the test, the text becomes the error message, in
    Arial and in rows.  Then the text is unescaped and every tab in it
    becomes three blanks. *)
Theorem pdfplaca_do_it_text_script (NDEBUG : bool) (beyond : nat -> byte)
  (font_japanese font_chinese font_korean : bool) (cps : list Z)
  (font_name : list byte) (g_vertical : bool) :
  Forall code_point cps ->
  let c := {| ct_utf8_text := u8_encode_all cps;
              ct_utf8_font_name := font_name;
              ct_vertical := g_vertical |} in
  let error := fun message : list byte =>
    {| ct_utf8_text := message;
       ct_utf8_font_name := bytes_of "Arial";
       ct_vertical := false |} in
  let picked :=
    if existsb japanese_kana cps || existsb japanese_other cps then
      if font_japanese then c
      else error (bytes_of "   Error:   
Not Japanese font")
    else if existsb chinese_range cps then
      if font_chinese then c
      else error (bytes_of "   Error:   
Not Chinese font")
    else if existsb korean_hangul cps then
      if font_korean then c
      else error (bytes_of "   Error:   
Not Korean font")
    else c in
  pdfplaca_do_it_script NDEBUG beyond font_japanese font_chinese font_korean c
  = Returns (Some picked) /\
  pdfplaca_do_it_text NDEBUG beyond font_japanese font_chinese font_korean
    (u8_encode_all cps) font_name g_vertical
  = Returns
      (Some {| ct_utf8_text :=
                 substitute x09 (bytes_of "   ")
                   (mstr_unescape (c_str (ct_utf8_text picked)));
               ct_utf8_font_name := ct_utf8_font_name picked;
               ct_vertical := ct_vertical picked |}) /\
  (forall cp : Z, in_range 0x4E00 0x9FCB cp = true ->
                  japanese_other cp = true).
Proof.
  intros Hcps c error picked.
  assert (Hs : pdfplaca_do_it_script NDEBUG beyond font_japanese font_chinese
                 font_korean c = Returns (Some picked)).
  { unfold pdfplaca_do_it_script. cbv zeta. unfold picked, c.
    cbn [ct_utf8_text].
    rewrite (u8_is_japanese_text_encoded NDEBUG beyond cps Hcps).
    rewrite (u8_is_chinese_text_encoded NDEBUG beyond cps Hcps).
    rewrite (u8_is_korean_text_encoded NDEBUG beyond cps Hcps).
    rewrite !rank_of_zero, !negb_involutive.
    destruct (existsb japanese_kana cps || existsb japanese_other cps).
    { destruct font_japanese; reflexivity. }
    destruct (existsb chinese_range cps) eqn:Ec.
    { cbn. destruct font_chinese; reflexivity. }
    rewrite (existsb_korean_other cps Ec), orb_false_r. cbn.
    destruct (existsb korean_hangul cps).
    { destruct font_korean; reflexivity. }
    reflexivity. }
  split; [exact Hs|]. split.
  - unfold pdfplaca_do_it_text. fold c. rewrite Hs.
    unfold pdfplaca_do_it_unescape. rewrite mstr_replace_all_byte.
    reflexivity.
  - intros cp H. unfold japanese_other. rewrite H.
    now rewrite !orb_true_r.
Qed.

Lemma pdfplaca_do_it_text_script_witness :
  let cps := [0x4F60; 0x597D]%Z in
  let c := {| ct_utf8_text := u8_encode_all cps;
              ct_utf8_font_name := bytes_of "SimSun";
              ct_vertical := true |} in
  let error := fun message : list byte =>
    {| ct_utf8_text := message;
       ct_utf8_font_name := bytes_of "Arial";
       ct_vertical := false |} in
  let picked :=
    if existsb japanese_kana cps || existsb japanese_other cps then
      if false then c
      else error (bytes_of "   Error:   
Not Japanese font")
    else if existsb chinese_range cps then
      if true then c
      else error (bytes_of "   Error:   
Not Chinese font")
    else if existsb korean_hangul cps then
      if false then c
      else error (bytes_of "   Error:   
Not Korean font")
    else c in
  pdfplaca_do_it_script true (fun _ => x00) false true false c
  = Returns (Some picked) /\
  pdfplaca_do_it_text true (fun _ => x00) false true false
    (u8_encode_all cps) (bytes_of "SimSun") true
  = Returns
      (Some {| ct_utf8_text :=
                 substitute x09 (bytes_of "   ")
                   (mstr_unescape (c_str (ct_utf8_text picked)));
               ct_utf8_font_name := ct_utf8_font_name picked;
               ct_vertical := ct_vertical picked |}) /\
  (forall cp : Z, in_range 0x4E00 0x9FCB cp = true ->
                  japanese_other cp = true).
Proof.
  apply (pdfplaca_do_it_text_script true (fun _ => x00) false true false
           [0x4F60; 0x597D]%Z (bytes_of "SimSun") true).
  repeat constructor.
Defined.

(** A text of two Chinese characters in a font that has Chinese glyphs
    and no kana is answered with "Not Japanese font". *)
Example pdfplaca_do_it_text_chinese :
  pdfplaca_do_it_text true (fun _ => x00) false true false
    (bytes_of "你好") (bytes_of "SimSun") true
  = Returns (Some {| ct_utf8_text := bytes_of "   Error:   
Not Japanese font";
                     ct_utf8_font_name := bytes_of "Arial";
                     ct_vertical := false |}).
Proof.
  vm_compute. reflexivity.
Qed.

(** ** A page of a fixed number of letters is one row *)

Lemma draw_pages_loop_in (size_bits : Z) (chars : list (list byte)) (k : Z)
  (n : nat) (page : list byte) (x : byte) :
  (0 < k)%Z -> no_nul (concat chars) ->
  (Z.of_nat n * k < 2 ^ size_bits)%Z ->
  In page (draw_pages_loop size_bits n chars k 0 0 []) ->
  In x page -> In x (concat chars).
Proof.
  intros Hk Hnul Hfit Hpage Hx.
  destruct (draw_pages_loop_spec size_bits chars k Hk Hnul n 0 [])
    as [_ Hcat]; [lia | lia |].
  change (0 * k)%Z with 0%Z in Hcat. cbn [concat app Z.to_nat skipn] in Hcat.
  assert (Hin : In x (concat (draw_pages_loop size_bits n chars k 0 0 [])))
    by (apply in_concat; exists page; split; assumption).
  rewrite Hcat in Hin. apply in_concat in Hin.
  destruct Hin as [c [Hc Hxc]]. apply in_concat. exists c.
  split; [|exact Hxc]. now apply in_firstn in Hc.
Qed.

Lemma u8_split_by_newlines_one_row (page : list byte) :
  (forall x : byte, In x page -> x <> x0d /\ x <> x0a /\ x <> x00) ->
  u8_split_by_newlines page = Some [page].
Proof.
  intros Hfree.
  assert (Hcr : ~ In x0d page) by (intros H; now apply Hfree in H).
  assert (Hlf : ~ In x0a page) by (intros H; now apply Hfree in H).
  assert (Hnul : no_nul page).
  { unfold no_nul. rewrite Forall_forall. intros x Hx. now apply Hfree. }
  unfold u8_split_by_newlines. rewrite (c_str_id _ Hnul).
  rewrite mstr_replace_all_subst by discriminate.
  rewrite (subst_all_no_occurrence _ _ _ x0d) by (try assumption; now left).
  rewrite mstr_replace_all_byte, (substitute_absent _ _ _ Hcr).
  rewrite mstr_split_split_at. f_equal.
  rewrite <- (app_nil_r page) at 1.
  rewrite (split_at_row _ _ _ Hlf). reflexivity.
Qed.

Local Open Scope Q_scope.

(** With a number of letters per page, every page that [pdfplaca_do_it]
    draws is a single row, or a single column, that takes the whole
    printable area: the spaces and the line ends have been deleted from
    the text, so no page has a second row.  The third hypothesis says
    that the number of characters and that of the letters per page, added,
    are a [size_t]. *)
Theorem pdfplaca_do_it_pages_one_row (size_bits k : Z)
  (utf8_text stripped : list byte) (pages : list (list byte))
  (page : list byte) (g_vertical : bool)
  (page_width page_height margin : Q) :
  (0 < k)%Z ->
  delete_spaces utf8_text = Some stripped ->
  (Z.of_nat (length (u8_split_chars [] (c_str stripped))) + k - 1
   < 2 ^ size_bits)%Z ->
  pdfplaca_do_it_pages size_bits utf8_text k = Some pages ->
  In page pages ->
  u8_split_by_newlines page = Some [page] /\
  exists box : rectangle,
    pdfplaca_draw_page g_vertical page page_width page_height
      (printable page_width margin) (printable page_height margin) margin
    = Some [(box, page)] /\
    rect_x box == margin /\ rect_y box == margin /\
    rect_width box == printable page_width margin /\
    rect_height box == printable page_height margin.
Proof.
  intros Hk Hstrip Hfit Hpages Hpage.
  unfold pdfplaca_do_it_pages in Hpages. rewrite Hstrip in Hpages.
  destruct (k =? -1)%Z eqn:E1; [apply Z.eqb_eq in E1; lia|].
  destruct (0 <? k)%Z eqn:E2; [|apply Z.ltb_ge in E2; lia].
  injection Hpages as <-.
  set (chars := u8_split_chars [] (c_str stripped)) in *.
  set (n := Z.of_nat (length chars)) in *.
  assert (Hcat : concat chars = c_str stripped).
  { unfold chars, u8_split_chars. now rewrite u8_split_chars_loop_concat. }
  assert (Hnum : num_page size_bits chars k = ((n + k - 1) / k)%Z).
  { unfold num_page, size_t. fold n.
    rewrite Zminus_mod_idemp_l. rewrite Z.mod_small by lia. reflexivity. }
  assert (Hdiv : (k * ((n + k - 1) / k) <= n + k - 1)%Z)
    by (apply Z.mul_div_le; lia).
  assert (Hpos : (0 <= (n + k - 1) / k)%Z) by (apply Z.div_pos; lia).
  rewrite Hnum in Hpage.
  assert (Hnul : no_nul (concat chars))
    by (rewrite Hcat; apply c_str_no_nul).
  assert (Hfree : forall x : byte,
            In x page -> x <> x0d /\ x <> x0a /\ x <> x00).
  { intros x Hx.
    assert (Hin : In x (concat chars)).
    { apply (draw_pages_loop_in size_bits chars k
               (Z.to_nat ((n + k - 1) / k)) page x Hk Hnul);
        [|exact Hpage | exact Hx].
      rewrite Z2Nat.id by lia. lia. }
    assert (Hx0 : x <> x00).
    { unfold no_nul in Hnul. rewrite Forall_forall in Hnul.
      now apply Hnul. }
    rewrite Hcat in Hin.
    assert (Hs : In x stripped).
    { clear - Hin. induction stripped as [|y s IH]; [exact Hin|].
      cbn [c_str] in Hin. destruct (Byte.eqb y x00); [destruct Hin|].
      destruct Hin as [Hin|Hin]; [now left | right; now apply IH]. }
    destruct (delete_spaces_in _ _ _ Hstrip Hs) as [_ Hb].
    repeat split; try assumption; intros ->; discriminate Hb. }
  pose proof (u8_split_by_newlines_one_row page Hfree) as Hrow.
  split; [exact Hrow|].
  unfold pdfplaca_draw_page. rewrite Hrow.
  assert (Hnp : c_str page = page).
  { apply c_str_id. unfold no_nul. rewrite Forall_forall.
    intros x Hx. now apply Hfree. }
  destruct g_vertical.
  - unfold pdfplaca_draw_v_page. cbn [pdfplaca_draw_v_page_loop fst length].
    rewrite Hnp. eexists. split; [reflexivity|].
    cbn [rect_x rect_y rect_width rect_height].
    unfold row_extent, printable.
    rewrite Q_of_size_S, Q_of_size_0.
    repeat split; try reflexivity; field.
  - unfold pdfplaca_draw_h_page. cbn [pdfplaca_draw_h_page_loop fst length].
    rewrite Hnp. eexists. split; [reflexivity|].
    cbn [rect_x rect_y rect_width rect_height].
    unfold row_extent, printable.
    rewrite Q_of_size_S, Q_of_size_0.
    repeat split; try reflexivity; field.
Qed.

Lemma pdfplaca_do_it_pages_one_row_witness :
  delete_spaces (bytes_of "a b　cあ de") = Some (bytes_of "abcあde") /\
  pdfplaca_do_it_pages 64 (bytes_of "a b　cあ de") 2
  = Some [bytes_of "ab"; bytes_of "cあ"; bytes_of "de"] /\
  u8_split_by_newlines (bytes_of "cあ") = Some [bytes_of "cあ"] /\
  exists box : rectangle,
    pdfplaca_draw_page false (bytes_of "cあ") 842 595
      (printable 842 23) (printable 595 23) 23
    = Some [(box, bytes_of "cあ")] /\
    rect_x box == 23 /\ rect_y box == 23 /\
    rect_width box == printable 842 23 /\
    rect_height box == printable 595 23.
Proof.
  split; [reflexivity|]. split; [reflexivity|].
  apply (pdfplaca_do_it_pages_one_row 64 2 (bytes_of "a b　cあ de")
           (bytes_of "abcあde")
           [bytes_of "ab"; bytes_of "cあ"; bytes_of "de"]
           (bytes_of "cあ") false 842 595 23).
  - lia.
  - reflexivity.
  - vm_compute. reflexivity.
  - reflexivity.
  - right. now left.
Defined.

(** ** From the command line to the page *)

Local Open Scope Q_scope.

Section CommandLinePage.

Variable stscanf_lfxlf : list byte -> option (parsed_double * parsed_double).
Variable tcstod : list byte -> parsed_double * list byte.
Variable ttoi : list byte -> Z.
Variable color_value_parse : list byte -> Z.
Variable default_font : list byte.

Lemma globals_default_sound :
  globals_sound (globals_default stscanf_lfxlf default_font).
Proof.
  unfold globals_sound. cbn. repeat split; try reflexivity. now right.
Qed.

Lemma pdfplaca_parse_cmdline_loop_sound (n : nat) :
  forall (args : list (list byte)) (g g' : globals),
    (length args <= n)%nat ->
    globals_sound g ->
    pdfplaca_parse_cmdline_loop stscanf_lfxlf tcstod ttoi color_value_parse
      args g = Some g' ->
    globals_sound g'.
Proof.
  induction n as [|n IH]; intros [|arg args] g g' Hlen Hg H;
    cbn [length] in Hlen; try lia.
  - now injection H as <-.
  - now injection H as <-.
  - cbn [pdfplaca_parse_cmdline_loop] in H.
    destruct Hg as [Ho [Hw [Hh Hm]]].
    repeat match type of H with
           | (if ?b then _ else _) = _ => destruct b eqn:?
           end;
      try discriminate H;
      try (destruct args as [|value args]; [discriminate H|];
           cbn [length] in Hlen);
      try (destruct (page_size_parse stscanf_lfxlf value)
             as [[width height]|] eqn:Ep; [|discriminate H]);
      try (destruct (tcstod value) as [[q|] endptr];
           try discriminate H;
           repeat match type of H with
                  | (if ?b then _ else _) = _ => destruct b eqn:?
                  end; try discriminate H);
      (eapply IH; [|  |exact H]; [lia|]);
      unfold globals_sound;
      cbn [g_orientation g_page_width g_page_height g_margin];
      repeat split; try assumption; try (now left); try (now right).
    all: try (apply page_size_parse_positive in Ep; tauto).
    all: try (match goal with
              | E : (_ || _ || Qle_bool _ 0) = false |- _ =>
                  apply orb_false_elim in E; destruct E as [_ E];
                  apply Qle_bool_false in E; exact E
              end).
Qed.


(** When [pdfplaca_parse_cmdline] has accepted a command line, the
    orientation is one of the two that [pdfplaca_do_it] knows, so that
    [pdfplaca_do_it] does not give up over it; the page it works with has
    positive sides and is turned as the orientation says: not wider than
    high in portrait orientation, not higher than wide in landscape
    orientation; and the margin is positive. *)
Theorem pdfplaca_parse_cmdline_page (argv : list (list byte)) (g : globals) :
  pdfplaca_parse_cmdline stscanf_lfxlf tcstod ttoi color_value_parse
    default_font argv = Some g ->
  exists page_width page_height : Q,
    pdfplaca_do_it_page (g_orientation g) (g_page_width g) (g_page_height g)
    = Some (page_width, page_height) /\
    0 < page_width /\ 0 < page_height /\ 0 < g_margin g /\
    (g_orientation g = bytes_of "portrait" /\ page_width <= page_height
     \/ g_orientation g = bytes_of "landscape" /\ page_height <= page_width).
Proof.
  unfold pdfplaca_parse_cmdline. intros H.
  apply (pdfplaca_parse_cmdline_loop_sound (length (tl argv))) in H;
    [|lia | apply globals_default_sound].
  destruct H as [Ho [Hw [Hh Hm]]].
  assert (Pw : 0 < pt_from_mm (g_page_width g))
    by (unfold pt_from_mm; apply Qmult_lt_0_compat; [exact Hw | reflexivity]).
  assert (Ph : 0 < pt_from_mm (g_page_height g))
    by (unfold pt_from_mm; apply Qmult_lt_0_compat; [exact Hh | reflexivity]).
  pose proof (pdfplaca_do_it_page_sides (g_orientation g) (g_page_width g)
                (g_page_height g)) as Hs.
  destruct (pdfplaca_do_it_page (g_orientation g) (g_page_width g)
              (g_page_height g)) as [[pw ph]|].
  - exists pw, ph. destruct Hs as [Hsides [Hp Hl]].
    split; [reflexivity|].
    assert (Hpos : 0 < pw /\ 0 < ph)
      by (destruct Hsides as [[-> ->]|[-> ->]]; split; assumption).
    destruct Hpos as [Hpw Hph].
    repeat split; try assumption.
    destruct Ho as [Ho|Ho]; [left | right]; (split; [exact Ho|]);
      [apply Hp | apply Hl]; rewrite Ho; reflexivity.
  - exfalso. destruct Hs as [Hp Hl].
    destruct Ho as [Ho|Ho]; rewrite Ho in *; discriminate.
Qed.

End CommandLinePage.

Lemma pdfplaca_parse_cmdline_page_witness :
  exists (g : globals) (page_width page_height : Q),
    pdfplaca_parse_cmdline sample_stscanf sample_tcstod (fun _ => 0%Z)
      (fun _ => 0%Z) (bytes_of "Tahoma")
      [bytes_of "pdfplaca"; bytes_of "--PORTRAIT"; bytes_of "--page-size";
       bytes_of "100x50"] = Some g /\
    pdfplaca_do_it_page (g_orientation g) (g_page_width g) (g_page_height g)
    = Some (page_width, page_height) /\
    0 < page_width /\ 0 < page_height /\ 0 < g_margin g /\
    (g_orientation g = bytes_of "portrait" /\ page_width <= page_height
     \/ g_orientation g = bytes_of "landscape" /\ page_height <= page_width).
Proof.
  eexists.
  assert (H : pdfplaca_parse_cmdline sample_stscanf sample_tcstod
                (fun _ => 0%Z) (fun _ => 0%Z) (bytes_of "Tahoma")
                [bytes_of "pdfplaca"; bytes_of "--PORTRAIT";
                 bytes_of "--page-size"; bytes_of "100x50"] = Some _)
    by (vm_compute; reflexivity).
  destruct (pdfplaca_parse_cmdline_page sample_stscanf sample_tcstod
              (fun _ => 0%Z) (fun _ => 0%Z) (bytes_of "Tahoma") _ _ H)
    as [pw [ph Hp]].
  exists pw, ph. split; [exact H | exact Hp].
Defined.
